(** * spiff: shallow embedding of the dynaml front end and of the library
      context, with the properties checked against the specification.

    The development follows the layout of the repository:
    - [TagName]    dynaml/expression.go, CheckTagName
    - [Spiffing]   spiffing/spiff.go, the context, its capability mode and
                   the binding it processes with
    - [Evaluation] dynaml/expression.go and dynaml/string.go, the evaluator
                   contract, the evaluation infos, the tags and the
                   helpers that resolve operands
    - [Wireguard]  dynaml/wireguard/key.go, keys, their base64 form and
                   generated keys
    - [Peg]        dynaml/dynaml.peg.go, the generated PEG parser
    - [MergeCmd]   cmd/merge.go, the diagnostics of the merge command and
                   the value definitions

    Runes, bytes and machine integers are integers in [Z]; Go strings are
    given by their rune sequence (what [range] and [[]rune(s)] yield). *)

From stdpp Require Import gmap.
From Stdlib Require Import ZArith List Bool Ascii String DecimalString Lia.
Import ListNotations.

#[local] Open Scope Z_scope.
#[local] Set Warnings "-register-all".

(** A rune literal, as in Go's [rune('x')]. *)
Definition rune := Z.
Definition rune_of (a : ascii) : rune := Z.of_N (N_of_ascii a).

Definition in_range (lo hi c : rune) : bool := (lo <=? c) && (c <=? hi).

(** Replaces every rune literal by its code point. *)
Ltac norm_runes :=
  repeat match goal with
    | |- context [rune_of ?a] =>
        let v := eval vm_compute in (rune_of a) in change (rune_of a) with v
    | H : context [rune_of ?a] |- _ =>
        let v := eval vm_compute in (rune_of a) in change (rune_of a) with v in H
    end.

(** ** dynaml/expression.go: CheckTagName *)
Module TagName.

Inductive error :=
| EmptyComponent              (* "empty tag component not allowed" *)
| StartsWithDigit             (* "tag component must start with alnum rune" *)
| InvalidCharacter (c : rune) (* "invalid character %q in tag component" *).

(** The body of the [for _, c := range name] loop; [l] is the number of
    runes of the current component read so far.  It is bounded by the
    length of the string, which fits Go's [int], so [l++] cannot wrap. *)
Fixpoint check (l : Z) (name : list rune) : option error :=
  match name with
  | [] => None
  | c :: rest =>
      if c =? rune_of ":" then
        if l =? 0 then Some EmptyComponent else check 0 rest
      else
        let l := l + 1 in
        if in_range (rune_of "0") (rune_of "9") c then
          if l =? 1 then Some StartsWithDigit else check l rest
        else if in_range (rune_of "a") (rune_of "z") c then check l rest
        else if in_range (rune_of "A") (rune_of "Z") c then check l rest
        else Some (InvalidCharacter c)
  end.

(** [CheckTagName]: [None] is Go's [nil] error. *)
Definition CheckTagName (name : list rune) : option error := check 0 name.

Definition is_digit (c : rune) : Prop := 48 <= c <= 57.
Definition is_letter (c : rune) : Prop := 97 <= c <= 122 \/ 65 <= c <= 90.

(** Index [i] starts a component: it is the first rune of the name or
    follows a colon. *)
Definition component_start (name : list rune) (i : nat) : Prop :=
  i = 0%nat \/ (exists j, i = S j /\ nth_error name j = Some 58).

(** The three ways the rune [c] at index [i] makes a name invalid: a colon
    with no component before it, a digit that starts a component, a rune
    that is neither a colon nor an ASCII letter or digit. *)
Definition offending (name : list rune) (i : nat) (c : rune) : Prop :=
  (c = 58 /\ component_start name i)
  \/ (is_digit c /\ component_start name i)
  \/ (c <> 58 /\ ~ is_digit c /\ ~ is_letter c).

Definition invalid (name : list rune) : Prop :=
  exists i c, nth_error name i = Some c /\ offending name i c.

(** The loop started in the middle of a name: [l = 0] says that the
    position is a component start. *)
Definition offending_from (l : Z) (rest : list rune) (i : nat) (c : rune) : Prop :=
  (c = 58 /\ (i = 0%nat /\ l = 0 \/ exists j, i = S j /\ nth_error rest j = Some 58))
  \/ (is_digit c /\ (i = 0%nat /\ l = 0 \/ exists j, i = S j /\ nth_error rest j = Some 58))
  \/ (c <> 58 /\ ~ is_digit c /\ ~ is_letter c).

Lemma offending_from_zero name i c :
  offending_from 0 name i c <-> offending name i c.
Proof.
  unfold offending_from, offending, component_start. intuition.
Qed.

Lemma offending_from_shift l l' d rest i c :
  (l' = 0 <-> d = 58) ->
  (offending_from l (d :: rest) (S i) c <-> offending_from l' rest i c).
Proof.
  intros Hl. unfold offending_from.
  assert (Hs : (S i = 0%nat /\ l = 0 \/ (exists j, S i = S j /\ nth_error (d :: rest) j = Some 58))
               <-> (i = 0%nat /\ l' = 0 \/ (exists j, i = S j /\ nth_error rest j = Some 58))).
  { split.
    - intros [[H _] | [j [Hj Hn]]]; [discriminate |].
      injection Hj as <-. destruct i as [| i].
      + left. split; [reflexivity |]. simpl in Hn. apply Hl. congruence.
      + right. exists i. split; [reflexivity | exact Hn].
    - intros [[-> H0] | [j [-> Hn]]].
      + right. exists 0%nat. split; [reflexivity |]. simpl. f_equal. now apply Hl.
      + right. exists (S j). split; [reflexivity | exact Hn]. }
  rewrite Hs. reflexivity.
Qed.

Lemma check_spec rest : forall l, 0 <= l ->
  (check l rest <> None <->
   exists i c, nth_error rest i = Some c /\ offending_from l rest i c).
Proof.
  induction rest as [| d rest IH]; intros l Hl.
  - simpl. split; [congruence |]. intros (i & c & Hn & _). destruct i; discriminate.
  - assert (Hshift : forall l', 0 <= l' -> (l' = 0 <-> d = 58) ->
              ~ offending_from l (d :: rest) 0 d ->
              (check l' rest <> None <->
               exists i c, nth_error (d :: rest) i = Some c /\ offending_from l (d :: rest) i c)).
    { intros l' Hl' Hd Hok. rewrite (IH l' Hl'). split.
      - intros (i & c & Hn & Ho). exists (S i), c. split; [exact Hn |].
        now apply (offending_from_shift l l' d rest i c Hd).
      - intros (i & c & Hn & Ho). destruct i as [| i].
        + simpl in Hn. injection Hn as <-. contradiction.
        + exists i, c. split; [exact Hn |].
          now apply (offending_from_shift l l' d rest i c Hd). }
    assert (Hbad : offending_from l (d :: rest) 0 d ->
              (exists i c, nth_error (d :: rest) i = Some c /\ offending_from l (d :: rest) i c)).
    { intros H. exists 0%nat, d. split; [reflexivity | exact H]. }
    simpl. unfold in_range. norm_runes.
    destruct (Z.eqb_spec d 58) as [-> | Hne].
    + destruct (Z.eqb_spec l 0) as [-> | Hl0].
      * split; [intros _ | congruence]. apply Hbad. left. tauto.
      * apply Hshift; [lia | tauto |].
        unfold offending_from, is_digit. intros [[_ [[_ H] | [j [H _]]]] | [[H _] | [H _]]];
          try lia; try discriminate.
    + assert (Hnz : l + 1 = 0 <-> d = 58) by (split; intros; [lia | contradiction]).
      destruct (48 <=? d) eqn:E1, (d <=? 57) eqn:E2; simpl;
        try (destruct (Z.eqb_spec (l + 1) 1) as [El | El]);
        try (destruct (97 <=? d) eqn:E3); try (destruct (d <=? 122) eqn:E4);
        try (destruct (65 <=? d) eqn:E5); try (destruct (d <=? 90) eqn:E6); simpl;
        try (apply Hshift; [lia | exact Hnz |];
             unfold offending_from, is_digit, is_letter;
             intros [[H _] | [[H [[_ H'] | [j [H' _]]]] | [_ [H1 H2]]]];
             try contradiction; try discriminate; try lia; try (apply H1; lia);
             try (apply H2; lia));
        try (split; [intros _ | congruence]; apply Hbad;
             unfold offending_from, is_digit, is_letter;
             first [ right; left; split; [lia | left; split; [reflexivity | lia]]
                   | right; right; split; [exact Hne | split; lia] ]).
Qed.

(** C9. [CheckTagName] returns an error exactly when the name has a colon
    with no component before it, a component that starts with a digit, or a
    rune that is no ASCII letter or digit and no colon; an underscore is
    therefore rejected, the empty name is accepted, and so is a valid name
    that does not end in a colon once a colon is appended. *)
Theorem CheckTagName_error_iff :
  (forall name, CheckTagName name <> None <-> invalid name)
  /\ (forall name, In (rune_of "_") name -> CheckTagName name <> None)
  /\ CheckTagName [] = None
  /\ (forall name c, CheckTagName (name ++ [c]) = None -> c <> 58 ->
        CheckTagName (name ++ [c; 58]) = None).
Proof.
  assert (Hiff : forall name, CheckTagName name <> None <-> invalid name).
  { intros name. unfold CheckTagName, invalid. rewrite (check_spec name 0) by lia.
    split; intros (i & c & Hn & Ho); exists i, c; split; try exact Hn;
      now apply offending_from_zero. }
  split; [exact Hiff |]. split; [| split].
  - intros name Hin. apply Hiff. apply In_nth_error in Hin as [i Hi].
    exists i, (rune_of "_"). split; [exact Hi |]. right. right.
    norm_runes. unfold is_digit, is_letter. lia.
  - reflexivity.
  - intros name c Hok Hc.
    destruct (CheckTagName (name ++ [c; 58])) eqn:E; [| reflexivity]. exfalso.
    assert (Hbad : CheckTagName (name ++ [c; 58]) <> None) by congruence.
    apply Hiff in Hbad. destruct Hbad as (i & d & Hn & Ho).
    assert (Hgood : ~ invalid (name ++ [c])) by (rewrite <- Hiff; tauto).
    change (name ++ [c; 58]) with (name ++ [c] ++ [58]) in *.
    rewrite app_assoc in Hn, Ho.
    assert (Hlen : (i < List.length ((name ++ [c]) ++ [58%Z]))%nat)
      by (apply nth_error_Some; congruence).
    rewrite length_app in Hlen. simpl in Hlen.
    destruct (Nat.eq_dec i (List.length (name ++ [c]))) as [-> | Hi].
    + rewrite nth_error_app2 in Hn by lia. rewrite Nat.sub_diag in Hn.
      simpl in Hn. injection Hn as <-.
      destruct Ho as [[_ Hs] | [[Hd _] | [Hd _]]];
        [| unfold is_digit in Hd; lia | congruence].
      destruct Hs as [H0 | [j [Hj Hnj]]].
      * rewrite length_app in H0. simpl in H0. lia.
      * rewrite length_app in Hj. simpl in Hj.
        assert (j = List.length name) by lia. subst j.
        rewrite <- app_assoc in Hnj. rewrite nth_error_app2 in Hnj by lia.
        rewrite Nat.sub_diag in Hnj. simpl in Hnj. congruence.
    + apply Hgood. exists i, d.
      rewrite nth_error_app1 in Hn by lia. split; [exact Hn |].
      destruct Ho as [[H1 Hs] | [[H1 Hs] | H1]]; [left | right; left | right; right; exact H1];
        (split; [exact H1 |]); destruct Hs as [H0 | [j [Hj Hnj]]];
        try (left; exact H0); right; exists j; (split; [exact Hj |]);
        rewrite nth_error_app1 in Hnj by lia; exact Hnj.
Qed.

End TagName.

(** ** spiffing/spiff.go: the spiff context and its capability mode *)
Module Spiffing.

Section Context.

(** The mode constants are declared in a file of the package that is not
    part of the sources at hand; the model is parametric in them. *)
Variables MODE_OS_ACCESS MODE_DEFAULT : Z.

(** Collaborators of other packages: a [vfs.FileSystem] handle (Go's [nil]
    is [None]), [flow.Options], the value nodes, the function registry,
    the tags and the binding built by [assureBinding]. *)
Variables FileSystem Options Values Functions Tags Binding : Type.

(** [features.EncryptionKey()] and the interpolation feature flag, read by
    [New]. *)
Variable encryptionKey : string.
Variable interpolationFeature : bool.

(** [yaml.Sanitize] applied to the values handed to [WithValues]; [None] is
    its error. *)
Variable Sanitize : Values -> option Values.

(** [flow.NewState] and [flow.NewEnvironment] as used by [assureBinding]:
    the binding is a function of the fields of the context. *)
Variable newBinding :
  string -> Z -> option FileSystem -> option Functions -> bool ->
  option Tags -> option Values -> Binding.

(** [SetTag]'s update of the tag map. *)
Variable setTag : option Tags -> string -> option Tags.
Variable emptyTags : Tags.

Record spiff := {
  key : string;
  mode : Z;
  fs : option FileSystem;
  opts : option Options;
  values : option Values;
  functions : option Functions;
  tags : option Tags;
  interpolation : bool;
  binding : option Binding
}.

Definition New : spiff :=
  {| key := encryptionKey; mode := MODE_DEFAULT; fs := None; opts := None;
     values := None; functions := None; tags := None;
     interpolation := interpolationFeature; binding := None |}.

Definition Reset (s : spiff) : spiff :=
  {| key := key s; mode := mode s; fs := fs s; opts := opts s;
     values := values s; functions := functions s; tags := tags s;
     interpolation := interpolation s; binding := None |}.

Definition assureBinding (s : spiff) : spiff :=
  match binding s with
  | Some _ => s
  | None =>
      {| key := key s; mode := mode s; fs := fs s; opts := opts s;
         values := values s; functions := functions s; tags := tags s;
         interpolation := interpolation s;
         binding := Some (newBinding (key s) (mode s) (fs s) (functions s)
                            (interpolation s) (tags s) (values s)) |}
  end.

Definition WithInterpolation (s : spiff) (b : bool) : spiff :=
  Reset {| key := key s; mode := mode s; fs := fs s; opts := opts s;
           values := values s; functions := functions s; tags := tags s;
           interpolation := b; binding := binding s |}.

Definition WithEncryptionKey (s : spiff) (k : string) : spiff :=
  Reset {| key := k; mode := mode s; fs := fs s; opts := opts s;
           values := values s; functions := functions s; tags := tags s;
           interpolation := interpolation s; binding := binding s |}.

(** [mode & ^MODE_OS_ACCESS] on Go's [int]: two's complement, as [Z.land]
    and [Z.lnot]. *)
Definition clear_os_access (m : Z) : Z := Z.land m (Z.lnot MODE_OS_ACCESS).

Definition WithMode (s : spiff) (m : Z) : spiff :=
  let m := match fs s with Some _ => clear_os_access m | None => m end in
  Reset {| key := key s; mode := m; fs := fs s; opts := opts s;
           values := values s; functions := functions s; tags := tags s;
           interpolation := interpolation s; binding := binding s |}.

Definition WithFileSystem (s : spiff) (f : option FileSystem) : spiff :=
  let m := match f with Some _ => clear_os_access (mode s) | None => mode s end in
  Reset {| key := key s; mode := m; fs := f; opts := opts s;
           values := values s; functions := functions s; tags := tags s;
           interpolation := interpolation s; binding := binding s |}.

Definition WithFunctions (s : spiff) (f : option Functions) : spiff :=
  Reset {| key := key s; mode := mode s; fs := fs s; opts := opts s;
           values := values s; functions := f; tags := tags s;
           interpolation := interpolation s; binding := binding s |}.

(** [WithValues]: [None] is the error of [yaml.Sanitize]. *)
Definition WithValues (s : spiff) (v : option Values) : option spiff :=
  match v with
  | Some v =>
      match Sanitize v with
      | None => None
      | Some nodes =>
          Some (Reset {| key := key s; mode := mode s; fs := fs s; opts := opts s;
                         values := Some nodes; functions := functions s; tags := tags s;
                         interpolation := interpolation s; binding := binding s |})
      end
  | None =>
      Some (Reset {| key := key s; mode := mode s; fs := fs s; opts := opts s;
                     values := None; functions := functions s; tags := tags s;
                     interpolation := interpolation s; binding := binding s |})
  end.

Definition SetTag (s : spiff) (tag : string) : spiff :=
  Reset {| key := key s; mode := mode s; fs := fs s; opts := opts s;
           values := values s; functions := functions s; tags := setTag (tags s) tag;
           interpolation := interpolation s; binding := binding s |}.

Definition CleanupTags (s : spiff) : spiff :=
  {| key := key s; mode := mode s; fs := fs s; opts := opts s;
     values := values s; functions := functions s; tags := Some emptyTags;
     interpolation := interpolation s; binding := None |}.

(** The contexts a client can obtain: [New], then any sequence of the
    methods of the context.  [Cascade], [PrepareStubs] and [ApplyStubs]
    change the context through [Reset] and [assureBinding] only. *)
Inductive reachable : spiff -> Prop :=
| R_New : reachable New
| R_Reset s : reachable s -> reachable (Reset s)
| R_assureBinding s : reachable s -> reachable (assureBinding s)
| R_WithInterpolation s b : reachable s -> reachable (WithInterpolation s b)
| R_WithEncryptionKey s k : reachable s -> reachable (WithEncryptionKey s k)
| R_WithMode s m : reachable s -> reachable (WithMode s m)
| R_WithFileSystem s f : reachable s -> reachable (WithFileSystem s f)
| R_WithFunctions s f : reachable s -> reachable (WithFunctions s f)
| R_WithValues s v s' : reachable s -> WithValues s v = Some s' -> reachable s'
| R_SetTag s t : reachable s -> reachable (SetTag s t)
| R_CleanupTags s : reachable s -> reachable (CleanupTags s).

(** The capability bit is off. *)
Definition os_access_off (m : Z) : Prop := Z.land m MODE_OS_ACCESS = 0.

Definition confined (s : spiff) : Prop := fs s <> None -> os_access_off (mode s).

Lemma clear_os_access_off m : os_access_off (clear_os_access m).
Proof.
  unfold os_access_off, clear_os_access.
  rewrite <- Z.land_assoc, (Z.land_comm (Z.lnot _)), Z.land_lnot_diag.
  apply Z.land_0_r.
Qed.

Lemma WithFileSystem_confined s f : confined (WithFileSystem s f).
Proof.
  unfold confined, WithFileSystem. simpl. destruct f; [intros _ | congruence].
  apply clear_os_access_off.
Qed.

Lemma WithMode_confined s m : confined (WithMode s m).
Proof.
  unfold confined, WithMode. simpl. destruct (fs s); [intros _ | congruence].
  apply clear_os_access_off.
Qed.

Lemma reachable_confined s : reachable s -> confined s.
Proof.
  induction 1 as [| s _ IH | s _ IH | s b _ IH | s k _ IH | s m _ _ | s f _ _
                 | s f _ IH | s v s' _ IH Hv | s t _ IH | s _ IH];
    try exact IH.
  - unfold confined. simpl. congruence.
  - unfold assureBinding. destruct (binding s); exact IH.
  - apply WithMode_confined.
  - apply WithFileSystem_confined.
  - unfold WithValues in Hv. destruct v as [v |].
    + destruct (Sanitize v); [injection Hv as <- | discriminate]. exact IH.
    + injection Hv as <-. exact IH.
Qed.

(** C8. Once a virtual filesystem is configured the OS-access capability
    stays off: [WithFileSystem] with a filesystem clears the bit of the
    current mode, [WithMode] on a context that has a filesystem clears it
    from the requested mode, and no reachable context has both a filesystem
    and the bit. *)
Theorem os_access_off_with_filesystem :
  (forall s f, os_access_off (mode (WithFileSystem s (Some f)))
               /\ fs (WithFileSystem s (Some f)) = Some f)
  /\ (forall s m, fs s <> None ->
        mode (WithMode s m) = clear_os_access m /\ os_access_off (mode (WithMode s m))
        /\ fs (WithMode s m) = fs s)
  /\ (forall s, reachable s -> ~ (fs s <> None /\ Z.land (mode s) MODE_OS_ACCESS <> 0)).
Proof.
  split; [| split].
  - intros s f. split; [| reflexivity]. apply clear_os_access_off.
  - intros s m Hfs. unfold WithMode. simpl. destruct (fs s); [| congruence].
    split; [reflexivity |]. split; [apply clear_os_access_off | reflexivity].
  - intros s Hr [Hfs Hbit]. apply Hbit. now apply reachable_confined.
Qed.

(** *** The binding handed to the processing *)

(** [Cascade], [PrepareStubs] and [ApplyStubs] by the binding they hand to
    the functions of [flow] and the context they leave; the results of
    these functions are not part of the context.  [ResetStream] acts on
    the binding by a function of [flow] and leaves the context as it is. *)
Definition Cascade (s : spiff) : option Binding * spiff :=
  let s := assureBinding (Reset s) in (binding s, Reset s).

Definition PrepareStubs (s : spiff) : option Binding * spiff :=
  let s := assureBinding (Reset s) in (binding s, s).

Definition ApplyStubs (s : spiff) : option Binding * spiff :=
  let s := assureBinding s in (binding s, s).

(** The binding that [assureBinding] builds for the context when the tags
    are [t]. *)
Definition built (s : spiff) (t : option Tags) : Binding :=
  newBinding (key s) (mode s) (fs s) (functions s) (interpolation s) t (values s).

(** A binding kept in the context was built for its settings. *)
Definition current (s : spiff) : Prop :=
  forall b, binding s = Some b -> exists t, b = built s t.

Lemma reachable_current s : reachable s -> current s.
Proof.
  induction 1 as [| s _ IH | s _ IH | s b _ IH | s k _ IH | s m _ _ | s f _ _
                 | s f _ IH | s v s' _ IH Hv | s t _ IH | s _ IH];
    try (intros b' Hb; discriminate Hb).
  - unfold assureBinding. destruct (binding s) eqn:E; [exact IH |].
    intros b' Hb. injection Hb as <-. now exists (tags s).
  - unfold WithValues in Hv. destruct v as [v |].
    + destruct (Sanitize v); [injection Hv as <- | discriminate].
      intros b' Hb. discriminate Hb.
    + injection Hv as <-. intros b' Hb. discriminate Hb.
Qed.

(** X23.  The binding of a context that a client can obtain was built for
    the key, mode, filesystem, functions, interpolation and values the
    context has now, every change of a setting drops it; so [Cascade],
    [PrepareStubs] and [ApplyStubs] process with a binding for the current
    settings, whose mode has no OS access when there is a filesystem, and
    [Cascade] leaves no binding behind. *)
Theorem processing_uses_a_binding_for_the_settings s (Hr : reachable s) :
  (forall b, binding s = Some b -> exists t, b = built s t)
  /\ fst (Cascade s) = Some (built s (tags s))
  /\ fst (PrepareStubs s) = Some (built s (tags s))
  /\ (exists t, fst (ApplyStubs s) = Some (built s t))
  /\ (fs s <> None -> os_access_off (mode s))
  /\ binding (snd (Cascade s)) = None
  /\ binding (snd (PrepareStubs s)) = fst (PrepareStubs s).
Proof using Type.
  pose proof (reachable_current s Hr) as Hc.
  split; [exact Hc |]. split; [reflexivity |]. split; [reflexivity |].
  split; [| split; [exact (reachable_confined s Hr) | split; reflexivity]].
  unfold ApplyStubs, assureBinding. destruct (binding s) as [b |] eqn:E.
  - cbn [fst]. rewrite E. destruct (Hc b E) as [t ->]. now exists t.
  - now exists (tags s).
Qed.

End Context.

(** A context with a filesystem, after stubs were prepared: the modes are
    bit sets with OS access as bit 2, a binding is given by the settings it
    was built for. *)
Lemma processing_uses_a_binding_for_the_settings_witness :
  let newBinding (k : string) (m : Z) (f : option unit) (fn : option unit) (i : bool)
        (t : option unit) (v : option unit) := (k, m, f, i) in
  let New := New 7 unit unit unit unit unit (string * Z * option unit * bool) "key" false in
  let Spiff := spiff unit unit unit unit unit (string * Z * option unit * bool) in
  let s : Spiff :=
    snd (PrepareStubs unit unit unit unit unit (string * Z * option unit * bool) newBinding
           (WithFileSystem 4 unit unit unit unit unit (string * Z * option unit * bool)
              New (Some tt))) in
  fst (ApplyStubs unit unit unit unit unit (string * Z * option unit * bool) newBinding s)
  = Some ("key"%string, 3, Some tt, false).
Proof.
  intros newBinding New Spiff s.
  destruct (processing_uses_a_binding_for_the_settings 4 7 unit unit unit unit unit
              (string * Z * option unit * bool) "key" false (fun v => Some v) newBinding
              (fun t _ => t) tt s) as (_ & _ & _ & [t Ht] & _).
  - apply R_assureBinding, R_Reset, R_WithFileSystem, R_New.
  - rewrite Ht. reflexivity.
Defined.

End Spiffing.

(** ** dynaml/expression.go and dynaml/string.go: the evaluator contract *)
Module Evaluation.

(** [yaml.Issue], by the fields that expression.go reads and writes. *)
Inductive Issue := {
  IssueText : string;
  Nested : list Issue;
  Sequence : bool
}.

Definition noIssue : Issue := {| IssueText := ""; Nested := []; Sequence := false |}.

Section Resolve.

(** [Binding] is an interface of the package, [Cleanup] another; [Data]
    stands for the dynamic values that are not expressions. *)
Variables Binding Cleanup Data : Type.

Record EvaluationInfo := {
  RedirectPath : option (list string);   (* a slice, [None] when nil *)
  Replace : bool;
  Merged : bool;
  Preferred : bool;
  KeyName : string;
  Source : string;
  LocalError : bool;
  Failed : bool;
  Undefined : bool;
  Raw : bool;
  InfoIssue : Issue;
  Cleanups : list Cleanup;
  NodeFlags : Z
}.

Definition DefaultInfo : EvaluationInfo :=
  {| RedirectPath := None; Replace := false; Merged := false; Preferred := false;
     KeyName := ""; Source := ""; LocalError := false; Failed := false;
     Undefined := false; Raw := false; InfoIssue := noIssue; Cleanups := [];
     NodeFlags := 0 |}.

Definition nonempty (s : string) : bool := negb (String.eqb s "").

Definition Join (i o : EvaluationInfo) : EvaluationInfo :=
  {| RedirectPath := match RedirectPath o with Some p => Some p | None => RedirectPath i end;
     Replace := Replace o;
     Merged := Merged i || Merged o;
     Preferred := Preferred i || Preferred o;
     KeyName := if nonempty (KeyName o) then KeyName o else KeyName i;
     Source := Source i;
     LocalError := if LocalError o then true else LocalError i;
     Failed := if Failed o then true else Failed i;
     Undefined := if Undefined o then true else Undefined i;
     Raw := Raw i;
     InfoIssue := if nonempty (IssueText (InfoIssue o)) then InfoIssue o else InfoIssue i;
     Cleanups := Cleanups i ++ Cleanups o;
     NodeFlags := Z.lor (NodeFlags i) (NodeFlags o) |}.

(** A call either returns or panics ([RaiseEvaluationError] panics with an
    [EvaluationError]); a panic unwinds through the callers below. *)
Inductive outcome (A : Type) :=
| Returned (a : A)
| Panicked (info : EvaluationInfo).
Arguments Returned {A} a.
Arguments Panicked {A} info.

(** A dynamic value ([interface{}]) is nil, an expression or other data;
    the interface [Expression] is given by its method [Evaluate]. *)
Inductive value :=
| VNil
| VExpr (e : Expression)
| VData (d : Data)
with Expression :=
| MkExpression (Evaluate : Binding -> bool -> outcome (value * EvaluationInfo * bool)).

Definition Evaluate (e : Expression) :=
  match e with MkExpression f => f end.

(** [KeepArgWrapper] is defined in a file that is not part of the sources. *)
Variable KeepArgWrapper : Expression -> Expression -> Expression.

(** The result of the helper and the contents of [*e] and [*resolved]
    after the call. *)
Record resolution := {
  res_value : value;
  res_info : EvaluationInfo;
  res_ok : bool;
  res_expr : Expression;
  res_resolved : bool
}.

Definition ResolveExpressionOrPushEvaluation
    (e : Expression) (resolved : bool) (info : option EvaluationInfo)
    (binding : Binding) (locally : bool) : outcome resolution :=
  match Evaluate e binding locally with
  | Panicked p => Panicked p
  | Returned (val, infoe, ok) =>
      let infoe := match info with Some i => Join i infoe | None => infoe end in
      if negb ok then
        Returned {| res_value := VNil; res_info := infoe; res_ok := false;
                    res_expr := e; res_resolved := resolved |}
      else
        match val with
        | VExpr v =>
            Returned {| res_value := VNil; res_info := infoe; res_ok := true;
                        res_expr := KeepArgWrapper v e; res_resolved := false |}
        | _ =>
            Returned {| res_value := val; res_info := infoe; res_ok := true;
                        res_expr := e; res_resolved := resolved |}
        end
  end.

(** C3. The helper reports [ok = false] only when [Evaluate] does; when
    [Evaluate] succeeds with a value that is still an expression, the helper
    returns [ok = true] with a nil value, sets the resolved flag to false and
    pushes the expression back, so a deferred value is never an error. *)
Theorem resolve_ok_only_on_hard_failure
    (e : Expression) (resolved : bool) (info : option EvaluationInfo)
    (binding : Binding) (locally : bool)
    (val : value) (infoe : EvaluationInfo) (ok : bool)
    (Hev : Evaluate e binding locally = Returned (val, infoe, ok)) :
  exists r,
    ResolveExpressionOrPushEvaluation e resolved info binding locally = Returned r
    /\ res_ok r = ok
    /\ res_info r = match info with Some i => Join i infoe | None => infoe end
    /\ (ok = false ->
          res_value r = VNil /\ res_expr r = e /\ res_resolved r = resolved)
    /\ (forall v, ok = true -> val = VExpr v ->
          res_value r = VNil /\ res_resolved r = false
          /\ res_expr r = KeepArgWrapper v e)
    /\ (ok = true -> (forall v, val <> VExpr v) ->
          res_value r = val /\ res_expr r = e /\ res_resolved r = resolved).
Proof.
  unfold ResolveExpressionOrPushEvaluation. rewrite Hev.
  destruct ok; simpl.
  - destruct val as [| v | d]; eexists; (split; [reflexivity |]); simpl;
      repeat split; try congruence; try (intros; discriminate);
      try (intros v' _ Hv; injection Hv as <-; reflexivity);
      try (intros _ Hne; exfalso; now apply (Hne v)).
  - eexists; (split; [reflexivity |]); simpl; repeat split; intros; discriminate.
Qed.

End Resolve.

Arguments VNil {Binding Cleanup Data}.
Arguments VExpr {Binding Cleanup Data} e.
Arguments VData {Binding Cleanup Data} d.
Arguments MkExpression {Binding Cleanup Data} Evaluate.
Arguments Returned {Cleanup A} a.
Arguments DefaultInfo {Cleanup}.

(** A literal that evaluates to itself, and an expression whose evaluation
    defers to it. *)
Definition resolved_example : Expression unit unit string :=
  MkExpression (fun _ _ => Returned (VData "x"%string, DefaultInfo, true)).

Definition deferred_example : Expression unit unit string :=
  MkExpression (fun _ _ => Returned (VExpr resolved_example, DefaultInfo, true)).

Lemma resolve_deferred_witness :
  exists r,
    ResolveExpressionOrPushEvaluation unit unit string (fun v _ => v)
      deferred_example true None tt false = Returned r
    /\ res_ok _ _ _ r = true
    /\ res_value _ _ _ r = VNil
    /\ res_resolved _ _ _ r = false
    /\ res_expr _ _ _ r = resolved_example.
Proof.
  destruct (resolve_ok_only_on_hard_failure unit unit string (fun v _ => v)
              deferred_example true None tt false
              (VExpr resolved_example) DefaultInfo true eq_refl)
    as (r & Hr & Hok & _ & _ & Hdef & _).
  destruct (Hdef resolved_example eq_refl eq_refl) as (Hv & Hres & He).
  exists r. repeat split; assumption.
Defined.

(** *** dynaml/string.go *)

(** [yaml.Node] of the package imported by string.go is the empty
    interface; the values that occur here are strings. *)
Inductive Node :=
| StringNode (s : string).

Record StringExpr := { Value : string }.

(** [func (e StringExpr) Evaluate(Binding) (yaml.Node, bool)]: the method
    takes the binding alone and returns a node and a flag. *)
Definition StringExpr_Evaluate {Binding : Type} (e : StringExpr) (b : Binding) : Node * bool :=
  (StringNode (Value e), true).

(** C5. What string.go computes for a string literal: the value and
    [true], with no evaluation info and no [locally] argument. *)
Theorem StringExpr_Evaluate_returns_pair :
  forall (Binding : Type) (b : Binding) (s : string),
    StringExpr_Evaluate {| Value := s |} b = (StringNode s, true).
Proof. reflexivity. Qed.

(** *** expression.go: joining evaluation infos *)

Arguments Panicked {Cleanup A} info.
Arguments Evaluate {Binding Cleanup Data} e.
Arguments Join {Cleanup} i o.
Arguments RedirectPath {Cleanup} _.
Arguments Replace {Cleanup} _.
Arguments Merged {Cleanup} _.
Arguments Preferred {Cleanup} _.
Arguments KeyName {Cleanup} _.
Arguments Source {Cleanup} _.
Arguments LocalError {Cleanup} _.
Arguments Failed {Cleanup} _.
Arguments Undefined {Cleanup} _.
Arguments Raw {Cleanup} _.
Arguments InfoIssue {Cleanup} _.
Arguments Cleanups {Cleanup} _.
Arguments NodeFlags {Cleanup} _.
Arguments res_value {Binding Cleanup Data} _.
Arguments res_info {Binding Cleanup Data} _.
Arguments res_ok {Binding Cleanup Data} _.
Arguments res_expr {Binding Cleanup Data} _.
Arguments res_resolved {Binding Cleanup Data} _.
Arguments ResolveExpressionOrPushEvaluation {Binding Cleanup Data}
  KeepArgWrapper e resolved info binding locally.

Lemma Join_assoc {Cleanup} (a b c : EvaluationInfo Cleanup) :
  Join (Join a b) c = Join a (Join b c).
Proof.
  destruct a, b, c. unfold Join.
  cbn [RedirectPath Replace Merged Preferred KeyName Source LocalError Failed Undefined
       Raw InfoIssue Cleanups NodeFlags].
  f_equal.
  - now destruct RedirectPath2, RedirectPath1.
  - now rewrite orb_assoc.
  - now rewrite orb_assoc.
  - destruct (nonempty KeyName2) eqn:E; [now rewrite E | reflexivity].
  - now destruct LocalError2, LocalError1.
  - now destruct Failed2, Failed1.
  - now destruct Undefined2, Undefined1.
  - destruct (nonempty (IssueText InfoIssue2)) eqn:E; [now rewrite E | reflexivity].
  - now rewrite app_assoc.
  - now rewrite Z.lor_assoc.
Qed.

Lemma nonempty_false s : nonempty s = false <-> s = ""%string.
Proof.
  unfold nonempty. destruct (String.eqb_spec s ""); cbn; split; congruence.
Qed.

(** X14.  [Join] is associative, so a chain of joins may be grouped in
    any way; the joined info has an error flag when either side has it and
    an issue text unless both are without; joining with [DefaultInfo]
    changes the [Replace] flag alone, which always comes from the
    argument. *)
Theorem Join_is_associative_and_keeps_errors {Cleanup} (a b c : EvaluationInfo Cleanup) :
  Join (Join a b) c = Join a (Join b c)
  /\ LocalError (Join a b) = LocalError a || LocalError b
  /\ Failed (Join a b) = Failed a || Failed b
  /\ Undefined (Join a b) = Undefined a || Undefined b
  /\ (IssueText (InfoIssue (Join a b)) = ""%string
      <-> IssueText (InfoIssue a) = ""%string /\ IssueText (InfoIssue b) = ""%string)
  /\ Join a DefaultInfo
     = {| RedirectPath := RedirectPath a; Replace := false; Merged := Merged a;
          Preferred := Preferred a; KeyName := KeyName a; Source := Source a;
          LocalError := LocalError a; Failed := Failed a; Undefined := Undefined a;
          Raw := Raw a; InfoIssue := InfoIssue a; Cleanups := Cleanups a;
          NodeFlags := NodeFlags a |}.
Proof.
  split; [apply Join_assoc |].
  split; [cbn; now destruct (LocalError b), (LocalError a) |].
  split; [cbn; now destruct (Failed b), (Failed a) |].
  split; [cbn; now destruct (Undefined b), (Undefined a) |].
  split.
  - cbn. destruct (nonempty (IssueText (InfoIssue b))) eqn:E.
    + split; [| tauto]. intros H. apply nonempty_false in H. congruence.
    + apply nonempty_false in E. tauto.
  - unfold Join. cbn. rewrite !orb_false_r, app_nil_r, Z.lor_0_r. reflexivity.
Qed.

(** *** expression.go: tags *)

Definition TAG_LOCAL : Z := 1.
Definition TAG_SCOPE : Z := 6.
Definition TAG_SCOPE_GLOBAL : Z := 0.
Definition TAG_SCOPE_STREAM : Z := 2.

(** [Tag]; [YamlNode] is [yaml.Node], a [TagScope] is an [int]. *)
Record Tag (YamlNode : Type) := NewTag {
  name : string;
  node : YamlNode;
  path : option (list string);
  scope : Z
}.
Arguments NewTag {YamlNode} name node path scope.
Arguments name {YamlNode} _.
Arguments node {YamlNode} _.
Arguments path {YamlNode} _.
Arguments scope {YamlNode} _.

Definition IsLocal {N} (t : Tag N) : bool := negb (Z.land (scope t) TAG_LOCAL =? 0).
Definition IsStream {N} (t : Tag N) : bool := Z.land (scope t) TAG_SCOPE =? TAG_SCOPE_STREAM.
Definition IsGlobal {N} (t : Tag N) : bool := Z.land (scope t) TAG_SCOPE =? TAG_SCOPE_GLOBAL.

(** [t.scope &= ^TAG_LOCAL] when the tag is local *)
Definition ResetLocal {N} (t : Tag N) : Tag N :=
  if IsLocal t then NewTag (name t) (node t) (path t) (Z.land (scope t) (Z.lnot TAG_LOCAL))
  else t.

(** X15.  [ResetLocal] clears the local flag and nothing else: the tag is
    not local afterwards, it is a stream or a global tag exactly when it
    was one, every other bit of its scope and its name, node and path are
    as before, and a tag that was not local is returned as it is.  No tag
    is both a stream and a global tag. *)
Theorem ResetLocal_clears_the_local_flag_only {N} (t : Tag N) :
  IsLocal (ResetLocal t) = false
  /\ IsStream (ResetLocal t) = IsStream t
  /\ IsGlobal (ResetLocal t) = IsGlobal t
  /\ (forall n, n <> 0 -> Z.testbit (scope (ResetLocal t)) n = Z.testbit (scope t) n)
  /\ name (ResetLocal t) = name t /\ node (ResetLocal t) = node t
  /\ path (ResetLocal t) = path t
  /\ (IsLocal t = false -> ResetLocal t = t)
  /\ IsStream t && IsGlobal t = false.
Proof.
  unfold ResetLocal. destruct (IsLocal t) eqn:E.
  - unfold IsLocal, IsStream, IsGlobal. cbn [scope name node path].
    rewrite <- !Z.land_assoc.
    change (Z.land (Z.lnot TAG_LOCAL) TAG_LOCAL) with 0.
    change (Z.land (Z.lnot TAG_LOCAL) TAG_SCOPE) with TAG_SCOPE.
    rewrite Z.land_0_r.
    repeat split; try discriminate.
    + intros n Hn. rewrite Z.land_spec.
      destruct (Z.ltb_spec n 0) as [Hneg | Hpos].
      * now rewrite !Z.testbit_neg_r by assumption.
      * rewrite Z.lnot_spec by assumption. unfold TAG_LOCAL.
        replace (Z.testbit 1 n) with false; [now rewrite andb_true_r |].
        symmetry. apply Z.bits_above_log2; simpl; lia.
    + unfold TAG_SCOPE_STREAM, TAG_SCOPE_GLOBAL.
      destruct (Z.eqb_spec (Z.land (scope t) TAG_SCOPE) 2) as [-> |]; reflexivity.
  - repeat split; try assumption.
    unfold IsStream, IsGlobal, TAG_SCOPE_STREAM, TAG_SCOPE_GLOBAL.
    destruct (Z.eqb_spec (Z.land (scope t) TAG_SCOPE) 2) as [-> |]; reflexivity.
Qed.

(** *** expression.go: integer operands and argument lists *)

Section Operands.

Variables Binding Cleanup Data : Type.

Local Notation Info := (EvaluationInfo Cleanup).
Local Notation Expr := (Expression Binding Cleanup Data).
Local Notation Val := (value Binding Cleanup Data).

(** The parts of other files and packages: [KeepArgWrapper] and
    [IsListExpansion] of the package, [yaml.NewIssue], whose arguments are
    of the type [Arg], the type assertions [value.(int64)] and
    [v.([]yaml.Node)] on the data, and the method [Value] of a node. *)
Variable KeepArgWrapper : Expr -> Expr -> Expr.
Variable IsListExpansion : Expr -> bool.
Variables Arg YamlNode : Type.
Variable NewIssue : string -> list Arg -> Issue.
Variable as_int64 : Data -> option Z.
Variable as_nodes : Data -> option (list YamlNode).
Variable NodeValue : YamlNode -> Val.

(** [SetError]: the format is a string or some other value. *)
Definition SetError (i : Info) (msgfmt : string + Arg) (args : list Arg) : Info :=
  {| RedirectPath := RedirectPath i; Replace := Replace i; Merged := Merged i;
     Preferred := Preferred i; KeyName := KeyName i; Source := Source i;
     LocalError := true; Failed := Failed i; Undefined := Undefined i; Raw := Raw i;
     InfoIssue := match msgfmt with
                  | inl f => NewIssue f args
                  | inr v => NewIssue "%s" [v]
                  end;
     Cleanups := Cleanups i; NodeFlags := NodeFlags i |}.

(** [Error]: the value is nil. *)
Definition Error (i : Info) (msgfmt : string + Arg) (args : list Arg) : Info * bool :=
  (SetError i msgfmt args, false).

(** [infoe.Issue = ...] *)
Definition set_issue (i : Info) (issue : Issue) : Info :=
  {| RedirectPath := RedirectPath i; Replace := Replace i; Merged := Merged i;
     Preferred := Preferred i; KeyName := KeyName i; Source := Source i;
     LocalError := LocalError i; Failed := Failed i; Undefined := Undefined i;
     Raw := Raw i; InfoIssue := issue; Cleanups := Cleanups i; NodeFlags := NodeFlags i |}.

(** The result of the helper for integers with the contents of [*e] and
    [*resolved] after the call. *)
Record integer_resolution := {
  int_value : Z;
  int_info : Info;
  int_ok : bool;
  int_expr : Expr;
  int_resolved : bool
}.

Definition ResolveIntegerExpressionOrPushEvaluation
    (e : Expr) (resolved : bool) (info : option Info)
    (binding : Binding) (locally : bool) : outcome Cleanup integer_resolution :=
  match ResolveExpressionOrPushEvaluation KeepArgWrapper e resolved info binding locally with
  | Panicked p => Panicked p
  | Returned r =>
      let result i infoe ok :=
        Returned {| int_value := i; int_info := infoe; int_ok := ok;
                    int_expr := res_expr r; int_resolved := res_resolved r |} in
      let no_integer :=
        result 0 (set_issue (res_info r) (NewIssue "integer operand required" [])) false in
      match res_value r with
      | VNil => result 0 (res_info r) (res_ok r)
      | VData d =>
          match as_int64 d with
          | Some i => result i (res_info r) true
          | None => no_integer
          end
      | VExpr _ => no_integer
      end
  end.

(** The state of the loop over the arguments. *)
Record arguments := {
  values : list Val;
  pushed : list Expr;
  infoe : Info;
  info_ptr : option Info;
  expand : bool;
  resolved_flag : bool
}.

(** The first loop, from the index [length (values st)] on; the flag is
    [ok] when it ends. *)
Fixpoint resolve_each (binding : Binding) (locally : bool)
    (todo : list Expr) (st : arguments) : outcome Cleanup (arguments * bool) :=
  match todo with
  | [] => Returned (st, true)
  | e :: rest =>
      match ResolveExpressionOrPushEvaluation KeepArgWrapper e (resolved_flag st)
              (info_ptr st) binding locally with
      | Panicked p => Panicked p
      | Returned r =>
          let st' := {| values := values st ++ [res_value r];
                        pushed := pushed st ++ [res_expr r];
                        infoe := res_info r;
                        info_ptr := Some (res_info r);
                        expand := expand st || IsListExpansion (res_expr r);
                        resolved_flag := res_resolved r |} in
          if negb (res_ok r) then Returned (st', false)
          else resolve_each binding locally rest st'
      end
  end.

(** The second loop: [None] when an expanded argument is no list. *)
Fixpoint expand_values (values : list Val) (pushed : list Expr) : option (list Val) :=
  match values, pushed with
  | v :: values', e :: pushed' =>
      if IsListExpansion e then
        match v with
        | VData d =>
            match as_nodes d with
            | Some list =>
                option_map (fun vlist => List.map NodeValue list ++ vlist)
                           (expand_values values' pushed')
            | None => None
            end
        | _ => None
        end
      else option_map (fun vlist => v :: vlist) (expand_values values' pushed')
  | _, _ => Some []
  end.

(** The result of the helper for lists: the values, nil or a slice, with
    the contents of [*list] and [*resolved] after the call. *)
Record list_resolution := {
  list_values : option (list Val);
  list_info : Info;
  list_ok : bool;
  list_exprs : list Expr;
  list_resolved : bool
}.

Definition ResolveExpressionListOrPushEvaluation
    (list : list Expr) (resolved : bool) (info : option Info)
    (binding : Binding) (locally : bool) : outcome Cleanup list_resolution :=
  match resolve_each binding locally list
          {| values := []; pushed := []; infoe := DefaultInfo; info_ptr := info;
             expand := false; resolved_flag := resolved |} with
  | Panicked p => Panicked p
  | Returned (st, ok) =>
      if negb ok then
        Returned {| list_values := None; list_info := infoe st; list_ok := false;
                    list_exprs := list; list_resolved := resolved_flag st |}
      else if expand st then
        match expand_values (values st) (pushed st) with
        | None =>
            let '(infoe, ok) :=
              Error (infoe st) (inl "argument expansion required list argument"%string) [] in
            Returned {| list_values := None; list_info := infoe; list_ok := ok;
                        list_exprs := list; list_resolved := resolved_flag st |}
        | Some vlist =>
            Returned {| list_values := Some vlist; list_info := infoe st; list_ok := true;
                        list_exprs := pushed st; list_resolved := resolved_flag st |}
        end
      else
        Returned {| list_values := Some (values st); list_info := infoe st; list_ok := true;
                    list_exprs := pushed st; list_resolved := resolved_flag st |}
  end.

(** What one call of [ResolveExpressionOrPushEvaluation] leaves, by the
    value that [Evaluate] returned. *)
Definition is_expr (v : Val) : bool :=
  match v with VExpr _ => true | _ => false end.
Definition value_of (v : Val) : Val :=
  match v with VExpr _ => VNil | _ => v end.
Definition push (e : Expr) (v : Val) : Expr :=
  match v with VExpr w => KeepArgWrapper w e | _ => e end.
Definition join_opt (info : option Info) (i : Info) : Info :=
  match info with Some i0 => Join i0 i | None => i end.

(** The infos of the arguments joined from the left, to [info] when
    there is one. *)
Definition joined (info : option Info) (infos : list Info) : Info :=
  match infos with
  | [] => DefaultInfo
  | i :: rest => fold_left Join rest (join_opt info i)
  end.

Definition evaluates (binding : Binding) (locally : bool) (ok : bool)
    (e : Expr) (x : Val * Info) : Prop :=
  Evaluate e binding locally = Returned (fst x, snd x, ok).

Lemma resolve_returns binding locally e v i resolved info :
  Evaluate e binding locally = Returned (v, i, true) ->
  ResolveExpressionOrPushEvaluation KeepArgWrapper e resolved info binding locally
  = Returned {| res_value := value_of v; res_info := join_opt info i; res_ok := true;
                res_expr := push e v; res_resolved := resolved && negb (is_expr v) |}.
Proof.
  intros H. unfold ResolveExpressionOrPushEvaluation. rewrite H. cbn [negb].
  destruct v; cbn [value_of push is_expr negb]; rewrite ?andb_true_r, ?andb_false_r;
    now destruct info.
Qed.

Lemma resolve_fails binding locally e v i resolved info :
  Evaluate e binding locally = Returned (v, i, false) ->
  ResolveExpressionOrPushEvaluation KeepArgWrapper e resolved info binding locally
  = Returned {| res_value := VNil; res_info := join_opt info i; res_ok := false;
                res_expr := e; res_resolved := resolved |}.
Proof.
  intros H. unfold ResolveExpressionOrPushEvaluation. rewrite H. cbn [negb].
  now destruct info.
Qed.

(** The state after the arguments [es], which evaluate to [xs]. *)
Definition advance (st : arguments) (e : Expr) (x : Val * Info) : arguments :=
  {| values := values st ++ [value_of (fst x)];
     pushed := pushed st ++ [push e (fst x)];
     infoe := join_opt (info_ptr st) (snd x);
     info_ptr := Some (join_opt (info_ptr st) (snd x));
     expand := expand st || IsListExpansion (push e (fst x));
     resolved_flag := resolved_flag st && negb (is_expr (fst x)) |}.

Fixpoint advance_all (st : arguments) (es : list Expr) (xs : list (Val * Info)) : arguments :=
  match es, xs with
  | e :: es', x :: xs' => advance_all (advance st e x) es' xs'
  | _, _ => st
  end.

Definition pushes (es : list Expr) (xs : list (Val * Info)) : list Expr :=
  zip_with (fun e x => push e (fst x)) es xs.

Lemma resolve_each_app binding locally before xs rest :
  Forall2 (evaluates binding locally true) before xs ->
  forall st,
    resolve_each binding locally (before ++ rest) st
    = resolve_each binding locally rest (advance_all st before xs).
Proof.
  induction 1 as [| e [v i] before xs He _ IH]; intros st; [reflexivity |].
  cbn [app resolve_each advance_all]. unfold evaluates in He. cbn [fst snd] in He.
  rewrite (resolve_returns _ _ _ _ _ _ _ He).
  cbn [res_ok negb res_value res_info res_expr res_resolved]. apply IH.
Qed.

Lemma advance_all_fields es : forall xs st,
  List.length es = List.length xs ->
  values (advance_all st es xs) = values st ++ List.map (fun x => value_of (fst x)) xs
  /\ pushed (advance_all st es xs) = pushed st ++ pushes es xs
  /\ expand (advance_all st es xs) = expand st || existsb IsListExpansion (pushes es xs)
  /\ resolved_flag (advance_all st es xs)
     = resolved_flag st && forallb (fun x => negb (is_expr (fst x))) xs.
Proof.
  induction es as [| e es IH]; intros [| x xs] st Hlen; try discriminate.
  - cbn. now rewrite !app_nil_r, orb_false_r, andb_true_r.
  - injection Hlen as Hlen. cbn [advance_all].
    destruct (IH xs (advance st e x) Hlen) as (-> & -> & -> & ->).
    unfold pushes. cbn [advance values pushed expand resolved_flag List.map zip_with
                        existsb forallb].
    now rewrite <- !app_assoc, <- orb_assoc, <- andb_assoc.
Qed.

Lemma advance_all_info es : forall xs st,
  List.length es = List.length xs ->
  info_ptr st = Some (infoe st) ->
  infoe (advance_all st es xs) = fold_left Join (List.map snd xs) (infoe st)
  /\ info_ptr (advance_all st es xs) = Some (infoe (advance_all st es xs)).
Proof.
  induction es as [| e es IH]; intros [| x xs] st Hlen Hp; try discriminate.
  - now split.
  - injection Hlen as Hlen. cbn [advance_all List.map fold_left].
    destruct (IH xs (advance st e x) Hlen eq_refl) as [E1 E2].
    split; [| exact E2]. rewrite E1. cbn [advance infoe]. now rewrite Hp.
Qed.

Lemma advance_all_joined es xs resolved info :
  List.length es = List.length xs ->
  let st := advance_all {| values := []; pushed := []; infoe := DefaultInfo;
                           info_ptr := info; expand := false;
                           resolved_flag := resolved |} es xs in
  infoe st = joined info (List.map snd xs)
  /\ (xs <> [] -> info_ptr st = Some (infoe st)).
Proof.
  destruct es as [| e es], xs as [| x xs]; try discriminate; intros Hlen.
  - now split.
  - injection Hlen as Hlen. cbn [advance_all].
    destruct (advance_all_info es xs (advance {| values := []; pushed := [];
                infoe := DefaultInfo; info_ptr := info; expand := false;
                resolved_flag := resolved |} e x) Hlen eq_refl) as [E1 E2].
    split; [exact E1 | intros _; exact E2].
Qed.

(** X17.  The helper for argument lists stops at the first argument
    whose evaluation fails: when the arguments before it evaluate and it
    does not, the helper returns nil and [ok = false], whatever follows in
    the list, with the infos up to the failure joined from the left; the
    list of the caller is left as it was, while the resolved flag is already
    cleared when one of the arguments before was deferred. *)
Theorem list_resolution_stops_at_the_first_failure
    (before after : list Expr) (e : Expr) (xs : list (Val * Info)) (x : Val * Info)
    (resolved : bool) (info : option Info) (binding : Binding) (locally : bool)
    (Hbefore : Forall2 (evaluates binding locally true) before xs)
    (He : evaluates binding locally false e x) :
  ResolveExpressionListOrPushEvaluation (before ++ e :: after) resolved info binding locally
  = Returned {| list_values := None;
                list_info := joined info (List.map snd (xs ++ [x]));
                list_ok := false;
                list_exprs := before ++ e :: after;
                list_resolved :=
                  resolved && forallb (fun x => negb (is_expr (fst x))) xs |}.
Proof using Type.
  unfold ResolveExpressionListOrPushEvaluation.
  rewrite (resolve_each_app _ _ _ _ _ Hbefore). cbn [resolve_each].
  destruct x as [v i]. unfold evaluates in He. cbn [fst snd] in He.
  rewrite (resolve_fails _ _ _ _ _ _ _ He). cbn [res_ok negb infoe resolved_flag res_info
    res_resolved].
  assert (Hlen : List.length before = List.length xs)
    by (eapply Forall2_length; eassumption).
  destruct (advance_all_fields before xs {| values := []; pushed := [];
              infoe := DefaultInfo; info_ptr := info; expand := false;
              resolved_flag := resolved |} Hlen) as (_ & _ & _ & ->).
  destruct (advance_all_joined before xs resolved info Hlen) as [E1 E2].
  cbn [resolved_flag]. do 2 f_equal.
  rewrite map_app. cbn [List.map snd].
  destruct xs as [| x0 xs].
  - apply Forall2_length in Hbefore. destruct before; [| discriminate]. reflexivity.
  - rewrite (E2 ltac:(discriminate)). rewrite E1. cbn [joined join_opt List.map app snd].
    now rewrite fold_left_app.
Qed.

(** X18.  When every argument evaluates and none of the expressions left
    in the list is a list expansion, the helper for argument lists returns
    one value for every argument, nil for a deferred one, for which it
    leaves the wrapped expression in the list and clears the resolved
    flag; the info is the infos joined from the left to the given one, and
    for an empty list it is the zero info and the given one is dropped. *)
Theorem list_resolution_collects_the_values
    (args : list Expr) (xs : list (Val * Info))
    (resolved : bool) (info : option Info) (binding : Binding) (locally : bool)
    (Hlist : Forall2 (evaluates binding locally true) args xs)
    (Hplain : existsb IsListExpansion (pushes args xs) = false) :
  ResolveExpressionListOrPushEvaluation args resolved info binding locally
  = Returned {| list_values := Some (List.map (fun x => value_of (fst x)) xs);
                list_info := match xs with
                             | [] => DefaultInfo
                             | x :: rest =>
                                 fold_left Join (List.map snd rest)
                                   (match info with
                                    | Some i => Join i (snd x)
                                    | None => snd x
                                    end)
                             end;
                list_ok := true;
                list_exprs := pushes args xs;
                list_resolved :=
                  resolved && forallb (fun x => negb (is_expr (fst x))) xs |}.
Proof using Type.
  unfold ResolveExpressionListOrPushEvaluation.
  rewrite <- (app_nil_r args) at 1.
  rewrite (resolve_each_app _ _ _ _ _ Hlist). cbn [resolve_each negb].
  assert (Hlen : List.length args = List.length xs)
    by (eapply Forall2_length; eassumption).
  destruct (advance_all_fields args xs {| values := []; pushed := [];
              infoe := DefaultInfo; info_ptr := info; expand := false;
              resolved_flag := resolved |} Hlen) as (-> & -> & -> & ->).
  destruct (advance_all_joined args xs resolved info Hlen) as [-> _].
  cbn [values pushed expand resolved_flag app orb]. rewrite Hplain.
  do 2 f_equal. now destruct xs.
Qed.

(** X16.  The helper for integer operands reports [ok = false] when
    [Evaluate] does, and otherwise only for a value that is neither nil,
    nor an expression, nor an [int64]; then it sets the issue and no error
    flag.  A number other than zero is the [int64] that [Evaluate]
    returned; a deferred expression gives zero with [ok = true], the
    resolved flag cleared and the expression pushed back. *)
Theorem integer_operand_or_zero
    (e : Expr) (resolved : bool) (info : option Info) (binding : Binding) (locally : bool)
    (val : Val) (i : Info) (ok : bool)
    (Hev : Evaluate e binding locally = Returned (val, i, ok)) :
  exists r,
    ResolveIntegerExpressionOrPushEvaluation e resolved info binding locally = Returned r
    /\ int_ok r = ok && match val with
                        | VData d => match as_int64 d with Some _ => true | None => false end
                        | _ => true
                        end
    /\ (int_value r <> 0 ->
          ok = true /\ exists d, val = VData d /\ as_int64 d = Some (int_value r))
    /\ (forall d n, ok = true -> val = VData d -> as_int64 d = Some n ->
          int_value r = n /\ int_info r = join_opt info i
          /\ int_expr r = e /\ int_resolved r = resolved)
    /\ (forall v, ok = true -> val = VExpr v ->
          int_value r = 0 /\ int_ok r = true /\ int_info r = join_opt info i
          /\ int_expr r = KeepArgWrapper v e /\ int_resolved r = false)
    /\ (int_ok r = false ->
          int_value r = 0 /\ int_expr r = e /\ int_resolved r = resolved
          /\ LocalError (int_info r) = LocalError (join_opt info i)
          /\ (ok = true ->
                int_info r
                = set_issue (join_opt info i) (NewIssue "integer operand required" []))
          /\ (ok = false -> int_info r = join_opt info i)).
Proof using Type.
  unfold ResolveIntegerExpressionOrPushEvaluation.
  destruct ok.
  - rewrite (resolve_returns _ _ _ _ _ resolved info Hev).
    cbn [res_value res_info res_ok res_expr res_resolved].
    destruct val as [| v | d]; cbn [value_of push is_expr negb andb];
      rewrite ?andb_true_r, ?andb_false_r;
      [| | destruct (as_int64 d) as [n |] eqn:En];
      (eexists; split; [reflexivity |]);
      cbn [int_value int_info int_ok int_expr int_resolved andb];
      repeat match goal with |- _ /\ _ => split end;
      intros; subst;
      repeat match goal with
             | H : VData _ = VData _ |- _ => injection H as ->
             | H : VExpr _ = VExpr _ |- _ => injection H as ->
             end;
      try discriminate; try congruence; try lia; eauto.
    all: repeat match goal with |- _ /\ _ => split end;
      try discriminate; try congruence; try lia; eauto.
  - rewrite (resolve_fails _ _ _ _ _ resolved info Hev).
    cbn [res_value res_info res_ok res_expr res_resolved].
    eexists. split; [reflexivity |]. cbn [int_value int_info int_ok int_expr int_resolved andb].
    repeat match goal with |- _ /\ _ => split end; intros;
      repeat match goal with |- _ /\ _ => split end;
      try discriminate; try congruence; try lia; eauto.
Qed.

End Operands.

Arguments int_value {Binding Cleanup Data} _.
Arguments int_info {Binding Cleanup Data} _.
Arguments int_ok {Binding Cleanup Data} _.
Arguments int_expr {Binding Cleanup Data} _.
Arguments int_resolved {Binding Cleanup Data} _.

(** An issue with the format as its text, for the examples. *)
Definition plain_issue (f : string) (args : list unit) : Issue :=
  {| IssueText := f; Nested := []; Sequence := false |}.

(** An expression whose evaluation fails and one whose evaluation
    panics. *)
Definition failing_example : Expression unit unit string :=
  MkExpression (fun _ _ => Returned (VNil, DefaultInfo, false)).

Definition panicking_example : Expression unit unit string :=
  MkExpression (fun _ _ => Panicked DefaultInfo).

Definition integer_example : Expression unit unit Z :=
  MkExpression (fun _ _ => Returned (VData 7, DefaultInfo, true)).

Lemma integer_operand_or_zero_witness :
  exists r,
    ResolveIntegerExpressionOrPushEvaluation unit unit Z (fun v _ => v) unit plain_issue Some
      integer_example true None tt false = Returned r
    /\ int_value r = 7 /\ int_resolved r = true.
Proof.
  destruct (integer_operand_or_zero unit unit Z (fun v _ => v) unit plain_issue Some
              integer_example true None tt false (VData 7) DefaultInfo true eq_refl)
    as (r & Hr & _ & _ & Hint & _).
  destruct (Hint 7 7 eq_refl eq_refl eq_refl) as (Hv & _ & _ & Hres).
  exists r. repeat split; assumption.
Defined.

Lemma list_resolution_stops_at_the_first_failure_witness :
  ResolveExpressionListOrPushEvaluation unit unit string (fun v _ => v) (fun _ => false)
    unit unit plain_issue (fun _ => None) (fun _ => VNil)
    [resolved_example; deferred_example; failing_example; panicking_example]
    true None tt false
  = Returned {| list_values := None; list_info := DefaultInfo; list_ok := false;
                list_exprs := [resolved_example; deferred_example; failing_example;
                               panicking_example];
                list_resolved := false |}.
Proof.
  refine (list_resolution_stops_at_the_first_failure unit unit string (fun v _ => v)
           (fun _ => false) unit unit plain_issue (fun _ => None) (fun _ => VNil)
           [resolved_example; deferred_example] [panicking_example] failing_example
           [(VData "x"%string, DefaultInfo); (VExpr resolved_example, DefaultInfo)]
           (VNil, DefaultInfo) true None tt false
           _ eq_refl).
  repeat constructor.
Defined.

Lemma list_resolution_collects_the_values_witness :
  ResolveExpressionListOrPushEvaluation unit unit string (fun v _ => v) (fun _ => false)
    unit unit plain_issue (fun _ => None) (fun _ => VNil)
    [resolved_example; deferred_example] true None tt false
  = Returned {| list_values := Some [VData "x"%string; VNil]; list_info := DefaultInfo;
                list_ok := true;
                list_exprs := [resolved_example; resolved_example];
                list_resolved := false |}.
Proof.
  refine (list_resolution_collects_the_values unit unit string (fun v _ => v)
           (fun _ => false) unit unit plain_issue (fun _ => None) (fun _ => VNil)
           [resolved_example; deferred_example]
           [(VData "x"%string, DefaultInfo); (VExpr resolved_example, DefaultInfo)]
           true None tt false
           _ eq_refl).
  repeat constructor.
Defined.

End Evaluation.

(** ** dynaml/wireguard/key.go: keys and their base64 form *)
Module Wireguard.

(** *** encoding/base64, StdEncoding

    The standard library's encoding (RFC 4648, section 4, padded with [=]),
    written after its [Encode] and [decodeQuantum] loops.  A Go string is a
    sequence of bytes here. *)

Definition encodeStd : list Z :=
  List.map rune_of
    (list_ascii_of_string
       "ABCDEFGHIJKLMNOPQRSTUVWXYZabcdefghijklmnopqrstuvwxyz0123456789+/").

Definition padChar : Z := rune_of "=".

(** [enc.encode[i]] *)
Definition encode_sextet (i : Z) : Z := nth (Z.to_nat i) encodeStd 0.

Fixpoint index_of (c : Z) (l : list Z) (i : Z) : option Z :=
  match l with
  | [] => None
  | d :: l' => if c =? d then Some i else index_of c l' (i + 1)
  end.

(** [enc.decodeMap[c]], [None] for the entries that hold 0xFF. *)
Definition decode_char (c : Z) : option Z := index_of c encodeStd 0.

Definition sextet (val shift : Z) : Z := Z.land (Z.shiftr val shift) 63.

Fixpoint EncodeToString (src : list Z) : list Z :=
  match src with
  | [] => []
  | b0 :: b1 :: b2 :: rest =>
      let val := Z.lor (Z.lor (Z.shiftl b0 16) (Z.shiftl b1 8)) b2 in
      encode_sextet (sextet val 18) :: encode_sextet (sextet val 12)
        :: encode_sextet (sextet val 6) :: encode_sextet (sextet val 0)
        :: EncodeToString rest
  | [b0; b1] =>
      let val := Z.lor (Z.shiftl b0 16) (Z.shiftl b1 8) in
      [encode_sextet (sextet val 18); encode_sextet (sextet val 12);
       encode_sextet (sextet val 6); padChar]
  | [b0] =>
      let val := Z.shiftl b0 16 in
      [encode_sextet (sextet val 18); encode_sextet (sextet val 12);
       padChar; padChar]
  end.

(** [byte(val >> shift)] *)
Definition byte_of (val shift : Z) : Z := Z.land (Z.shiftr val shift) 255.

Definition quantum (d0 d1 d2 d3 : Z) : Z :=
  Z.lor (Z.lor (Z.lor (Z.shiftl d0 18) (Z.shiftl d1 12)) (Z.shiftl d2 6)) d3.

(** The quanta of an input from which the ignored runes have been removed:
    padding may only end the input, after two or three digits. *)
Fixpoint decode_quanta (s : list Z) : option (list Z) :=
  match s with
  | [] => Some []
  | c0 :: c1 :: c2 :: c3 :: rest =>
      match decode_char c0, decode_char c1 with
      | Some d0, Some d1 =>
          if c2 =? padChar then
            if (c3 =? padChar) && (match rest with [] => true | _ => false end)
            then Some [byte_of (quantum d0 d1 0 0) 16]
            else None
          else
            match decode_char c2 with
            | None => None
            | Some d2 =>
                if c3 =? padChar then
                  match rest with
                  | [] => let val := quantum d0 d1 d2 0 in
                          Some [byte_of val 16; byte_of val 8]
                  | _ => None
                  end
                else
                  match decode_char c3, decode_quanta rest with
                  | Some d3, Some out =>
                      let val := quantum d0 d1 d2 d3 in
                      Some (byte_of val 16 :: byte_of val 8 :: byte_of val 0 :: out)
                  | _, _ => None
                  end
            end
      | _, _ => None
      end
  | _ => None
  end.

Definition ignored (c : Z) : bool := (c =? 13) || (c =? 10).

(** [DecodeString]: carriage returns and line feeds are skipped; [None] is
    a [CorruptInputError]. *)
Definition DecodeString (s : list Z) : option (list Z) :=
  decode_quanta (List.filter (fun c => negb (ignored c)) s).

(** *** key.go *)

Definition KeyLen : Z := 32.

(** A [Key] is [[KeyLen]byte]: thirty-two bytes. *)
Definition is_byte (b : Z) : bool := (0 <=? b) && (b <? 256).
Definition is_key (k : list Z) : bool :=
  (Z.of_nat (List.length k) =? KeyLen) && forallb is_byte k.

(** [NewKey]: [None] is the error "incorrect key size". *)
Definition NewKey (b : list Z) : option (list Z) :=
  if negb (Z.of_nat (List.length b) =? KeyLen) then None else Some b.

(** [ParseKey]: [None] is either of its two errors. *)
Definition ParseKey (s : list Z) : option (list Z) :=
  match DecodeString s with
  | None => None
  | Some b => NewKey b
  end.

(** [Key.String] *)
Definition KeyString (k : list Z) : list Z := EncodeToString k.

(** *** Round trip of the encoding *)

Lemma decode_encode_sextet s :
  0 <= s < 64 -> decode_char (encode_sextet s) = Some s.
Proof.
  intros Hs.
  assert (Hall : forallb (fun n => match decode_char (encode_sextet (Z.of_nat n)) with
                                   | Some d => d =? Z.of_nat n
                                   | None => false
                                   end) (seq 0 64) = true) by (vm_compute; reflexivity).
  rewrite forallb_forall in Hall.
  specialize (Hall (Z.to_nat s)).
  rewrite Z2Nat.id in Hall by lia.
  assert (Hin : In (Z.to_nat s) (seq 0 64)) by (apply in_seq; lia).
  specialize (Hall Hin).
  destruct (decode_char (encode_sextet s)) as [d |]; [| discriminate].
  apply Z.eqb_eq in Hall. congruence.
Qed.

Lemma encode_sextet_plain s :
  0 <= s < 64 -> encode_sextet s <> padChar /\ ignored (encode_sextet s) = false.
Proof.
  intros Hs.
  assert (Hall : forallb (fun n => negb (encode_sextet (Z.of_nat n) =? padChar)
                                   && negb (ignored (encode_sextet (Z.of_nat n))))
                   (seq 0 64) = true) by (vm_compute; reflexivity).
  rewrite forallb_forall in Hall.
  specialize (Hall (Z.to_nat s)).
  rewrite Z2Nat.id in Hall by lia.
  assert (Hin : In (Z.to_nat s) (seq 0 64)) by (apply in_seq; lia).
  specialize (Hall Hin).
  apply andb_true_iff in Hall as [H1 H2].
  apply negb_true_iff in H1, H2. apply Z.eqb_neq in H1. tauto.
Qed.

Lemma sextet_range val shift : 0 <= sextet val shift < 64.
Proof.
  unfold sextet. change 63 with (Z.ones 6). rewrite Z.land_ones by lia.
  apply Z.mod_pos_bound. reflexivity.
Qed.

Lemma lor_add a b k :
  0 <= b < 2 ^ k -> 0 <= k -> Z.lor (Z.shiftl a k) b = a * 2 ^ k + b.
Proof.
  intros Hb Hk.
  assert (Hland : Z.land (Z.shiftl a k) b = 0).
  { apply Z.bits_inj'. intros n Hn. rewrite Z.land_spec, Z.bits_0.
    destruct (Z.lt_ge_cases n k) as [Hlt | Hge].
    - rewrite Z.shiftl_spec_low by assumption. reflexivity.
    - destruct (Z.eq_dec b 0) as [-> | Hnz].
      + rewrite Z.bits_0. apply andb_false_r.
      + rewrite (Z.bits_above_log2 b n); [apply andb_false_r | lia |].
        apply Z.log2_lt_pow2; [lia |].
        apply Z.lt_le_trans with (2 ^ k); [lia |].
        apply Z.pow_le_mono_r; lia. }
  rewrite <- Z.lxor_lor by assumption.
  rewrite <- Z.add_nocarry_lxor by assumption.
  rewrite Z.shiftl_mul_pow2 by assumption. reflexivity.
Qed.

Ltac to_arith :=
  unfold sextet, byte_of, quantum;
  change 63 with (Z.ones 6); change 255 with (Z.ones 8);
  rewrite ?Z.land_ones by lia; rewrite ?Z.shiftr_div_pow2 by lia;
  rewrite ?Z.shiftl_mul_pow2 by lia;
  change (2 ^ 18) with 262144; change (2 ^ 16) with 65536;
  change (2 ^ 12) with 4096; change (2 ^ 8) with 256; change (2 ^ 6) with 64;
  change (2 ^ 0) with 1.

Lemma lor_multiple x m k b :
  x = m * 2 ^ k -> 0 <= b < 2 ^ k -> 0 <= k -> Z.lor x b = x + b.
Proof.
  intros -> Hb Hk. rewrite <- (lor_add m b k) by assumption.
  rewrite Z.shiftl_mul_pow2 by assumption. reflexivity.
Qed.

Lemma quantum_arith d0 d1 d2 d3 :
  0 <= d0 < 64 -> 0 <= d1 < 64 -> 0 <= d2 < 64 -> 0 <= d3 < 64 ->
  quantum d0 d1 d2 d3 = d0 * 262144 + d1 * 4096 + d2 * 64 + d3.
Proof.
  intros H0 H1 H2 H3. unfold quantum.
  rewrite !Z.shiftl_mul_pow2 by lia.
  change (2 ^ 18) with 262144. change (2 ^ 12) with 4096. change (2 ^ 6) with 64.
  rewrite (lor_multiple (d0 * 262144) d0 18 (d1 * 4096)); [| reflexivity | | lia].
  2: change (2 ^ 18) with 262144; lia.
  rewrite (lor_multiple (d0 * 262144 + d1 * 4096) (d0 * 64 + d1) 12 (d2 * 64)); [| | | lia].
  2: change (2 ^ 12) with 4096; lia.
  2: change (2 ^ 12) with 4096; lia.
  rewrite (lor_multiple _ ((d0 * 64 + d1) * 64 + d2) 6 d3); [| | | lia].
  2: change (2 ^ 6) with 64; lia.
  2: change (2 ^ 6) with 64; lia.
  reflexivity.
Qed.

Lemma pair_arith b0 b1 :
  0 <= b0 < 256 -> 0 <= b1 < 256 ->
  Z.lor (Z.shiftl b0 16) (Z.shiftl b1 8) = b0 * 65536 + b1 * 256.
Proof.
  intros H0 H1. rewrite !Z.shiftl_mul_pow2 by lia.
  change (2 ^ 16) with 65536. change (2 ^ 8) with 256.
  apply (lor_multiple _ b0 16); [reflexivity | | lia].
  change (2 ^ 16) with 65536. lia.
Qed.

Lemma triple_arith b0 b1 b2 :
  0 <= b0 < 256 -> 0 <= b1 < 256 -> 0 <= b2 < 256 ->
  Z.lor (Z.lor (Z.shiftl b0 16) (Z.shiftl b1 8)) b2 = b0 * 65536 + b1 * 256 + b2.
Proof.
  intros H0 H1 H2. rewrite pair_arith by assumption.
  apply (lor_multiple _ (b0 * 256 + b1) 8); [| | lia].
  - change (2 ^ 8) with 256. lia.
  - change (2 ^ 8) with 256. lia.
Qed.

Lemma sextets_quantum v :
  0 <= v < 16777216 ->
  quantum (sextet v 18) (sextet v 12) (sextet v 6) (sextet v 0) = v.
Proof.
  intros Hv.
  rewrite quantum_arith by apply sextet_range.
  to_arith. rewrite Z.div_1_r. Z.div_mod_to_equations. lia.
Qed.

Lemma bytes_of_triple b0 b1 b2 :
  0 <= b0 < 256 -> 0 <= b1 < 256 -> 0 <= b2 < 256 ->
  let v := b0 * 65536 + b1 * 256 + b2 in
  byte_of v 16 = b0 /\ byte_of v 8 = b1 /\ byte_of v 0 = b2.
Proof.
  intros H0 H1 H2 v. subst v. to_arith. rewrite Z.div_1_r.
  repeat split; Z.div_mod_to_equations; lia.
Qed.

Lemma sextet_low_zero v shift m :
  v = m * 2 ^ (shift + 6) -> 0 <= shift -> sextet v shift = 0.
Proof.
  intros -> Hs. unfold sextet. change 63 with (Z.ones 6).
  rewrite Z.land_ones, Z.shiftr_div_pow2 by lia.
  rewrite Z.pow_add_r by lia.
  replace (m * (2 ^ shift * 2 ^ 6)) with (m * 2 ^ 6 * 2 ^ shift) by ring.
  rewrite Z.div_mul by (apply Z.pow_nonzero; lia).
  apply Z.mod_mul. discriminate.
Qed.

Lemma is_byte_range b : is_byte b = true -> 0 <= b < 256.
Proof. unfold is_byte. lia. Qed.

Lemma triple_induction (P : list Z -> Prop) :
  P [] -> (forall a, P [a]) -> (forall a b, P [a; b]) ->
  (forall a b c l, P l -> P (a :: b :: c :: l)) ->
  forall l, P l.
Proof.
  intros H0 H1 H2 H3 l.
  enough (H : P l /\ (forall a, P (a :: l)) /\ (forall a b, P (a :: b :: l))) by apply H.
  induction l as [| c l (IH0 & IH1 & IH2)].
  - auto.
  - repeat split; auto.
Qed.

(** Decoding undoes encoding, for every sequence of bytes. *)
Lemma DecodeString_EncodeToString src :
  forallb is_byte src = true -> DecodeString (EncodeToString src) = Some src.
Proof.
  unfold DecodeString.
  induction src as [| b0 | b0 b1 | b0 b1 b2 rest IH] using triple_induction; intros Hb.
  - reflexivity.
  - simpl in Hb. apply andb_true_iff in Hb as [Hb0 _]. apply is_byte_range in Hb0.
    cbn [EncodeToString].
    set (v := Z.shiftl b0 16).
    assert (Hv : v = b0 * 65536) by (subst v; now rewrite Z.shiftl_mul_pow2 by lia).
    pose proof (sextet_range v 18) as R18. pose proof (sextet_range v 12) as R12.
    destruct (encode_sextet_plain _ R18) as [P18 I18].
    destruct (encode_sextet_plain _ R12) as [P12 I12].
    cbn [List.filter]. rewrite I18, I12. cbn [negb].
    replace (ignored padChar) with false by reflexivity. cbn [negb decode_quanta].
    rewrite !decode_encode_sextet by assumption.
    rewrite Z.eqb_refl. cbn [andb].
    f_equal. f_equal.
    assert (H6 : sextet v 6 = 0) by (apply (sextet_low_zero v 6 (b0 * 16)); [rewrite Hv; simpl; lia | lia]).
    assert (H0 : sextet v 0 = 0) by (apply (sextet_low_zero v 0 (b0 * 1024)); [rewrite Hv; simpl; lia | lia]).
    replace (quantum (sextet v 18) (sextet v 12) 0 0)
      with (quantum (sextet v 18) (sextet v 12) (sextet v 6) (sextet v 0))
      by (rewrite H6, H0; reflexivity).
    rewrite sextets_quantum by lia.
    rewrite Hv. replace (b0 * 65536) with (b0 * 65536 + 0 * 256 + 0) by lia.
    apply (bytes_of_triple b0 0 0); lia.
  - simpl in Hb. apply andb_true_iff in Hb as [Hb0 Hb]. apply andb_true_iff in Hb as [Hb1 _].
    apply is_byte_range in Hb0, Hb1.
    cbn [EncodeToString].
    set (v := Z.lor (Z.shiftl b0 16) (Z.shiftl b1 8)).
    assert (Hv : v = b0 * 65536 + b1 * 256) by (subst v; now apply pair_arith).
    pose proof (sextet_range v 18) as R18. pose proof (sextet_range v 12) as R12.
    pose proof (sextet_range v 6) as R6.
    destruct (encode_sextet_plain _ R18) as [P18 I18].
    destruct (encode_sextet_plain _ R12) as [P12 I12].
    destruct (encode_sextet_plain _ R6) as [P6 I6].
    cbn [List.filter]. rewrite I18, I12, I6. cbn [negb].
    replace (ignored padChar) with false by reflexivity. cbn [negb decode_quanta].
    rewrite !decode_encode_sextet by assumption.
    apply Z.eqb_neq in P6. rewrite P6, Z.eqb_refl.
    assert (H0 : sextet v 0 = 0)
      by (apply (sextet_low_zero v 0 (b0 * 1024 + b1 * 4)); [rewrite Hv; simpl; lia | lia]).
    replace (quantum (sextet v 18) (sextet v 12) (sextet v 6) 0)
      with (quantum (sextet v 18) (sextet v 12) (sextet v 6) (sextet v 0))
      by (rewrite H0; reflexivity).
    rewrite sextets_quantum by lia.
    rewrite Hv. replace (b0 * 65536 + b1 * 256) with (b0 * 65536 + b1 * 256 + 0) by lia.
    destruct (bytes_of_triple b0 b1 0) as (E0 & E1 & _); try lia.
    cbv zeta in E0, E1. rewrite E0, E1. reflexivity.
  - simpl in Hb. apply andb_true_iff in Hb as [Hb0 Hb]. apply andb_true_iff in Hb as [Hb1 Hb].
    apply andb_true_iff in Hb as [Hb2 Hb].
    apply is_byte_range in Hb0, Hb1, Hb2. specialize (IH Hb).
    cbn [EncodeToString].
    set (v := Z.lor (Z.lor (Z.shiftl b0 16) (Z.shiftl b1 8)) b2).
    assert (Hv : v = b0 * 65536 + b1 * 256 + b2) by (subst v; now apply triple_arith).
    pose proof (sextet_range v 18) as R18. pose proof (sextet_range v 12) as R12.
    pose proof (sextet_range v 6) as R6. pose proof (sextet_range v 0) as R0.
    destruct (encode_sextet_plain _ R18) as [P18 I18].
    destruct (encode_sextet_plain _ R12) as [P12 I12].
    destruct (encode_sextet_plain _ R6) as [P6 I6].
    destruct (encode_sextet_plain _ R0) as [P0 I0].
    cbn [List.filter]. rewrite I18, I12, I6, I0. cbn [negb decode_quanta].
    rewrite !decode_encode_sextet by assumption.
    apply Z.eqb_neq in P6, P0. rewrite P6, P0. rewrite IH.
    rewrite sextets_quantum by lia.
    destruct (bytes_of_triple b0 b1 b2) as (E0 & E1 & E2); try lia.
    cbv zeta in E0, E1, E2. rewrite Hv, E0, E1, E2. reflexivity.
Qed.

(** C10. For every key, parsing its string form succeeds and returns the
    key: [ParseKey (k.String()) = k]. *)
Theorem ParseKey_KeyString (k : list Z) (Hk : is_key k = true) :
  ParseKey (KeyString k) = Some k.
Proof.
  unfold is_key in Hk. apply andb_true_iff in Hk as [Hlen Hbytes].
  unfold ParseKey, KeyString. rewrite DecodeString_EncodeToString by assumption.
  unfold NewKey. rewrite Hlen. reflexivity.
Qed.

(** The key whose bytes are 0, 1, ..., 31; its string form. *)
Definition sample_key : list Z := List.map Z.of_nat (seq 0 32).

Lemma ParseKey_KeyString_witness :
  is_key sample_key = true
  /\ KeyString sample_key
     = List.map rune_of (list_ascii_of_string "AAECAwQFBgcICQoLDA0ODxAREhMUFRYXGBkaGxwdHh8=")
  /\ ParseKey (KeyString sample_key) = Some sample_key.
Proof.
  split; [reflexivity |]. split; [reflexivity |].
  apply (ParseKey_KeyString sample_key). reflexivity.
Defined.

(** *** What [ParseKey] accepts *)

Lemma byte_of_is_byte val shift : is_byte (byte_of val shift) = true.
Proof.
  unfold is_byte, byte_of. change 255 with (Z.ones 8). rewrite Z.land_ones by lia.
  pose proof (Z.mod_pos_bound (Z.shiftr val shift) (2 ^ 8) eq_refl). lia.
Qed.

(** Induction over an input four runes at a time. *)
Lemma quad_induction (P : list Z -> Prop) :
  P [] -> (forall a, P [a]) -> (forall a b, P [a; b]) -> (forall a b c, P [a; b; c]) ->
  (forall a b c d l, P l -> P (a :: b :: c :: d :: l)) ->
  forall l, P l.
Proof.
  intros H0 H1 H2 H3 H4 l.
  enough (H : P l /\ (forall a, P (a :: l)) /\ (forall a b, P (a :: b :: l))
              /\ (forall a b c, P (a :: b :: c :: l))) by apply H.
  induction l as [| x l (IH0 & IH1 & IH2 & IH3)]; [auto |].
  repeat split; auto.
Qed.

(** The number of runes of the encoding of [n] bytes. *)
Definition encoded_length (n : nat) : nat := (4 * ((n + 2) / 3))%nat.

Lemma decode_quanta_spec s : forall out,
  decode_quanta s = Some out ->
  forallb is_byte out = true /\ List.length s = encoded_length (List.length out).
Proof.
  induction s as [| a | a b | a b c | c0 c1 c2 c3 rest IH] using quad_induction;
    intros out H; try discriminate.
  - injection H as <-. split; reflexivity.
  - cbn [decode_quanta] in H.
    destruct (decode_char c0) as [d0 |]; [| discriminate].
    destruct (decode_char c1) as [d1 |]; [| discriminate].
    destruct (c2 =? padChar).
    + destruct ((c3 =? padChar) && match rest with [] => true | _ => false end) eqn:E;
        [| discriminate].
      injection H as <-. apply andb_true_iff in E as [_ E].
      destruct rest; [| discriminate]. cbn [forallb]. rewrite byte_of_is_byte.
      split; reflexivity.
    + destruct (decode_char c2) as [d2 |]; [| discriminate].
      destruct (c3 =? padChar).
      * destruct rest; [| discriminate]. injection H as <-.
        cbn [forallb]. rewrite !byte_of_is_byte. split; reflexivity.
      * destruct (decode_char c3) as [d3 |]; [| discriminate].
        destruct (decode_quanta rest) as [out' |]; [| discriminate].
        injection H as <-. destruct (IH out' eq_refl) as [Hb Hl].
        cbn [forallb]. rewrite !byte_of_is_byte, Hb. split; [reflexivity |].
        simpl List.length. rewrite Hl. unfold encoded_length.
        replace (S (S (S (List.length out'))) + 2)%nat
          with (1 * 3 + (List.length out' + 2))%nat by lia.
        rewrite Nat.div_add_l by discriminate. lia.
Qed.

Lemma EncodeToString_length src :
  List.length (EncodeToString src) = encoded_length (List.length src).
Proof.
  induction src as [| b0 | b0 b1 | b0 b1 b2 rest IH] using triple_induction;
    try reflexivity.
  cbn [EncodeToString]. cbv zeta. simpl List.length. rewrite IH. unfold encoded_length.
  replace (S (S (S (List.length rest))) + 2)%nat
    with (1 * 3 + (List.length rest + 2))%nat by lia.
  rewrite Nat.div_add_l by discriminate. lia.
Qed.

(** X10.  [ParseKey] on the encoding of any bytes is [NewKey] on these
    bytes, so that it accepts the encoding exactly when there are thirty-two
    of them; and two sequences of bytes with the same encoding are the
    same, so that different keys have different strings. *)
Theorem ParseKey_of_an_encoding :
  (forall b, forallb is_byte b = true -> ParseKey (EncodeToString b) = NewKey b)
  /\ (forall b, forallb is_byte b = true ->
        (ParseKey (EncodeToString b) <> None <-> List.length b = 32%nat))
  /\ (forall k1 k2,
        forallb is_byte k1 = true -> forallb is_byte k2 = true ->
        KeyString k1 = KeyString k2 -> k1 = k2).
Proof.
  assert (H1 : forall b, forallb is_byte b = true -> ParseKey (EncodeToString b) = NewKey b).
  { intros b Hb. unfold ParseKey. now rewrite DecodeString_EncodeToString. }
  split; [exact H1 |]. split.
  - intros b Hb. rewrite (H1 b Hb). unfold NewKey, KeyLen.
    destruct (Z.eqb_spec (Z.of_nat (List.length b)) 32) as [E | E]; cbn [negb].
    + split; [lia | discriminate].
    + split; [congruence | lia].
  - intros k1 k2 Hb1 Hb2 E. unfold KeyString in E.
    pose proof (DecodeString_EncodeToString k1 Hb1) as E1.
    pose proof (DecodeString_EncodeToString k2 Hb2) as E2.
    rewrite E in E1. congruence.
Qed.

(** X11.  What [ParseKey] returns is a key, thirty-two bytes, and it
    returns one only for a string that has forty-four runes once the
    carriage returns and line feeds are left out. *)
Theorem ParseKey_returns_keys s k (Hparse : ParseKey s = Some k) :
  is_key k = true
  /\ List.length (List.filter (fun c => negb (ignored c)) s) = 44%nat.
Proof.
  unfold ParseKey, DecodeString in Hparse.
  destruct (decode_quanta _) as [b |] eqn:E; [| discriminate].
  apply decode_quanta_spec in E as [Hb Hl]. unfold NewKey, KeyLen in Hparse.
  destruct (Z.eqb_spec (Z.of_nat (List.length b)) 32) as [E32 | E32]; cbn [negb] in Hparse;
    [| discriminate].
  injection Hparse as <-. split.
  - unfold is_key, KeyLen. rewrite Hb, E32. reflexivity.
  - rewrite Hl. replace (List.length b) with 32%nat by lia. reflexivity.
Qed.

Lemma ParseKey_returns_keys_witness :
  let s := List.map rune_of
             (list_ascii_of_string "AAECAwQFBgcICQoLDA0ODxAREhMUFRYXGBkaGxwdHh8=") ++ [10] in
  ParseKey s = Some sample_key
  /\ is_key sample_key = true
  /\ List.length (List.filter (fun c => negb (ignored c)) s) = 44%nat.
Proof.
  intros s. assert (H : ParseKey s = Some sample_key) by reflexivity.
  split; [exact H |]. exact (ParseKey_returns_keys s sample_key H).
Defined.

(** X12.  The string of a key has forty-four runes and ends with one
    padding rune; in general the encoding of [n] bytes has four runes for
    every three bytes or part of three. *)
Theorem KeyString_has_44_runes :
  (forall src, List.length (EncodeToString src) = (4 * ((List.length src + 2) / 3))%nat)
  /\ (forall k, List.length k = 32%nat ->
        List.length (KeyString k) = 44%nat
        /\ exists body c, KeyString k = body ++ [c; padChar] /\ c <> padChar
                          /\ List.length body = 42%nat).
Proof.
  split; [exact EncodeToString_length |].
  intros k Hk. split; [unfold KeyString; rewrite EncodeToString_length, Hk; reflexivity |].
  do 32 (destruct k as [| ? k]; [discriminate Hk |]). destruct k; [| discriminate Hk].
  unfold KeyString. cbn [EncodeToString]. cbv zeta.
  eexists [_; _; _; _; _; _; _; _; _; _; _; _; _; _; _; _; _; _; _; _; _;
           _; _; _; _; _; _; _; _; _; _; _; _; _; _; _; _; _; _; _; _; _], _.
  split; [reflexivity |]. split; [| reflexivity].
  apply encode_sextet_plain, sextet_range.
Qed.

(** *** Generated keys *)

(** [GenerateKey]: [random] is what [rand.Read] leaves in the slice of
    [KeyLen] bytes, [None] its error. *)
Definition GenerateKey (random : option (list Z)) : option (list Z) :=
  match random with
  | None => None
  | Some b => NewKey b
  end.

(** [key[0] &= 248; key[31] &= 127; key[31] |= 64] *)
Definition clamp (key : list Z) : list Z :=
  alter (fun b => Z.lor (Z.land b 127) 64) 31%nat (alter (fun b => Z.land b 248) 0%nat key).

Definition GeneratePrivateKey (random : option (list Z)) : option (list Z) :=
  match GenerateKey random with
  | None => None
  | Some key => Some (clamp key)
  end.

Lemma land_248 b : 0 <= b < 256 -> Z.land b 248 = b - b mod 8.
Proof.
  intros Hb.
  assert (H : forallb (fun n => Z.land (Z.of_nat n) 248 =? Z.of_nat n - Z.of_nat n mod 8)
                (seq 0 256) = true) by (vm_compute; reflexivity).
  rewrite forallb_forall in H. specialize (H (Z.to_nat b)).
  rewrite Z2Nat.id in H by lia. apply Z.eqb_eq, H, in_seq. lia.
Qed.

Lemma land_127_lor_64 b : 0 <= b < 256 -> Z.lor (Z.land b 127) 64 = b mod 64 + 64.
Proof.
  intros Hb.
  assert (H : forallb (fun n => Z.lor (Z.land (Z.of_nat n) 127) 64 =? Z.of_nat n mod 64 + 64)
                (seq 0 256) = true) by (vm_compute; reflexivity).
  rewrite forallb_forall in H. specialize (H (Z.to_nat b)).
  rewrite Z2Nat.id in H by lia. apply Z.eqb_eq, H, in_seq. lia.
Qed.

Lemma clamp_first_byte b : is_byte b = true -> is_byte (b - b mod 8) = true.
Proof.
  intros H. apply is_byte_range in H. unfold is_byte.
  pose proof (Z.mod_pos_bound b 8 eq_refl). pose proof (Z.mod_le b 8). lia.
Qed.

Lemma clamp_last_byte b : is_byte b = true -> is_byte (b mod 64 + 64) = true.
Proof.
  intros H. unfold is_byte. pose proof (Z.mod_pos_bound b 64 eq_refl). lia.
Qed.

(** X13.  A private key that [GeneratePrivateKey] returns is the random
    key with its first byte rounded down to a multiple of eight and its
    last byte brought between 64 and 127 by clearing the top bit and
    setting the next; the thirty bytes between are the random ones, the
    result is a key, and clamping it again changes nothing. *)
Theorem GeneratePrivateKey_clamps random (Hrandom : is_key random = true) :
  exists key,
    GeneratePrivateKey (Some random) = Some key
    /\ is_key key = true
    /\ nth 0 key 0 = nth 0 random 0 - nth 0 random 0 mod 8
    /\ nth 31 key 0 = nth 31 random 0 mod 64 + 64
    /\ (forall i, (0 < i < 31)%nat -> nth i key 0 = nth i random 0)
    /\ clamp key = key.
Proof.
  unfold GeneratePrivateKey, GenerateKey, NewKey. unfold is_key in Hrandom.
  apply andb_true_iff in Hrandom as [Hlen Hbytes]. rewrite Hlen. cbn [negb].
  apply Z.eqb_eq in Hlen. unfold KeyLen in Hlen.
  do 32 (destruct random as [| ? random]; [simpl in Hlen; lia |]).
  destruct random; [| simpl in Hlen; lia].
  cbn [forallb] in Hbytes.
  repeat match goal with
         | H : _ && _ = true |- _ => apply andb_true_iff in H as [? ?]
         end.
  eexists. split; [reflexivity |]. unfold clamp. cbn [alter list_alter nth].
  rewrite land_248, land_127_lor_64 by now apply is_byte_range.
  split; [| split; [reflexivity | split; [reflexivity | split]]].
  - unfold is_key, KeyLen. cbn [List.length forallb].
    rewrite (clamp_first_byte z), (clamp_last_byte z30) by assumption.
    repeat match goal with
           | H : is_byte _ = true |- _ => rewrite H; clear H
           end.
    reflexivity.
  - intros i Hi. do 31 (destruct i as [| i]; [try lia; reflexivity |]). lia.
  - f_equal.
    + rewrite land_248 by now apply is_byte_range, clamp_first_byte.
      replace ((z - z mod 8) mod 8) with 0; [lia |].
      rewrite Zminus_mod, Z.mod_mod, Z.sub_diag by discriminate. reflexivity.
    + do 30 f_equal.
      rewrite land_127_lor_64 by now apply is_byte_range, clamp_last_byte.
      replace ((z30 mod 64 + 64) mod 64) with (z30 mod 64); [reflexivity |].
      rewrite <- (Z.mul_1_l 64) at 3. rewrite Z.mod_add by discriminate.
      now rewrite Z.mod_mod.
Qed.

Lemma GeneratePrivateKey_clamps_witness :
  exists key,
    GeneratePrivateKey (Some (List.map (fun n => 255 - Z.of_nat n) (seq 0 32))) = Some key
    /\ nth 0 key 0 = 248 /\ nth 31 key 0 = 96 /\ nth 7 key 0 = 248
    /\ clamp key = key.
Proof.
  destruct (GeneratePrivateKey_clamps (List.map (fun n => 255 - Z.of_nat n) (seq 0 32)) eq_refl)
    as (key & E & _ & H0 & H31 & Hmid & Hc).
  exists key. split; [exact E |]. split; [exact H0 |]. split; [exact H31 |].
  split; [| exact Hc]. rewrite (Hmid 7%nat) by lia. reflexivity.
Defined.

End Wireguard.


(** ** dynaml/dynaml.peg.go: the generated parser *)
Module Peg.

(** The rule types, in the order of the [iota] enumeration. *)
Inductive pegRule :=
| ruleUnknown | ruleDynaml | rulePrefer | ruleMarkedExpression
| ruleSubsequentMarker | ruleMarker | ruleTagMarker | ruleMarkerExpression
| ruleExpression | ruleScoped | ruleScope | ruleCreateScope | ruleLevel7
| ruleOr | ruleOrOp | ruleLevel6 | ruleConditional | ruleLevel5
| ruleConcatenation | ruleLevel4 | ruleLogOr | ruleLogAnd | ruleLevel3
| ruleComparison | ruleCompareOp | ruleLevel2 | ruleAddition
| ruleSubtraction | ruleLevel1 | ruleMultiplication | ruleDivision
| ruleModulo | ruleLevel0 | ruleChained | ruleChainedQualifiedExpression
| ruleChainedRef | ruleChainedDynRef | ruleTopIndex | ruleSlice
| ruleCurrying | ruleChainedCall | ruleStartArguments | ruleNameArgumentList
| ruleNextNameArgument | ruleExpressionList | ruleNextExpression
| ruleListExpansion | ruleProjection | ruleProjectionValue
| ruleSubstitution | ruleNot | ruleGrouped | ruleRange | ruleStartRange
| ruleRangeOp | ruleNumber | ruleString | ruleBoolean | ruleNil
| ruleUndefined | ruleSymbol | ruleList | ruleStartList | ruleMap
| ruleCreateMap | ruleAssignments | ruleAssignment | ruleMerge
| ruleRefMerge | ruleSimpleMerge | ruleReplace | ruleRequired | ruleOn
| ruleAuto | ruleDefault | ruleSync | ruleLambdaExt | ruleLambdaOrExpr
| ruleCatch | ruleMapMapping | ruleMapping | ruleMapSelection
| ruleSelection | ruleSum | ruleLambda | ruleLambdaRef | ruleLambdaExpr
| ruleParams | ruleStartParams | ruleNames | ruleNextName | ruleName
| ruleDefaultValue | ruleVarParams | ruleReference | ruleTagPrefix | ruleTag
| ruleTagComponent | ruleFollowUpRef | rulePathComponent | ruleKey
| ruleIndex | ruleIP | rulews | rulereq_ws | ruleAction0 | ruleAction1
| ruleAction2 | rulePre | ruleIn | ruleSuf.

(** The table [rul3s] of rule names. *)
Definition rul3s (r : pegRule) : string :=
  match r with
  | ruleUnknown => "Unknown"
  | ruleDynaml => "Dynaml"
  | rulePrefer => "Prefer"
  | ruleMarkedExpression => "MarkedExpression"
  | ruleSubsequentMarker => "SubsequentMarker"
  | ruleMarker => "Marker"
  | ruleTagMarker => "TagMarker"
  | ruleMarkerExpression => "MarkerExpression"
  | ruleExpression => "Expression"
  | ruleScoped => "Scoped"
  | ruleScope => "Scope"
  | ruleCreateScope => "CreateScope"
  | ruleLevel7 => "Level7"
  | ruleOr => "Or"
  | ruleOrOp => "OrOp"
  | ruleLevel6 => "Level6"
  | ruleConditional => "Conditional"
  | ruleLevel5 => "Level5"
  | ruleConcatenation => "Concatenation"
  | ruleLevel4 => "Level4"
  | ruleLogOr => "LogOr"
  | ruleLogAnd => "LogAnd"
  | ruleLevel3 => "Level3"
  | ruleComparison => "Comparison"
  | ruleCompareOp => "CompareOp"
  | ruleLevel2 => "Level2"
  | ruleAddition => "Addition"
  | ruleSubtraction => "Subtraction"
  | ruleLevel1 => "Level1"
  | ruleMultiplication => "Multiplication"
  | ruleDivision => "Division"
  | ruleModulo => "Modulo"
  | ruleLevel0 => "Level0"
  | ruleChained => "Chained"
  | ruleChainedQualifiedExpression => "ChainedQualifiedExpression"
  | ruleChainedRef => "ChainedRef"
  | ruleChainedDynRef => "ChainedDynRef"
  | ruleTopIndex => "TopIndex"
  | ruleSlice => "Slice"
  | ruleCurrying => "Currying"
  | ruleChainedCall => "ChainedCall"
  | ruleStartArguments => "StartArguments"
  | ruleNameArgumentList => "NameArgumentList"
  | ruleNextNameArgument => "NextNameArgument"
  | ruleExpressionList => "ExpressionList"
  | ruleNextExpression => "NextExpression"
  | ruleListExpansion => "ListExpansion"
  | ruleProjection => "Projection"
  | ruleProjectionValue => "ProjectionValue"
  | ruleSubstitution => "Substitution"
  | ruleNot => "Not"
  | ruleGrouped => "Grouped"
  | ruleRange => "Range"
  | ruleStartRange => "StartRange"
  | ruleRangeOp => "RangeOp"
  | ruleNumber => "Number"
  | ruleString => "String"
  | ruleBoolean => "Boolean"
  | ruleNil => "Nil"
  | ruleUndefined => "Undefined"
  | ruleSymbol => "Symbol"
  | ruleList => "List"
  | ruleStartList => "StartList"
  | ruleMap => "Map"
  | ruleCreateMap => "CreateMap"
  | ruleAssignments => "Assignments"
  | ruleAssignment => "Assignment"
  | ruleMerge => "Merge"
  | ruleRefMerge => "RefMerge"
  | ruleSimpleMerge => "SimpleMerge"
  | ruleReplace => "Replace"
  | ruleRequired => "Required"
  | ruleOn => "On"
  | ruleAuto => "Auto"
  | ruleDefault => "Default"
  | ruleSync => "Sync"
  | ruleLambdaExt => "LambdaExt"
  | ruleLambdaOrExpr => "LambdaOrExpr"
  | ruleCatch => "Catch"
  | ruleMapMapping => "MapMapping"
  | ruleMapping => "Mapping"
  | ruleMapSelection => "MapSelection"
  | ruleSelection => "Selection"
  | ruleSum => "Sum"
  | ruleLambda => "Lambda"
  | ruleLambdaRef => "LambdaRef"
  | ruleLambdaExpr => "LambdaExpr"
  | ruleParams => "Params"
  | ruleStartParams => "StartParams"
  | ruleNames => "Names"
  | ruleNextName => "NextName"
  | ruleName => "Name"
  | ruleDefaultValue => "DefaultValue"
  | ruleVarParams => "VarParams"
  | ruleReference => "Reference"
  | ruleTagPrefix => "TagPrefix"
  | ruleTag => "Tag"
  | ruleTagComponent => "TagComponent"
  | ruleFollowUpRef => "FollowUpRef"
  | rulePathComponent => "PathComponent"
  | ruleKey => "Key"
  | ruleIndex => "Index"
  | ruleIP => "IP"
  | rulews => "ws"
  | rulereq_ws => "req_ws"
  | ruleAction0 => "Action0"
  | ruleAction1 => "Action1"
  | ruleAction2 => "Action2"
  | rulePre => "Pre_"
  | ruleIn => "_In_"
  | ruleSuf => "_Suf"
  end.

Definition endSymbol : rune := 1114112.

(** [uint32] arithmetic wraps around. *)
Definition u32 (z : Z) : Z := z mod 4294967296.

Record token32 := {
  tok_rule : pegRule;
  tok_begin : Z;
  tok_end : Z;
  tok_next : Z
}.

(** The zero value of [token32], the initial [max]. *)
Definition zeroToken : token32 :=
  {| tok_rule := ruleUnknown; tok_begin := 0; tok_end := 0; tok_next := 0 |}.

(** The variables that the closures of [Init] share.  [tokenTree] is the
    live part [tree[0:tokenIndex]] of the token array: restoring
    [tokenIndex] drops the tokens added since, and what lies behind
    [tokenIndex] is overwritten before it is read. *)
Record state := {
  position : Z;
  tokenTree : list token32;
  depth : Z;
  max : token32
}.

Inductive abort :=
| OutOfFuel   (* the recursion is deeper than the fuel given to the model *)
| Panic       (* index out of range, or a call of a nil rule *).

(** A rule or a part of one returns true ([Ok]) or false; on false the
    caller restores [position], [tokenIndex] and [depth] from its own
    copies, and only [max] survives ([Fail]). *)
Inductive result :=
| Ok (s : state)
| Fail (m : token32)
| Abort (a : abort).

Definition parser := state -> result.

Definition set_position (p : Z) (s : state) : state :=
  {| position := p; tokenTree := tokenTree s; depth := depth s; max := max s |}.
Definition set_depth (d : Z) (s : state) : state :=
  {| position := position s; tokenTree := tokenTree s; depth := d; max := max s |}.
Definition set_max (m : token32) (s : state) : state :=
  {| position := position s; tokenTree := tokenTree s; depth := depth s; max := m |}.

(** [add]: the token is stored at [tokenIndex], and it becomes [max] when
    it is not empty and ends behind the current [max]. *)
Definition add (rule : pegRule) (begin : Z) (s : state) : state :=
  let t := {| tok_rule := rule; tok_begin := begin; tok_end := position s;
              tok_next := depth s |} in
  {| position := position s;
     tokenTree := tokenTree s ++ [t];
     depth := depth s;
     max := if negb (begin =? position s) && (tok_end (max s) <? position s)
            then t else max s |}.

Section Grammar.

(** [p.buffer]: the runes of the input followed by [endSymbol]. *)
Variable buffer : list rune.

(** [buffer[i]], with Go's bounds check. *)
Definition char_at (i : Z) : option rune :=
  if i <? 0 then None else nth_error buffer (Z.to_nat i).

Definition peek (s : state) : option rune := char_at (position s).

Definition advance (s : state) : state := set_position (u32 (position s + 1)) s.

(** [if buffer[position] != rune(c) { goto fail }; position++] *)
Definition chr (c : ascii) : parser := fun s =>
  match peek s with
  | None => Abort Panic
  | Some x => if negb (x =? rune_of c) then Fail (max s) else Ok (advance s)
  end.

(** [if c := buffer[position]; c < rune(lo) || c > rune(hi) { goto fail }; position++] *)
Definition rng (lo hi : ascii) : parser := fun s =>
  match peek s with
  | None => Abort Panic
  | Some c => if (c <? rune_of lo) || (rune_of hi <? c) then Fail (max s)
              else Ok (advance s)
  end.

Definition matchDot : parser := fun s =>
  match peek s with
  | None => Abort Panic
  | Some x => if negb (x =? endSymbol) then Ok (advance s) else Fail (max s)
  end.

Definition succeed : parser := fun s => Ok s.
Definition failp : parser := fun s => Fail (max s).

(** [e1 e2] *)
Definition seq (p q : parser) : parser := fun s =>
  match p s with
  | Ok s' => q s'
  | Fail m => Fail m
  | Abort a => Abort a
  end.

(** [e1 / e2]: the second alternative starts from the saved position,
    token index and depth. *)
Definition alt (p q : parser) : parser := fun s =>
  match p s with
  | Ok s' => Ok s'
  | Fail m => q (set_max m s)
  | Abort a => Abort a
  end.

(** [e?] *)
Definition opt (p : parser) : parser := fun s =>
  match p s with
  | Ok s' => Ok s'
  | Fail m => Ok (set_max m s)
  | Abort a => Abort a
  end.

(** [!e] *)
Definition notp (p : parser) : parser := fun s =>
  match p s with
  | Ok s' => Fail (max s')
  | Fail m => Ok (set_max m s)
  | Abort a => Abort a
  end.

(** [e*]: the loop [l: if e { goto l }].  Each round that succeeds reads a
    rune or else repeats for ever, so the number of rounds is bounded by the
    length of the buffer; the model gives the loop that many rounds and
    reports a loop that wants more as out of fuel. *)
Fixpoint loop (n : nat) (p : parser) (s : state) : result :=
  match n with
  | O => Abort OutOfFuel
  | S n =>
      match p s with
      | Ok s' => loop n p s'
      | Fail m => Ok (set_max m s)
      | Abort a => Abort a
      end
  end.

Definition star (p : parser) : parser := loop (S (List.length buffer)) p.

(** [e+] *)
Definition plus (p : parser) : parser := seq p (star p).

Fixpoint seqs (ps : list parser) : parser :=
  match ps with
  | [] => succeed
  | [p] => p
  | p :: ps => seq p (seqs ps)
  end.

Fixpoint alts (ps : list parser) : parser :=
  match ps with
  | [] => failp
  | [p] => p
  | p :: ps => alt p (alts ps)
  end.

(** A run of rune literals, as in ['m' 'e' 'r' 'g' 'e']. *)
Definition lit (w : string) : parser := seqs (List.map chr (list_ascii_of_string w)).

(** The frame of a rule: [depth++], the expression, [depth--], [add]. *)
Definition rule (r : pegRule) (body : parser) : parser := fun s =>
  let position1 := position s in
  match body (set_depth (u32 (depth s + 1)) s) with
  | Ok s' => Ok (add r position1 (set_depth (u32 (depth s' - 1)) s'))
  | Fail m => Fail m
  | Abort a => Abort a
  end.

(** A rule that is an action only: [add(rule, position)]. *)
Definition action (r : pegRule) : parser := fun s => Ok (add r (position s) s).

(** The closures of [_rules], one per grammar rule; [call r] is
    [_rules[r]()].  The entry of [ruleUnknown] is nil and the table ends
    with [ruleAction2]. *)
Definition production (call : pegRule -> parser) (r : pegRule) : parser :=
  match r with
  | ruleDynaml =>
      rule ruleDynaml
        (seqs [alts [call rulePrefer; call ruleMarkedExpression; call ruleExpression];
          notp (matchDot)])
  | rulePrefer =>
      rule rulePrefer
        (seqs [call rulews; lit "prefer"; call rulereq_ws; call ruleExpression])
  | ruleMarkedExpression =>
      rule ruleMarkedExpression
        (seqs [call rulews; call ruleMarker; star (seqs [call rulereq_ws;
          call ruleSubsequentMarker]); call rulews; opt (call ruleMarkerExpression);
          call rulews])
  | ruleSubsequentMarker =>
      rule ruleSubsequentMarker
        (call ruleMarker)
  | ruleMarker =>
      rule ruleMarker
        (seqs [chr "&"; alts [lit "template"; lit "temporary"; lit "local";
          lit "inject"; lit "state"; lit "default"; lit "dynamic"; call ruleTagMarker]])
  | ruleTagMarker =>
      rule ruleTagMarker
        (seqs [lit "tag:"; opt (chr "*"); call ruleTag])
  | ruleMarkerExpression =>
      rule ruleMarkerExpression
        (call ruleGrouped)
  | ruleExpression =>
      rule ruleExpression
        (seqs [alts [call ruleScoped; call ruleLambdaExpr; call ruleLevel7];
          call rulews])
  | ruleScoped =>
      rule ruleScoped
        (seqs [call rulews; call ruleScope; call rulews; call ruleExpression])
  | ruleScope =>
      rule ruleScope
        (seqs [call ruleCreateScope; call rulews; opt (call ruleAssignments); chr ")"])
  | ruleCreateScope =>
      rule ruleCreateScope
        (chr "(")
  | ruleLevel7 =>
      rule ruleLevel7
        (seqs [call rulews; call ruleLevel6; star (seqs [call rulereq_ws;
          call ruleOr])])
  | ruleOr =>
      rule ruleOr
        (seqs [call ruleOrOp; call rulereq_ws; call ruleLevel6])
  | ruleOrOp =>
      rule ruleOrOp
        (alts [lit "||"; lit "//"])
  | ruleLevel6 =>
      rule ruleLevel6
        (alts [call ruleConditional; call ruleLevel5])
  | ruleConditional =>
      rule ruleConditional
        (seqs [call ruleLevel5; call rulews; chr "?"; call ruleExpression; chr ":";
          call ruleExpression])
  | ruleLevel5 =>
      rule ruleLevel5
        (seqs [call ruleLevel4; star (call ruleConcatenation)])
  | ruleConcatenation =>
      rule ruleConcatenation
        (seqs [call rulereq_ws; call ruleLevel4])
  | ruleLevel4 =>
      rule ruleLevel4
        (seqs [call ruleLevel3; star (seqs [call rulereq_ws; alts [call ruleLogOr;
          call ruleLogAnd]])])
  | ruleLogOr =>
      rule ruleLogOr
        (seqs [lit "-or"; call rulereq_ws; call ruleLevel3])
  | ruleLogAnd =>
      rule ruleLogAnd
        (seqs [lit "-and"; call rulereq_ws; call ruleLevel3])
  | ruleLevel3 =>
      rule ruleLevel3
        (seqs [call ruleLevel2; star (seqs [call rulereq_ws; call ruleComparison])])
  | ruleComparison =>
      rule ruleComparison
        (seqs [call ruleCompareOp; call rulereq_ws; call ruleLevel2])
  | ruleCompareOp =>
      rule ruleCompareOp
        (alts [lit "=="; lit "!="; lit "<="; lit ">="; chr ">"; chr "<"; chr ">"])
  | ruleLevel2 =>
      rule ruleLevel2
        (seqs [call ruleLevel1; star (seqs [call rulereq_ws; alts [call ruleAddition;
          call ruleSubtraction]])])
  | ruleAddition =>
      rule ruleAddition
        (seqs [chr "+"; call rulereq_ws; call ruleLevel1])
  | ruleSubtraction =>
      rule ruleSubtraction
        (seqs [chr "-"; call rulereq_ws; call ruleLevel1])
  | ruleLevel1 =>
      rule ruleLevel1
        (seqs [call ruleLevel0; star (seqs [call rulereq_ws;
          alts [call ruleMultiplication; call ruleDivision; call ruleModulo]])])
  | ruleMultiplication =>
      rule ruleMultiplication
        (seqs [chr "*"; call rulereq_ws; call ruleLevel0])
  | ruleDivision =>
      rule ruleDivision
        (seqs [chr "/"; call rulereq_ws; call ruleLevel0])
  | ruleModulo =>
      rule ruleModulo
        (seqs [chr "%"; call rulereq_ws; call ruleLevel0])
  | ruleLevel0 =>
      rule ruleLevel0
        (alts [call ruleIP; call ruleString; call ruleNumber; call ruleBoolean;
          call ruleUndefined; call ruleNil; call ruleSymbol; call ruleNot;
          call ruleSubstitution; call ruleMerge; call ruleAuto; call ruleLambda;
          call ruleChained])
  | ruleChained =>
      rule ruleChained
        (seqs [alts [call ruleMapMapping; call ruleSync; call ruleCatch;
          call ruleMapping; call ruleMapSelection; call ruleSelection; call ruleSum;
          call ruleList; call ruleMap; call ruleRange; call ruleGrouped;
          call ruleReference; call ruleTopIndex];
          star (call ruleChainedQualifiedExpression)])
  | ruleChainedQualifiedExpression =>
      rule ruleChainedQualifiedExpression
        (alts [call ruleChainedCall; call ruleCurrying; call ruleChainedRef;
          call ruleChainedDynRef; call ruleProjection])
  | ruleChainedRef =>
      rule ruleChainedRef
        (seqs [call rulePathComponent; call ruleFollowUpRef])
  | ruleChainedDynRef =>
      rule ruleChainedDynRef
        (seqs [opt (chr "."); chr "["; call ruleExpression; chr "]"])
  | ruleTopIndex =>
      rule ruleTopIndex
        (seqs [lit ".["; call ruleExpression; chr "]"])
  | ruleSlice =>
      rule ruleSlice
        (call ruleRange)
  | ruleCurrying =>
      rule ruleCurrying
        (seqs [chr "*"; call ruleChainedCall])
  | ruleChainedCall =>
      rule ruleChainedCall
        (seqs [call ruleStartArguments; opt (call ruleNameArgumentList); chr ")"])
  | ruleStartArguments =>
      rule ruleStartArguments
        (seqs [chr "("; call rulews])
  | ruleNameArgumentList =>
      rule ruleNameArgumentList
        (seqs [alts [seqs [call ruleNextNameArgument; star (seqs [chr ",";
          call ruleNextNameArgument])]; call ruleNextExpression]; star (seqs [chr ",";
          call ruleNextExpression])])
  | ruleNextNameArgument =>
      rule ruleNextNameArgument
        (seqs [call rulews; call ruleName; call rulews; chr "="; call rulews;
          call ruleExpression; call rulews])
  | ruleExpressionList =>
      rule ruleExpressionList
        (seqs [call ruleNextExpression; star (seqs [chr ","; call ruleNextExpression])])
  | ruleNextExpression =>
      rule ruleNextExpression
        (seqs [call ruleExpression; opt (call ruleListExpansion)])
  | ruleListExpansion =>
      rule ruleListExpansion
        (seqs [lit "..."; call rulews])
  | ruleProjection =>
      rule ruleProjection
        (seqs [opt (chr "."); alts [lit "[*]"; call ruleSlice];
          call ruleProjectionValue; star (call ruleChainedQualifiedExpression)])
  | ruleProjectionValue =>
      rule ruleProjectionValue
        (call ruleAction0)
  | ruleSubstitution =>
      rule ruleSubstitution
        (seqs [chr "*"; call ruleLevel0])
  | ruleNot =>
      rule ruleNot
        (seqs [chr "!"; call rulews; call ruleLevel0])
  | ruleGrouped =>
      rule ruleGrouped
        (seqs [chr "("; call ruleExpression; chr ")"])
  | ruleRange =>
      rule ruleRange
        (seqs [call ruleStartRange; opt (call ruleExpression); call ruleRangeOp;
          opt (call ruleExpression); chr "]"])
  | ruleStartRange =>
      rule ruleStartRange
        (chr "[")
  | ruleRangeOp =>
      rule ruleRangeOp
        (lit "..")
  | ruleNumber =>
      rule ruleNumber
        (seqs [opt (chr "-"); rng "0" "9"; star (alts [rng "0" "9"; chr "_"]);
          opt (seqs [chr "."; rng "0" "9"; star (rng "0" "9")]);
          opt (seqs [alts [chr "e"; chr "E"]; opt (chr "-"); rng "0" "9";
          star (rng "0" "9")]); notp (lit "::")])
  | ruleString =>
      rule ruleString
        (seqs [chr "034"; star (alts [seqs [chr "092"; chr "034"];
          seqs [notp (chr "034"); matchDot]]); chr "034"])
  | ruleBoolean =>
      rule ruleBoolean
        (alts [lit "true"; lit "false"])
  | ruleNil =>
      rule ruleNil
        (alts [lit "nil"; chr "~"])
  | ruleUndefined =>
      rule ruleUndefined
        (lit "~~")
  | ruleSymbol =>
      rule ruleSymbol
        (seqs [chr "$"; call ruleName])
  | ruleList =>
      rule ruleList
        (seqs [call ruleStartList; opt (call ruleExpressionList); chr "]"])
  | ruleStartList =>
      rule ruleStartList
        (seqs [chr "["; call rulews])
  | ruleMap =>
      rule ruleMap
        (seqs [call ruleCreateMap; call rulews; opt (call ruleAssignments); chr "}"])
  | ruleCreateMap =>
      rule ruleCreateMap
        (chr "{")
  | ruleAssignments =>
      rule ruleAssignments
        (seqs [call ruleAssignment; star (seqs [chr ","; call ruleAssignment])])
  | ruleAssignment =>
      rule ruleAssignment
        (seqs [call ruleExpression; chr "="; call ruleExpression])
  | ruleMerge =>
      rule ruleMerge
        (alts [call ruleRefMerge; call ruleSimpleMerge])
  | ruleRefMerge =>
      rule ruleRefMerge
        (seqs [lit "merge"; notp (seqs [call rulereq_ws; call ruleRequired]);
          opt (seqs [call rulereq_ws; alts [call ruleReplace; call ruleOn]]);
          call rulereq_ws; call ruleReference])
  | ruleSimpleMerge =>
      rule ruleSimpleMerge
        (seqs [lit "merge"; notp (chr "("); opt (seqs [call rulereq_ws;
          alts [call ruleReplace; call ruleRequired; call ruleOn]])])
  | ruleReplace =>
      rule ruleReplace
        (lit "replace")
  | ruleRequired =>
      rule ruleRequired
        (lit "required")
  | ruleOn =>
      rule ruleOn
        (seqs [lit "on"; call rulereq_ws; call ruleName])
  | ruleAuto =>
      rule ruleAuto
        (lit "auto")
  | ruleDefault =>
      rule ruleDefault
        (call ruleAction1)
  | ruleSync =>
      rule ruleSync
        (seqs [lit "sync["; call ruleLevel7;
          alts [seqs [alts [seqs [call ruleLambdaExpr; call ruleLambdaExt];
          seqs [call ruleLambdaOrExpr; call ruleLambdaOrExpr]]; alts [seqs [chr "|";
          call ruleExpression]; call ruleDefault]]; seqs [call ruleLambdaOrExpr;
          call ruleDefault; call ruleDefault]]; chr "]"])
  | ruleLambdaExt =>
      rule ruleLambdaExt
        (seqs [chr ","; call ruleExpression])
  | ruleLambdaOrExpr =>
      rule ruleLambdaOrExpr
        (alts [call ruleLambdaExpr; seqs [chr "|"; call ruleExpression]])
  | ruleCatch =>
      rule ruleCatch
        (seqs [lit "catch["; call ruleLevel7; call ruleLambdaOrExpr; chr "]"])
  | ruleMapMapping =>
      rule ruleMapMapping
        (seqs [lit "map{"; call ruleLevel7; call ruleLambdaOrExpr; chr "}"])
  | ruleMapping =>
      rule ruleMapping
        (seqs [lit "map["; call ruleLevel7; call ruleLambdaOrExpr; chr "]"])
  | ruleMapSelection =>
      rule ruleMapSelection
        (seqs [lit "select{"; call ruleLevel7; call ruleLambdaOrExpr; chr "}"])
  | ruleSelection =>
      rule ruleSelection
        (seqs [lit "select["; call ruleLevel7; call ruleLambdaOrExpr; chr "]"])
  | ruleSum =>
      rule ruleSum
        (seqs [lit "sum["; call ruleLevel7; chr "|"; call ruleLevel7;
          call ruleLambdaOrExpr; chr "]"])
  | ruleLambda =>
      rule ruleLambda
        (seqs [lit "lambda"; alts [call ruleLambdaRef; call ruleLambdaExpr]])
  | ruleLambdaRef =>
      rule ruleLambdaRef
        (seqs [call rulereq_ws; call ruleExpression])
  | ruleLambdaExpr =>
      rule ruleLambdaExpr
        (seqs [call rulews; call ruleParams; call rulews; lit "->";
          call ruleExpression])
  | ruleParams =>
      rule ruleParams
        (seqs [chr "|"; call ruleStartParams; call rulews; opt (call ruleNames);
          chr "|"])
  | ruleStartParams =>
      rule ruleStartParams
        (call ruleAction2)
  | ruleNames =>
      rule ruleNames
        (seqs [call ruleNextName; star (seqs [chr ","; call ruleNextName]);
          opt (call ruleDefaultValue); star (seqs [chr ","; call ruleNextName;
          call ruleDefaultValue]); opt (call ruleVarParams)])
  | ruleNextName =>
      rule ruleNextName
        (seqs [call rulews; call ruleName; call rulews])
  | ruleName =>
      rule ruleName
        (plus (alts [rng "a" "z"; rng "A" "Z"; rng "0" "9"; chr "_"]))
  | ruleDefaultValue =>
      rule ruleDefaultValue
        (seqs [chr "="; call ruleExpression])
  | ruleVarParams =>
      rule ruleVarParams
        (seqs [lit "..."; call rulews])
  | ruleReference =>
      rule ruleReference
        (seqs [alts [seqs [call ruleTagPrefix; alts [chr "."; call ruleKey]];
          seqs [opt (chr "."); call ruleKey]]; call ruleFollowUpRef])
  | ruleTagPrefix =>
      rule ruleTagPrefix
        (seqs [alts [seqs [lit "doc"; alts [chr "."; chr ":"]; opt (chr "-");
          plus (rng "0" "9")]; call ruleTag]; lit "::"])
  | ruleTag =>
      rule ruleTag
        (seqs [call ruleTagComponent; star (seqs [alts [chr "."; chr ":"];
          call ruleTagComponent])])
  | ruleTagComponent =>
      rule ruleTagComponent
        (seqs [alts [rng "a" "z"; rng "A" "Z"; chr "_"]; star (alts [rng "a" "z";
          rng "A" "Z"; rng "0" "9"; chr "_"])])
  | ruleFollowUpRef =>
      rule ruleFollowUpRef
        (star (call rulePathComponent))
  | rulePathComponent =>
      rule rulePathComponent
        (alts [seqs [chr "."; call ruleKey]; seqs [opt (chr "."); call ruleIndex]])
  | ruleKey =>
      rule ruleKey
        (seqs [alts [rng "a" "z"; rng "A" "Z"; rng "0" "9"; chr "_"];
          star (alts [rng "a" "z"; rng "A" "Z"; rng "0" "9"; chr "_"; chr "-"]);
          opt (seqs [chr ":"; alts [rng "a" "z"; rng "A" "Z"; rng "0" "9"; chr "_"];
          star (alts [rng "a" "z"; rng "A" "Z"; rng "0" "9"; chr "_"; chr "-"])])])
  | ruleIndex =>
      rule ruleIndex
        (seqs [chr "["; opt (chr "-"); plus (rng "0" "9"); chr "]"])
  | ruleIP =>
      rule ruleIP
        (seqs [plus (rng "0" "9"); chr "."; plus (rng "0" "9"); chr ".";
          plus (rng "0" "9"); chr "."; plus (rng "0" "9")])
  | rulews =>
      rule rulews
        (star (alts [chr " "; chr "009"; chr "010"; chr "013"]))
  | rulereq_ws =>
      rule rulereq_ws
        (plus (alts [chr " "; chr "009"; chr "010"; chr "013"]))
  | ruleAction0 => action ruleAction0
  | ruleAction1 => action ruleAction1
  | ruleAction2 => action ruleAction2
  | ruleUnknown | rulePre | ruleIn | ruleSuf => fun _ => Abort Panic
  end.

(** [_rules[r]()] with at most [fuel] nested calls. *)
Fixpoint rules (fuel : nat) (r : pegRule) (s : state) : result :=
  match fuel with
  | O => Abort OutOfFuel
  | S fuel => production (fun r' s' => rules fuel r' s') r s
  end.

End Grammar.

(** [Init]: the buffer of the grammar. *)
Definition Init (Buffer : list rune) : list rune :=
  match List.rev Buffer with
  | [] => Buffer ++ [endSymbol]
  | c :: _ => if negb (c =? endSymbol) then Buffer ++ [endSymbol] else Buffer
  end.

Definition initial : state :=
  {| position := 0; tokenTree := []; depth := 0; max := zeroToken |}.

Record parseError := { err_buffer : list rune; err_max : token32 }.

Inductive parsed :=
| Matched (tree : list token32)     (* [nil], with the token tree trimmed *)
| ParseError (e : parseError)
| Aborted (a : abort).

(** [p.Parse()] after [p.Init()], for the default rule, [ruleDynaml]. *)
Definition Parse (fuel : nat) (Buffer : list rune) : parsed :=
  let buffer := Init Buffer in
  match rules buffer fuel ruleDynaml initial with
  | Ok s => Matched (tokenTree s)
  | Fail m => ParseError {| err_buffer := buffer; err_max := m |}
  | Abort a => Aborted a
  end.

(** The runes of a string of ASCII characters. *)
Definition runes (w : string) : list rune := List.map rune_of (list_ascii_of_string w).


(** *** The grammar as data

    The expressions of the rules once more, as syntax: the properties that
    hold of every rule (positions stay inside the buffer, more fuel does not
    change a result, every call returns) are proved by induction on this
    syntax and carried over to [production] by [production_denote]. *)
Inductive pexp :=
| ESucceed
| EFail
| EChr (c : ascii)
| ERng (lo hi : ascii)
| EDot
| ECall (r : pegRule)
| ESeq (a b : pexp)
| EAlt (a b : pexp)
| EStar (a : pexp)
| EOpt (a : pexp)
| ENot (a : pexp).

Fixpoint eseqs (es : list pexp) : pexp :=
  match es with
  | [] => ESucceed
  | [e] => e
  | e :: es => ESeq e (eseqs es)
  end.

Fixpoint ealts (es : list pexp) : pexp :=
  match es with
  | [] => EFail
  | [e] => e
  | e :: es => EAlt e (ealts es)
  end.

Definition elit (w : string) : pexp := eseqs (List.map EChr (list_ascii_of_string w)).
Definition eplus (e : pexp) : pexp := ESeq e (EStar e).

Fixpoint interp (buffer : list rune) (call : pegRule -> parser) (e : pexp) : parser :=
  match e with
  | ESucceed => succeed
  | EFail => failp
  | EChr c => chr buffer c
  | ERng lo hi => rng buffer lo hi
  | EDot => matchDot buffer
  | ECall r => call r
  | ESeq a b => seq (interp buffer call a) (interp buffer call b)
  | EAlt a b => alt (interp buffer call a) (interp buffer call b)
  | EStar a => star buffer (interp buffer call a)
  | EOpt a => opt (interp buffer call a)
  | ENot a => notp (interp buffer call a)
  end.

Inductive prod_kind :=
| PRule (e : pexp)
| PAction
| PNone.

Definition grammar (r : pegRule) : prod_kind :=
  match r with
  | ruleDynaml =>
      PRule (eseqs [ealts [ECall rulePrefer; ECall ruleMarkedExpression;
        ECall ruleExpression]; ENot (EDot)])
  | rulePrefer =>
      PRule (eseqs [ECall rulews; elit "prefer"; ECall rulereq_ws; ECall ruleExpression])
  | ruleMarkedExpression =>
      PRule (eseqs [ECall rulews; ECall ruleMarker; EStar (eseqs [ECall rulereq_ws;
        ECall ruleSubsequentMarker]); ECall rulews; EOpt (ECall ruleMarkerExpression);
        ECall rulews])
  | ruleSubsequentMarker =>
      PRule (ECall ruleMarker)
  | ruleMarker =>
      PRule (eseqs [EChr "&"; ealts [elit "template"; elit "temporary"; elit "local";
        elit "inject"; elit "state"; elit "default"; elit "dynamic";
        ECall ruleTagMarker]])
  | ruleTagMarker =>
      PRule (eseqs [elit "tag:"; EOpt (EChr "*"); ECall ruleTag])
  | ruleMarkerExpression =>
      PRule (ECall ruleGrouped)
  | ruleExpression =>
      PRule (eseqs [ealts [ECall ruleScoped; ECall ruleLambdaExpr; ECall ruleLevel7];
        ECall rulews])
  | ruleScoped =>
      PRule (eseqs [ECall rulews; ECall ruleScope; ECall rulews; ECall ruleExpression])
  | ruleScope =>
      PRule (eseqs [ECall ruleCreateScope; ECall rulews; EOpt (ECall ruleAssignments);
        EChr ")"])
  | ruleCreateScope =>
      PRule (EChr "(")
  | ruleLevel7 =>
      PRule (eseqs [ECall rulews; ECall ruleLevel6; EStar (eseqs [ECall rulereq_ws;
        ECall ruleOr])])
  | ruleOr =>
      PRule (eseqs [ECall ruleOrOp; ECall rulereq_ws; ECall ruleLevel6])
  | ruleOrOp =>
      PRule (ealts [elit "||"; elit "//"])
  | ruleLevel6 =>
      PRule (ealts [ECall ruleConditional; ECall ruleLevel5])
  | ruleConditional =>
      PRule (eseqs [ECall ruleLevel5; ECall rulews; EChr "?"; ECall ruleExpression; EChr ":";
        ECall ruleExpression])
  | ruleLevel5 =>
      PRule (eseqs [ECall ruleLevel4; EStar (ECall ruleConcatenation)])
  | ruleConcatenation =>
      PRule (eseqs [ECall rulereq_ws; ECall ruleLevel4])
  | ruleLevel4 =>
      PRule (eseqs [ECall ruleLevel3; EStar (eseqs [ECall rulereq_ws; ealts [ECall ruleLogOr;
        ECall ruleLogAnd]])])
  | ruleLogOr =>
      PRule (eseqs [elit "-or"; ECall rulereq_ws; ECall ruleLevel3])
  | ruleLogAnd =>
      PRule (eseqs [elit "-and"; ECall rulereq_ws; ECall ruleLevel3])
  | ruleLevel3 =>
      PRule (eseqs [ECall ruleLevel2; EStar (eseqs [ECall rulereq_ws; ECall ruleComparison])])
  | ruleComparison =>
      PRule (eseqs [ECall ruleCompareOp; ECall rulereq_ws; ECall ruleLevel2])
  | ruleCompareOp =>
      PRule (ealts [elit "=="; elit "!="; elit "<="; elit ">="; EChr ">"; EChr "<"; EChr ">"])
  | ruleLevel2 =>
      PRule (eseqs [ECall ruleLevel1; EStar (eseqs [ECall rulereq_ws;
        ealts [ECall ruleAddition; ECall ruleSubtraction]])])
  | ruleAddition =>
      PRule (eseqs [EChr "+"; ECall rulereq_ws; ECall ruleLevel1])
  | ruleSubtraction =>
      PRule (eseqs [EChr "-"; ECall rulereq_ws; ECall ruleLevel1])
  | ruleLevel1 =>
      PRule (eseqs [ECall ruleLevel0; EStar (eseqs [ECall rulereq_ws;
        ealts [ECall ruleMultiplication; ECall ruleDivision; ECall ruleModulo]])])
  | ruleMultiplication =>
      PRule (eseqs [EChr "*"; ECall rulereq_ws; ECall ruleLevel0])
  | ruleDivision =>
      PRule (eseqs [EChr "/"; ECall rulereq_ws; ECall ruleLevel0])
  | ruleModulo =>
      PRule (eseqs [EChr "%"; ECall rulereq_ws; ECall ruleLevel0])
  | ruleLevel0 =>
      PRule (ealts [ECall ruleIP; ECall ruleString; ECall ruleNumber; ECall ruleBoolean;
        ECall ruleUndefined; ECall ruleNil; ECall ruleSymbol; ECall ruleNot;
        ECall ruleSubstitution; ECall ruleMerge; ECall ruleAuto; ECall ruleLambda;
        ECall ruleChained])
  | ruleChained =>
      PRule (eseqs [ealts [ECall ruleMapMapping; ECall ruleSync; ECall ruleCatch;
        ECall ruleMapping; ECall ruleMapSelection; ECall ruleSelection; ECall ruleSum;
        ECall ruleList; ECall ruleMap; ECall ruleRange; ECall ruleGrouped;
        ECall ruleReference; ECall ruleTopIndex];
        EStar (ECall ruleChainedQualifiedExpression)])
  | ruleChainedQualifiedExpression =>
      PRule (ealts [ECall ruleChainedCall; ECall ruleCurrying; ECall ruleChainedRef;
        ECall ruleChainedDynRef; ECall ruleProjection])
  | ruleChainedRef =>
      PRule (eseqs [ECall rulePathComponent; ECall ruleFollowUpRef])
  | ruleChainedDynRef =>
      PRule (eseqs [EOpt (EChr "."); EChr "["; ECall ruleExpression; EChr "]"])
  | ruleTopIndex =>
      PRule (eseqs [elit ".["; ECall ruleExpression; EChr "]"])
  | ruleSlice =>
      PRule (ECall ruleRange)
  | ruleCurrying =>
      PRule (eseqs [EChr "*"; ECall ruleChainedCall])
  | ruleChainedCall =>
      PRule (eseqs [ECall ruleStartArguments; EOpt (ECall ruleNameArgumentList); EChr ")"])
  | ruleStartArguments =>
      PRule (eseqs [EChr "("; ECall rulews])
  | ruleNameArgumentList =>
      PRule (eseqs [ealts [eseqs [ECall ruleNextNameArgument; EStar (eseqs [EChr ",";
        ECall ruleNextNameArgument])]; ECall ruleNextExpression];
        EStar (eseqs [EChr ","; ECall ruleNextExpression])])
  | ruleNextNameArgument =>
      PRule (eseqs [ECall rulews; ECall ruleName; ECall rulews; EChr "="; ECall rulews;
        ECall ruleExpression; ECall rulews])
  | ruleExpressionList =>
      PRule (eseqs [ECall ruleNextExpression; EStar (eseqs [EChr ",";
        ECall ruleNextExpression])])
  | ruleNextExpression =>
      PRule (eseqs [ECall ruleExpression; EOpt (ECall ruleListExpansion)])
  | ruleListExpansion =>
      PRule (eseqs [elit "..."; ECall rulews])
  | ruleProjection =>
      PRule (eseqs [EOpt (EChr "."); ealts [elit "[*]"; ECall ruleSlice];
        ECall ruleProjectionValue; EStar (ECall ruleChainedQualifiedExpression)])
  | ruleProjectionValue =>
      PRule (ECall ruleAction0)
  | ruleSubstitution =>
      PRule (eseqs [EChr "*"; ECall ruleLevel0])
  | ruleNot =>
      PRule (eseqs [EChr "!"; ECall rulews; ECall ruleLevel0])
  | ruleGrouped =>
      PRule (eseqs [EChr "("; ECall ruleExpression; EChr ")"])
  | ruleRange =>
      PRule (eseqs [ECall ruleStartRange; EOpt (ECall ruleExpression); ECall ruleRangeOp;
        EOpt (ECall ruleExpression); EChr "]"])
  | ruleStartRange =>
      PRule (EChr "[")
  | ruleRangeOp =>
      PRule (elit "..")
  | ruleNumber =>
      PRule (eseqs [EOpt (EChr "-"); ERng "0" "9"; EStar (ealts [ERng "0" "9"; EChr "_"]);
        EOpt (eseqs [EChr "."; ERng "0" "9"; EStar (ERng "0" "9")]);
        EOpt (eseqs [ealts [EChr "e"; EChr "E"]; EOpt (EChr "-"); ERng "0" "9";
        EStar (ERng "0" "9")]); ENot (elit "::")])
  | ruleString =>
      PRule (eseqs [EChr "034"; EStar (ealts [eseqs [EChr "092"; EChr "034"];
        eseqs [ENot (EChr "034"); EDot]]); EChr "034"])
  | ruleBoolean =>
      PRule (ealts [elit "true"; elit "false"])
  | ruleNil =>
      PRule (ealts [elit "nil"; EChr "~"])
  | ruleUndefined =>
      PRule (elit "~~")
  | ruleSymbol =>
      PRule (eseqs [EChr "$"; ECall ruleName])
  | ruleList =>
      PRule (eseqs [ECall ruleStartList; EOpt (ECall ruleExpressionList); EChr "]"])
  | ruleStartList =>
      PRule (eseqs [EChr "["; ECall rulews])
  | ruleMap =>
      PRule (eseqs [ECall ruleCreateMap; ECall rulews; EOpt (ECall ruleAssignments);
        EChr "}"])
  | ruleCreateMap =>
      PRule (EChr "{")
  | ruleAssignments =>
      PRule (eseqs [ECall ruleAssignment; EStar (eseqs [EChr ","; ECall ruleAssignment])])
  | ruleAssignment =>
      PRule (eseqs [ECall ruleExpression; EChr "="; ECall ruleExpression])
  | ruleMerge =>
      PRule (ealts [ECall ruleRefMerge; ECall ruleSimpleMerge])
  | ruleRefMerge =>
      PRule (eseqs [elit "merge"; ENot (eseqs [ECall rulereq_ws; ECall ruleRequired]);
        EOpt (eseqs [ECall rulereq_ws; ealts [ECall ruleReplace; ECall ruleOn]]);
        ECall rulereq_ws; ECall ruleReference])
  | ruleSimpleMerge =>
      PRule (eseqs [elit "merge"; ENot (EChr "("); EOpt (eseqs [ECall rulereq_ws;
        ealts [ECall ruleReplace; ECall ruleRequired; ECall ruleOn]])])
  | ruleReplace =>
      PRule (elit "replace")
  | ruleRequired =>
      PRule (elit "required")
  | ruleOn =>
      PRule (eseqs [elit "on"; ECall rulereq_ws; ECall ruleName])
  | ruleAuto =>
      PRule (elit "auto")
  | ruleDefault =>
      PRule (ECall ruleAction1)
  | ruleSync =>
      PRule (eseqs [elit "sync["; ECall ruleLevel7;
        ealts [eseqs [ealts [eseqs [ECall ruleLambdaExpr; ECall ruleLambdaExt];
        eseqs [ECall ruleLambdaOrExpr; ECall ruleLambdaOrExpr]]; ealts [eseqs [EChr "|";
        ECall ruleExpression]; ECall ruleDefault]]; eseqs [ECall ruleLambdaOrExpr;
        ECall ruleDefault; ECall ruleDefault]]; EChr "]"])
  | ruleLambdaExt =>
      PRule (eseqs [EChr ","; ECall ruleExpression])
  | ruleLambdaOrExpr =>
      PRule (ealts [ECall ruleLambdaExpr; eseqs [EChr "|"; ECall ruleExpression]])
  | ruleCatch =>
      PRule (eseqs [elit "catch["; ECall ruleLevel7; ECall ruleLambdaOrExpr; EChr "]"])
  | ruleMapMapping =>
      PRule (eseqs [elit "map{"; ECall ruleLevel7; ECall ruleLambdaOrExpr; EChr "}"])
  | ruleMapping =>
      PRule (eseqs [elit "map["; ECall ruleLevel7; ECall ruleLambdaOrExpr; EChr "]"])
  | ruleMapSelection =>
      PRule (eseqs [elit "select{"; ECall ruleLevel7; ECall ruleLambdaOrExpr; EChr "}"])
  | ruleSelection =>
      PRule (eseqs [elit "select["; ECall ruleLevel7; ECall ruleLambdaOrExpr; EChr "]"])
  | ruleSum =>
      PRule (eseqs [elit "sum["; ECall ruleLevel7; EChr "|"; ECall ruleLevel7;
        ECall ruleLambdaOrExpr; EChr "]"])
  | ruleLambda =>
      PRule (eseqs [elit "lambda"; ealts [ECall ruleLambdaRef; ECall ruleLambdaExpr]])
  | ruleLambdaRef =>
      PRule (eseqs [ECall rulereq_ws; ECall ruleExpression])
  | ruleLambdaExpr =>
      PRule (eseqs [ECall rulews; ECall ruleParams; ECall rulews; elit "->";
        ECall ruleExpression])
  | ruleParams =>
      PRule (eseqs [EChr "|"; ECall ruleStartParams; ECall rulews; EOpt (ECall ruleNames);
        EChr "|"])
  | ruleStartParams =>
      PRule (ECall ruleAction2)
  | ruleNames =>
      PRule (eseqs [ECall ruleNextName; EStar (eseqs [EChr ","; ECall ruleNextName]);
        EOpt (ECall ruleDefaultValue); EStar (eseqs [EChr ","; ECall ruleNextName;
        ECall ruleDefaultValue]); EOpt (ECall ruleVarParams)])
  | ruleNextName =>
      PRule (eseqs [ECall rulews; ECall ruleName; ECall rulews])
  | ruleName =>
      PRule (eplus (ealts [ERng "a" "z"; ERng "A" "Z"; ERng "0" "9"; EChr "_"]))
  | ruleDefaultValue =>
      PRule (eseqs [EChr "="; ECall ruleExpression])
  | ruleVarParams =>
      PRule (eseqs [elit "..."; ECall rulews])
  | ruleReference =>
      PRule (eseqs [ealts [eseqs [ECall ruleTagPrefix; ealts [EChr "."; ECall ruleKey]];
        eseqs [EOpt (EChr "."); ECall ruleKey]]; ECall ruleFollowUpRef])
  | ruleTagPrefix =>
      PRule (eseqs [ealts [eseqs [elit "doc"; ealts [EChr "."; EChr ":"]; EOpt (EChr "-");
        eplus (ERng "0" "9")]; ECall ruleTag]; elit "::"])
  | ruleTag =>
      PRule (eseqs [ECall ruleTagComponent; EStar (eseqs [ealts [EChr "."; EChr ":"];
        ECall ruleTagComponent])])
  | ruleTagComponent =>
      PRule (eseqs [ealts [ERng "a" "z"; ERng "A" "Z"; EChr "_"]; EStar (ealts [ERng "a" "z";
        ERng "A" "Z"; ERng "0" "9"; EChr "_"])])
  | ruleFollowUpRef =>
      PRule (EStar (ECall rulePathComponent))
  | rulePathComponent =>
      PRule (ealts [eseqs [EChr "."; ECall ruleKey]; eseqs [EOpt (EChr ".");
        ECall ruleIndex]])
  | ruleKey =>
      PRule (eseqs [ealts [ERng "a" "z"; ERng "A" "Z"; ERng "0" "9"; EChr "_"];
        EStar (ealts [ERng "a" "z"; ERng "A" "Z"; ERng "0" "9"; EChr "_"; EChr "-"]);
        EOpt (eseqs [EChr ":"; ealts [ERng "a" "z"; ERng "A" "Z"; ERng "0" "9";
        EChr "_"]; EStar (ealts [ERng "a" "z"; ERng "A" "Z"; ERng "0" "9"; EChr "_";
        EChr "-"])])])
  | ruleIndex =>
      PRule (eseqs [EChr "["; EOpt (EChr "-"); eplus (ERng "0" "9"); EChr "]"])
  | ruleIP =>
      PRule (eseqs [eplus (ERng "0" "9"); EChr "."; eplus (ERng "0" "9"); EChr ".";
        eplus (ERng "0" "9"); EChr "."; eplus (ERng "0" "9")])
  | rulews =>
      PRule (EStar (ealts [EChr " "; EChr "009"; EChr "010"; EChr "013"]))
  | rulereq_ws =>
      PRule (eplus (ealts [EChr " "; EChr "009"; EChr "010"; EChr "013"]))
  | ruleAction0 => PAction
  | ruleAction1 => PAction
  | ruleAction2 => PAction
  | ruleUnknown | rulePre | ruleIn | ruleSuf => PNone
  end.

Definition denote (buffer : list rune) (call : pegRule -> parser) (r : pegRule)
    (k : prod_kind) : parser :=
  match k with
  | PRule e => rule r (interp buffer call e)
  | PAction => action r
  | PNone => fun _ => Abort Panic
  end.

(** *** Reporting a parse error *)

Record textPosition := { line : Z; symbol : Z }.

(** [sort.Ints] *)
Fixpoint insert_sorted (x : Z) (l : list Z) : list Z :=
  match l with
  | [] => [x]
  | y :: l' => if x <=? y then x :: l else y :: insert_sorted x l'
  end.

Definition sort_ints (l : list Z) : list Z := fold_right insert_sorted [] l.

(** The inner loop of [translatePositions]: [j] moves over the positions
    equal to [i]; what is returned is [positions[j:]]. *)
Fixpoint skip_equal (i : Z) (positions : list Z) : list Z :=
  match positions with
  | [] => []
  | p :: rest => if i =? p then skip_equal i rest else positions
  end.

(** The loop [search] over the buffer from index [i] on; [positions] is
    [positions[j:]].  [None] is the panic of [positions[j]] on an empty
    slice.  The counters are Go's [int] and bounded by the length of the
    buffer. *)
Fixpoint search (buffer : list rune) (i : Z) (positions : list Z)
    (line symbol : Z) (translations : gmap Z textPosition)
    : option (gmap Z textPosition) :=
  match buffer with
  | [] => Some translations
  | c :: buffer' =>
      let line' := if c =? rune_of "010" then line + 1 else line in
      let symbol' := if c =? rune_of "010" then 0 else symbol + 1 in
      match positions with
      | [] => None
      | p :: rest =>
          if i =? p then
            let translations' :=
              <[p := {| line := line'; symbol := symbol' |}]> translations in
            match skip_equal i rest with
            | [] => Some translations'
            | rest' => search buffer' (i + 1) rest' line' symbol' translations'
            end
          else search buffer' (i + 1) positions line' symbol' translations
      end
  end.

Definition translatePositions (buffer : list rune) (positions : list Z)
    : option (gmap Z textPosition) :=
  search buffer 0 (sort_ints positions) 1 0 ∅.

(** [translations[k]]: a missing key reads as the zero value. *)
Definition translation (translations : gmap Z textPosition) (k : Z) : textPosition :=
  match translations !! k with
  | Some t => t
  | None => {| line := 0; symbol := 0 |}
  end.

(** [buffer[begin:end]], with Go's bounds check. *)
Definition slice (buffer : list rune) (begin end_ : Z) : option (list rune) :=
  if (begin <? 0) || (end_ <? begin) || (Z.of_nat (List.length buffer) <? end_)
  then None
  else Some (firstn (Z.to_nat (end_ - begin)) (skipn (Z.to_nat begin) buffer)).

(** [%v] of an integer. *)
Definition decimal (z : Z) : string := DecimalString.NilZero.string_of_int (Z.to_int z).

Definition nl : string := String "010" EmptyString.
Definition esc : string := String "027" EmptyString.

Section Report.

(** [strconv.Quote(string(text))], of the standard library. *)
Variable Quote : list rune -> string.

(** [fmt.Sprintf(format, name, l1, s1, l2, s2, quoted)] for the two formats
    of [Error]. *)
Definition format (pretty : bool) (name : string) (b e : textPosition)
    (quoted : string) : string :=
  ("parse error near "
     ++ (if pretty then esc ++ "[34m" ++ name ++ esc ++ "[m" else name)
     ++ " (line " ++ decimal (line b) ++ " symbol " ++ decimal (symbol b)
     ++ " - line " ++ decimal (line e) ++ " symbol " ++ decimal (symbol e)
     ++ "):" ++ nl ++ quoted ++ nl)%string.

(** [(e *parseError) Error()]; [None] is a panic. *)
Definition Error (pretty : bool) (e : parseError) : option string :=
  let begin := tok_begin (err_max e) in
  let end_ := tok_end (err_max e) in
  match translatePositions (err_buffer e) [begin; end_] with
  | None => None
  | Some translations =>
      match slice (err_buffer e) begin end_ with
      | None => None
      | Some text =>
          Some (nl ++ format pretty (rul3s (tok_rule (err_max e)))
                        (translation translations begin)
                        (translation translations end_) (Quote text))%string
      end
  end.

End Report.


(** *** Static analysis of the grammar

    [nullable] over-approximates the expressions that can succeed without
    reading a rune, [first] lists the rules an expression may call before it
    has read one, and [rank] orders the rules so that every such call goes to
    a rule of lower rank: the grammar has no left recursion. *)

Definition is_rule (r : pegRule) : bool :=
  match grammar r with PNone => false | _ => true end.

Definition rule_nullable (r : pegRule) : bool :=
  match r with
  | ruleProjectionValue | ruleDefault | ruleStartParams | ruleFollowUpRef
  | rulews | ruleAction0 | ruleAction1 | ruleAction2 => true
  | _ => false
  end.

Definition rank (r : pegRule) : nat :=
  match r with
  | rulePrefer | ruleMarkedExpression | ruleSubsequentMarker
  | ruleMarkerExpression | ruleScope | ruleOr | ruleConcatenation
  | ruleComparison | ruleChainedCall | ruleNextNameArgument
  | ruleProjectionValue | ruleRange | ruleList | ruleMap | ruleMerge
  | ruleDefault | ruleLambdaRef | ruleLambdaExpr | ruleStartParams
  | ruleNextName | ruleTag | rulePathComponent => 1
  | ruleScoped | ruleChainedRef | ruleSlice | ruleLambdaOrExpr | ruleNames
  | ruleTagPrefix | ruleFollowUpRef => 2
  | ruleProjection | ruleReference => 3
  | ruleChained | ruleChainedQualifiedExpression => 4
  | ruleLevel0 => 5
  | ruleLevel1 => 6
  | ruleLevel2 => 7
  | ruleLevel3 => 8
  | ruleLevel4 => 9
  | ruleLevel5 => 10
  | ruleConditional => 11
  | ruleLevel6 => 12
  | ruleLevel7 => 13
  | ruleExpression => 14
  | ruleDynaml | ruleNextExpression | ruleAssignment => 15
  | ruleNameArgumentList | ruleExpressionList | ruleAssignments => 16
  | _ => 0
  end%nat.

Definition ranks : nat := 17.

Fixpoint nullable (e : pexp) : bool :=
  match e with
  | ESucceed => true
  | EFail | EChr _ | ERng _ _ | EDot => false
  | ECall r => rule_nullable r
  | ESeq a b => nullable a && nullable b
  | EAlt a b => nullable a || nullable b
  | EStar _ | EOpt _ | ENot _ => true
  end.

Fixpoint first (e : pexp) : list pegRule :=
  match e with
  | ESucceed | EFail | EChr _ | ERng _ _ | EDot => []
  | ECall r => [r]
  | ESeq a b => first a ++ (if nullable a then first b else [])
  | EAlt a b => first a ++ first b
  | EStar a | EOpt a | ENot a => first a
  end.

Definition first_below (k : nat) (e : pexp) : bool :=
  forallb (fun r => Nat.ltb (rank r) k) (first e).

(** Calls go to entries of the rule table, and no loop has a nullable body. *)
Fixpoint wf_exp (e : pexp) : bool :=
  match e with
  | ESucceed | EFail | EChr _ | ERng _ _ | EDot => true
  | ECall r => is_rule r
  | ESeq a b | EAlt a b => wf_exp a && wf_exp b
  | EStar a => wf_exp a && negb (nullable a)
  | EOpt a | ENot a => wf_exp a
  end.

Definition wf_rule (r : pegRule) : bool :=
  match grammar r with
  | PRule e => wf_exp e && first_below (rank r) e && implb (nullable e) (rule_nullable r)
               && Nat.ltb (rank r) ranks
  | PAction => rule_nullable r && Nat.ltb (rank r) ranks
  | PNone => true
  end.


(** *** The frame: what every rule keeps *)

Lemma production_denote buffer call r :
  production buffer call r = denote buffer call r (grammar r).
Proof. destruct r; reflexivity. Qed.

Lemma wf_rule_all r : wf_rule r = true.
Proof. destruct r; vm_compute; reflexivity. Qed.

Lemma rune_of_bound c : 0 <= rune_of c < 256.
Proof.
  unfold rune_of. pose proof (N_ascii_bounded c). lia.
Qed.

Lemma rune_of_not_end c : rune_of c <> endSymbol.
Proof. pose proof (rune_of_bound c). unfold endSymbol. lia. Qed.

Section Frame.

Variable buffer : list rune.

(** The index of the last rune of the buffer, which is [endSymbol]. *)
Definition last_index : Z := Z.of_nat (List.length buffer) - 1.

Definition well_formed_buffer : Prop :=
  nth_error buffer (Z.to_nat last_index) = Some endSymbol
  /\ 0 <= last_index < 4294967296.

Definition tok_ok (t : token32) : Prop :=
  0 <= tok_begin t <= tok_end t /\ tok_end t <= last_index.

Definition inv (s : state) : Prop :=
  0 <= position s <= last_index /\ tok_ok (max s).

(** What a call leaves behind: a later position inside the buffer, a
    [max] inside the buffer, and no panic. *)
Definition good (s : state) (r : result) : Prop :=
  match r with
  | Ok s' => inv s' /\ position s <= position s'
  | Fail m => tok_ok m
  | Abort a => a = OutOfFuel
  end.

Definition sound (p : parser) : Prop := forall s, inv s -> good s (p s).

(** A parser that reads at least one rune when it succeeds. *)
Definition consuming (p : parser) : Prop :=
  forall s s', inv s -> p s = Ok s' -> position s < position s'.

Hypothesis Hbuf : well_formed_buffer.

Lemma peek_in s : inv s -> exists x, peek buffer s = Some x.
Proof using Hbuf.
  intros [[H0 H1] _]. unfold peek, char_at.
  destruct (Z.ltb_spec (position s) 0); [lia |].
  destruct (nth_error buffer (Z.to_nat (position s))) eqn:E; [eauto |].
  apply nth_error_None in E. unfold last_index in H1. lia.
Qed.

Lemma peek_last s x :
  inv s -> peek buffer s = Some x -> x <> endSymbol -> position s < last_index.
Proof using Hbuf.
  intros [[H0 H1] _] Hp Hx. destruct Hbuf as [Hlast _].
  destruct (Z.eq_dec (position s) last_index) as [E | E]; [| lia].
  exfalso. unfold peek, char_at in Hp. destruct (Z.ltb_spec (position s) 0); [lia |].
  rewrite E, Hlast in Hp. congruence.
Qed.

Lemma advance_spec s x :
  inv s -> peek buffer s = Some x -> x <> endSymbol ->
  position (advance s) = position s + 1 /\ inv (advance s).
Proof using Hbuf.
  intros Hi Hp Hx. pose proof (peek_last s x Hi Hp Hx) as Hlt.
  destruct Hi as [[H0 H1] Hm]. destruct Hbuf as [_ Hn].
  assert (E : position (advance s) = position s + 1).
  { unfold advance, u32. simpl. apply Z.mod_small. lia. }
  split; [exact E |]. split; [rewrite E; lia | exact Hm].
Qed.

Lemma sound_chr c : sound (chr buffer c).
Proof using Hbuf.
  intros s Hi. unfold chr. destruct (peek_in s Hi) as [x Hx]. rewrite Hx.
  destruct (Z.eqb_spec x (rune_of c)) as [E | E]; simpl.
  - destruct (advance_spec s x Hi Hx) as [Hp Hi'].
    + rewrite E. apply rune_of_not_end.
    + split; [exact Hi' | simpl in *; lia].
  - apply Hi.
Qed.

Lemma consuming_chr c : consuming (chr buffer c).
Proof using Hbuf.
  intros s s' Hi. unfold chr. destruct (peek_in s Hi) as [x Hx]. rewrite Hx.
  destruct (Z.eqb_spec x (rune_of c)) as [E | E]; simpl; [| discriminate].
  intros [= <-]. destruct (advance_spec s x Hi Hx) as [Hp _]; [| simpl in *; lia].
  rewrite E. apply rune_of_not_end.
Qed.

Lemma rng_match lo hi x :
  (x <? rune_of lo) || (rune_of hi <? x) = false -> x <> endSymbol.
Proof.
  intros H. apply orb_false_iff in H as [_ H]. pose proof (rune_of_bound hi).
  unfold endSymbol. lia.
Qed.

Lemma sound_rng lo hi : sound (rng buffer lo hi).
Proof using Hbuf.
  intros s Hi. unfold rng. destruct (peek_in s Hi) as [x Hx]. rewrite Hx.
  destruct ((x <? rune_of lo) || (rune_of hi <? x)) eqn:E; simpl.
  - apply Hi.
  - destruct (advance_spec s x Hi Hx (rng_match _ _ _ E)) as [Hp Hi'].
    split; [exact Hi' | simpl in *; lia].
Qed.

Lemma consuming_rng lo hi : consuming (rng buffer lo hi).
Proof using Hbuf.
  intros s s' Hi. unfold rng. destruct (peek_in s Hi) as [x Hx]. rewrite Hx.
  destruct ((x <? rune_of lo) || (rune_of hi <? x)) eqn:E; simpl; [discriminate |].
  intros [= <-]. destruct (advance_spec s x Hi Hx (rng_match _ _ _ E)) as [Hp _]. simpl in *; lia.
Qed.

Lemma sound_matchDot : sound (matchDot buffer).
Proof using Hbuf.
  intros s Hi. unfold matchDot. destruct (peek_in s Hi) as [x Hx]. rewrite Hx.
  destruct (Z.eqb_spec x endSymbol) as [E | E]; simpl.
  - apply Hi.
  - destruct (advance_spec s x Hi Hx E) as [Hp Hi']. split; [exact Hi' | simpl in *; lia].
Qed.

Lemma consuming_matchDot : consuming (matchDot buffer).
Proof using Hbuf.
  intros s s' Hi. unfold matchDot. destruct (peek_in s Hi) as [x Hx]. rewrite Hx.
  destruct (Z.eqb_spec x endSymbol) as [E | E]; simpl; [discriminate |].
  intros [= <-]. destruct (advance_spec s x Hi Hx E) as [Hp _]. simpl in *; lia.
Qed.

Lemma inv_set_max m s : inv s -> tok_ok m -> inv (set_max m s).
Proof. intros [Hp _] Hm. split; assumption. Qed.

Lemma sound_seq p q : sound p -> sound q -> sound (seq p q).
Proof.
  intros Hp Hq s Hi. unfold seq. specialize (Hp s Hi).
  destruct (p s) as [s' | m | a]; simpl in *; try assumption.
  destruct Hp as [Hi' Hle]. specialize (Hq s' Hi').
  destruct (q s') as [s'' | m | a]; simpl in *; try assumption.
  destruct Hq. split; [assumption | lia].
Qed.

Lemma sound_alt p q : sound p -> sound q -> sound (alt p q).
Proof.
  intros Hp Hq s Hi. unfold alt. specialize (Hp s Hi).
  destruct (p s) as [s' | m | a]; simpl in *; try assumption.
  exact (Hq _ (inv_set_max m s Hi Hp)).
Qed.

Lemma sound_opt p : sound p -> sound (opt p).
Proof.
  intros Hp s Hi. unfold opt. specialize (Hp s Hi).
  destruct (p s) as [s' | m | a]; simpl in *; try assumption.
  split; [now apply inv_set_max | simpl; lia].
Qed.

Lemma sound_notp p : sound p -> sound (notp p).
Proof.
  intros Hp s Hi. unfold notp. specialize (Hp s Hi).
  destruct (p s) as [s' | m | a]; simpl in *; try assumption.
  - apply Hp.
  - split; [now apply inv_set_max | simpl; lia].
Qed.

Lemma sound_loop p n : sound p -> sound (loop n p).
Proof.
  intros Hp. induction n as [| n IH]; intros s Hi; simpl; [reflexivity |].
  specialize (Hp s Hi). destruct (p s) as [s' | m | a]; simpl in *; try assumption.
  - destruct Hp as [Hi' Hle]. specialize (IH s' Hi').
    destruct (loop n p s') as [s'' | m | a]; simpl in *; try assumption.
    destruct IH. split; [assumption | lia].
  - split; [now apply inv_set_max | simpl; lia].
Qed.

Lemma add_spec r b s :
  inv s -> 0 <= b <= position s ->
  inv (add r b s) /\ position (add r b s) = position s.
Proof.
  intros [Hp Hm] Hb. split; [| reflexivity]. split; [exact Hp |].
  unfold add. simpl.
  destruct (negb (b =? position s) && (tok_end (max s) <? position s)); [| exact Hm].
  unfold tok_ok. simpl. lia.
Qed.

Lemma sound_rule r p : sound p -> sound (rule r p).
Proof.
  intros Hp s Hi. unfold rule.
  assert (Hi1 : inv (set_depth (u32 (depth s + 1)) s)) by exact Hi.
  specialize (Hp _ Hi1).
  destruct (p _) as [s' | m | a]; simpl in *; try assumption.
  destruct Hp as [Hi' Hle].
  assert (Hi2 : inv (set_depth (u32 (depth s' - 1)) s')) by exact Hi'.
  destruct (add_spec r (position s) _ Hi2) as [Ha Hpos].
  - simpl. destruct Hi as [[? ?] _]. lia.
  - split; [exact Ha | simpl in *; lia].
Qed.

Lemma consuming_rule r p : consuming p -> consuming (rule r p).
Proof.
  intros Hp s s' Hi. unfold rule.
  assert (Hi1 : inv (set_depth (u32 (depth s + 1)) s)) by exact Hi.
  destruct (p _) as [s1 | m | a] eqn:E; try discriminate.
  intros [= <-]. simpl. exact (Hp _ _ Hi1 E).
Qed.

Lemma sound_action r : sound (action r).
Proof.
  intros s Hi. unfold action.
  destruct (add_spec r (position s) s Hi) as [Ha Hpos]; [destruct Hi as [[? ?] _]; lia |].
  split; [exact Ha | lia].
Qed.

(** Every expression that calls sound rules only is sound. *)
Lemma sound_interp call e :
  (forall r, is_rule r = true -> sound (call r)) ->
  wf_exp e = true -> sound (interp buffer call e).
Proof using Hbuf.
  intros Hc. induction e as [| | c | lo hi | | r | a IHa b IHb | a IHa b IHb | a IHa | a IHa | a IHa];
    simpl; intros Hwf.
  - intros s Hi. split; [exact Hi | lia].
  - intros s Hi. apply Hi.
  - apply sound_chr.
  - apply sound_rng.
  - apply sound_matchDot.
  - now apply Hc.
  - apply andb_true_iff in Hwf as [? ?]. apply sound_seq; auto.
  - apply andb_true_iff in Hwf as [? ?]. apply sound_alt; auto.
  - apply andb_true_iff in Hwf as [? ?]. apply sound_loop; auto.
  - apply sound_opt; auto.
  - apply sound_notp; auto.
Qed.

Lemma sound_rules fuel : forall r, is_rule r = true -> sound (rules buffer fuel r).
Proof using Hbuf.
  induction fuel as [| fuel IH]; intros r Hr s Hi; [reflexivity |].
  change (good s (production buffer (fun r' s' => rules buffer fuel r' s') r s)).
  rewrite production_denote. pose proof (wf_rule_all r) as Hwf.
  unfold is_rule in Hr. unfold wf_rule in Hwf. unfold denote.
  destruct (grammar r) as [e | |]; [| apply sound_action; exact Hi | discriminate].
  apply andb_true_iff in Hwf as [Hwf _]. apply andb_true_iff in Hwf as [Hwf _].
  apply andb_true_iff in Hwf as [Hwf _].
  apply sound_rule; [| exact Hi]. apply sound_interp; [| exact Hwf].
  intros r' Hr'. exact (IH r' Hr').
Qed.

End Frame.


(** *** More fuel does not change a result *)

Definition extends (p1 p2 : parser) : Prop :=
  forall s, p1 s <> Abort OutOfFuel -> p2 s = p1 s.

Lemma extends_seq p1 p2 q1 q2 :
  extends p1 p2 -> extends q1 q2 -> extends (seq p1 q1) (seq p2 q2).
Proof.
  intros Hp Hq s. unfold seq. intros H.
  destruct (p1 s) as [s' | m | a] eqn:E; rewrite (Hp s) by congruence; rewrite E;
    try reflexivity.
  now apply Hq.
Qed.

Lemma extends_alt p1 p2 q1 q2 :
  extends p1 p2 -> extends q1 q2 -> extends (alt p1 q1) (alt p2 q2).
Proof.
  intros Hp Hq s. unfold alt. intros H.
  destruct (p1 s) as [s' | m | a] eqn:E; rewrite (Hp s) by congruence; rewrite E;
    try reflexivity.
  now apply Hq.
Qed.

Lemma extends_opt p1 p2 : extends p1 p2 -> extends (opt p1) (opt p2).
Proof.
  intros Hp s. unfold opt. intros H.
  destruct (p1 s) as [s' | m | a] eqn:E; rewrite (Hp s) by congruence; rewrite E;
    reflexivity.
Qed.

Lemma extends_notp p1 p2 : extends p1 p2 -> extends (notp p1) (notp p2).
Proof.
  intros Hp s. unfold notp. intros H.
  destruct (p1 s) as [s' | m | a] eqn:E; rewrite (Hp s) by congruence; rewrite E;
    reflexivity.
Qed.

Lemma extends_loop p1 p2 n : extends p1 p2 -> extends (loop n p1) (loop n p2).
Proof.
  intros Hp. induction n as [| n IH]; intros s; simpl; [congruence |]. intros H.
  destruct (p1 s) as [s' | m | a] eqn:E; rewrite (Hp s) by congruence; rewrite E;
    try reflexivity.
  now apply IH.
Qed.

Lemma extends_rule r p1 p2 : extends p1 p2 -> extends (rule r p1) (rule r p2).
Proof.
  intros Hp s. unfold rule. intros H.
  destruct (p1 _) as [s' | m | a] eqn:E; rewrite Hp by congruence; rewrite E;
    reflexivity.
Qed.

Lemma extends_interp buffer call1 call2 e :
  (forall r, extends (call1 r) (call2 r)) ->
  extends (interp buffer call1 e) (interp buffer call2 e).
Proof.
  intros Hc. induction e; simpl; try (intros s _; reflexivity).
  - apply Hc.
  - now apply extends_seq.
  - now apply extends_alt.
  - now apply extends_loop.
  - now apply extends_opt.
  - now apply extends_notp.
Qed.

Lemma rules_extends buffer fuel :
  forall r, extends (rules buffer fuel r) (rules buffer (S fuel) r).
Proof.
  induction fuel as [| fuel IH]; intros r s; [simpl; congruence |].
  change (production buffer (fun r' s' => rules buffer fuel r' s') r s <> Abort OutOfFuel ->
          production buffer (fun r' s' => rules buffer (S fuel) r' s') r s
          = production buffer (fun r' s' => rules buffer fuel r' s') r s).
  rewrite !production_denote. unfold denote.
  destruct (grammar r) as [e | |]; try reflexivity.
  apply extends_rule, extends_interp. intros r'. exact (IH r').
Qed.

Lemma rules_more_fuel buffer fuel fuel' r s :
  (fuel <= fuel')%nat -> rules buffer fuel r s <> Abort OutOfFuel ->
  rules buffer fuel' r s = rules buffer fuel r s.
Proof.
  induction 1 as [| fuel' Hle IH]; intros H; [reflexivity |].
  rewrite <- (IH H). apply rules_extends. rewrite (IH H). exact H.
Qed.

(** A call that fails with enough fuel returns with no amount of fuel. *)
Lemma never_matches buffer fuel0 r s m :
  rules buffer fuel0 r s = Fail m -> forall fuel s', rules buffer fuel r s <> Ok s'.
Proof.
  intros Hf fuel s' E.
  assert (H1 : rules buffer (fuel + fuel0) r s = Ok s').
  { rewrite (rules_more_fuel buffer fuel (fuel + fuel0) r s) by (lia || (rewrite E; discriminate)).
    exact E. }
  assert (H2 : rules buffer (fuel + fuel0) r s = Fail m).
  { rewrite (rules_more_fuel buffer fuel0 (fuel + fuel0) r s) by (lia || (rewrite Hf; discriminate)).
    exact Hf. }
  congruence.
Qed.

(** *** Every call returns *)

Section Termination.

Variable buffer : list rune.
Hypothesis Hbuf : well_formed_buffer buffer.

#[local] Abbreviation inv := (inv buffer).
#[local] Abbreviation sound := (sound buffer).
#[local] Abbreviation consuming := (consuming buffer).
#[local] Abbreviation good := (good buffer).

Lemma consuming_interp call e :
  (forall r, is_rule r = true -> sound (call r)) ->
  (forall r, rule_nullable r = false -> consuming (call r)) ->
  wf_exp e = true -> nullable e = false -> consuming (interp buffer call e).
Proof using Hbuf.
  intros Hs Hc.
  induction e as [| | c | lo hi | | r | a IHa b IHb | a IHa b IHb | a IHa | a IHa | a IHa];
    simpl; intros Hwf Hn; try discriminate.
  - now apply consuming_chr.
  - now apply consuming_rng.
  - now apply consuming_matchDot.
  - now apply Hc.
  - apply andb_true_iff in Hwf as [Hwa Hwb].
    intros s s' Hi. unfold seq.
    pose proof (sound_interp buffer Hbuf call a Hs Hwa s Hi) as Ga.
    destruct (interp buffer call a s) as [s1 | m | x] eqn:Ea; try discriminate.
    destruct Ga as [Hi1 Hle1]. intros Eb.
    pose proof (sound_interp buffer Hbuf call b Hs Hwb s1 Hi1) as Gb.
    rewrite Eb in Gb. destruct Gb as [_ Hle2].
    apply andb_false_iff in Hn as [Hn | Hn].
    + pose proof (IHa Hwa Hn s s1 Hi Ea). lia.
    + pose proof (IHb Hwb Hn s1 s' Hi1 Eb). lia.
  - apply andb_true_iff in Hwf as [Hwa Hwb]. apply orb_false_iff in Hn as [Hna Hnb].
    intros s s' Hi. unfold alt.
    pose proof (sound_interp buffer Hbuf call a Hs Hwa s Hi) as Ga.
    destruct (interp buffer call a s) as [s1 | m | x] eqn:Ea; try discriminate.
    + intros [= <-]. exact (IHa Hwa Hna s s1 Hi Ea).
    + intros Eb. exact (IHb Hwb Hnb _ s' (inv_set_max buffer m s Hi Ga) Eb).
Qed.

Lemma consuming_rules fuel :
  forall r, rule_nullable r = false -> consuming (rules buffer fuel r).
Proof using Hbuf.
  induction fuel as [| fuel IH]; intros r Hr s s' Hi; [discriminate |].
  change (production buffer (fun r' s' => rules buffer fuel r' s') r s = Ok s' ->
          position s < position s').
  rewrite production_denote. pose proof (wf_rule_all r) as Hwf.
  unfold wf_rule in Hwf. unfold denote.
  destruct (grammar r) as [e | |]; [| rewrite Hr in Hwf; discriminate | discriminate].
  apply andb_true_iff in Hwf as [Hwf _]. apply andb_true_iff in Hwf as [Hwf Hnul].
  apply andb_true_iff in Hwf as [Hwf _].
  rewrite Hr in Hnul. destruct (nullable e) eqn:En; [discriminate |].
  intros E. refine (consuming_rule buffer r _ _ s s' Hi E).
  apply consuming_interp; try assumption.
  intros r' Hr'. now apply sound_rules.
Qed.

Definition returns (r : result) : Prop :=
  match r with Abort _ => False | _ => True end.

(** The runes that are left before the final [endSymbol]. *)
Definition remaining (s : state) : nat := Z.to_nat (last_index buffer - position s).

Lemma returns_loop p n : forall s,
  inv s -> (remaining s < n)%nat ->
  (forall s', inv s' -> position s <= position s' ->
     returns (p s') /\ good s' (p s')
     /\ forall s'', p s' = Ok s'' -> position s' < position s'') ->
  returns (loop n p s).
Proof.
  induction n as [| n IH]; intros s Hi Hn Hp; [lia |]. simpl.
  destruct (Hp s Hi (Z.le_refl _)) as (Hr & Hg & Hc).
  destruct (p s) as [s' | m | a]; simpl in *; try exact I; try contradiction.
  destruct Hg as [Hi' _]. specialize (Hc s' eq_refl).
  apply IH; [exact Hi' | |].
  - unfold remaining in *. destruct Hi' as [[? ?] _]. lia.
  - intros s1 Hi1 Hle. apply Hp; [exact Hi1 | lia].
Qed.

Lemma first_below_app k l1 l2 :
  forallb (fun r => Nat.ltb (rank r) k) (l1 ++ l2) = true ->
  forallb (fun r => Nat.ltb (rank r) k) l1 = true
  /\ forallb (fun r => Nat.ltb (rank r) k) l2 = true.
Proof. rewrite forallb_app. apply andb_true_iff. Qed.

Lemma returns_interp call k e :
  (forall r, is_rule r = true -> sound (call r)) ->
  (forall r, rule_nullable r = false -> consuming (call r)) ->
  wf_exp e = true ->
  forall s0 s, inv s -> position s0 <= position s ->
    (forall r s', is_rule r = true -> inv s' -> position s <= position s' ->
       position s0 < position s' \/ (rank r < k)%nat -> returns (call r s')) ->
    position s0 < position s \/ first_below k e = true ->
    returns (interp buffer call e s).
Proof using Hbuf.
  intros Hs Hc.
  induction e as [| | c | lo hi | | r | a IHa b IHb | a IHa b IHb | a IHa | a IHa | a IHa];
    simpl; intros Hwf s0 s Hi Hle Hcall Hfirst.
  - exact I.
  - exact I.
  - unfold chr. destruct (peek_in buffer Hbuf s Hi) as [x ->].
    destruct (negb _); exact I.
  - unfold rng. destruct (peek_in buffer Hbuf s Hi) as [x ->].
    destruct (_ || _); exact I.
  - unfold matchDot. destruct (peek_in buffer Hbuf s Hi) as [x ->].
    destruct (negb _); exact I.
  - apply Hcall; [exact Hwf | exact Hi | lia |].
    destruct Hfirst as [H | H]; [left; exact H | right].
    unfold first_below in H. simpl in H. apply andb_true_iff in H as [H _].
    now apply Nat.ltb_lt.
  - apply andb_true_iff in Hwf as [Hwa Hwb]. unfold seq.
    assert (Hfa : position s0 < position s \/ first_below k a = true).
    { destruct Hfirst as [H | H]; [left; exact H | right].
      unfold first_below in *. simpl in H. now apply first_below_app in H as [H _]. }
    pose proof (IHa Hwa s0 s Hi Hle Hcall Hfa) as Ra.
    pose proof (sound_interp buffer Hbuf call a Hs Hwa s Hi) as Ga.
    destruct (interp buffer call a s) as [s1 | m | x] eqn:Ea; try exact I; try contradiction.
    destruct Ga as [Hi1 Hle1].
    apply (IHb Hwb s0 s1 Hi1); [lia | |].
    + intros r s' Hr Hi' Hle' Hd. apply Hcall; [exact Hr | exact Hi' | lia | exact Hd].
    + destruct Hfirst as [H | H]; [left; lia |].
      destruct (nullable a) eqn:Hna.
      * right. unfold first_below in *. simpl in H. rewrite Hna in H.
        now apply first_below_app in H as [_ H].
      * left. pose proof (consuming_interp call a Hs Hc Hwa Hna s s1 Hi Ea). lia.
  - apply andb_true_iff in Hwf as [Hwa Hwb]. unfold alt.
    assert (Hfa : position s0 < position s \/ first_below k a = true).
    { destruct Hfirst as [H | H]; [left; exact H | right].
      unfold first_below in *. simpl in H. now apply first_below_app in H as [H _]. }
    assert (Hfb : position s0 < position s \/ first_below k b = true).
    { destruct Hfirst as [H | H]; [left; exact H | right].
      unfold first_below in *. simpl in H. now apply first_below_app in H as [_ H]. }
    pose proof (IHa Hwa s0 s Hi Hle Hcall Hfa) as Ra.
    pose proof (sound_interp buffer Hbuf call a Hs Hwa s Hi) as Ga.
    destruct (interp buffer call a s) as [s1 | m | x] eqn:Ea; try exact I; try contradiction.
    apply (IHb Hwb s0 (set_max m s)); [now apply inv_set_max | exact Hle | exact Hcall | exact Hfb].
  - apply andb_true_iff in Hwf as [Hwa Hna]. apply negb_true_iff in Hna.
    unfold star. apply returns_loop; [exact Hi | |].
    + pose proof Hi as [[? ?] _]. unfold remaining, last_index in *. lia.
    + intros s' Hi' Hle'. split; [| split].
      * apply (IHa Hwa s0 s' Hi'); [lia | |].
        -- intros r s'' Hr Hi'' Hle'' Hd. apply Hcall; [exact Hr | exact Hi'' | lia | exact Hd].
        -- destruct Hfirst as [H | H]; [left; lia |].
           destruct (Z.eq_dec (position s) (position s')) as [E | E]; [right; exact H | left; lia].
      * now apply sound_interp.
      * intros s'' E. exact (consuming_interp call a Hs Hc Hwa Hna s' s'' Hi' E).
  - unfold opt. pose proof (IHa Hwf s0 s Hi Hle Hcall Hfirst) as Ra.
    destruct (interp buffer call a s); try exact I; contradiction.
  - unfold notp. pose proof (IHa Hwf s0 s Hi Hle Hcall Hfirst) as Ra.
    destruct (interp buffer call a s); try exact I; contradiction.
Qed.

Lemma returns_rule r p s : returns (p (set_depth (u32 (depth s + 1)) s)) -> returns (rule r p s).
Proof. unfold rule. destruct (p _); simpl; tauto. Qed.

Lemma rank_below r : (rank r < ranks)%nat.
Proof.
  pose proof (wf_rule_all r) as H. unfold wf_rule in H.
  destruct (grammar r).
  - apply andb_true_iff in H as [_ H]. now apply Nat.ltb_lt.
  - apply andb_true_iff in H as [_ H]. now apply Nat.ltb_lt.
  - destruct r; try discriminate; cbv; lia.
Qed.

Lemma returns_rules fuel : forall r s,
  is_rule r = true -> inv s -> (remaining s * ranks + rank r < fuel)%nat ->
  returns (rules buffer fuel r s).
Proof using Hbuf.
  induction fuel as [| fuel IH]; intros r s Hr Hi Hf; [lia |].
  change (returns (production buffer (fun r' s' => rules buffer fuel r' s') r s)).
  rewrite production_denote. pose proof (wf_rule_all r) as Hwf.
  unfold is_rule in Hr. unfold wf_rule in Hwf. unfold denote.
  destruct (grammar r) as [e | |]; [| exact I | discriminate].
  apply andb_true_iff in Hwf as [Hwf _]. apply andb_true_iff in Hwf as [Hwf _].
  apply andb_true_iff in Hwf as [Hwf Hfirst].
  apply returns_rule.
  set (s1 := set_depth (u32 (depth s + 1)) s).
  apply (returns_interp _ (rank r) e) with (s0 := s1); try assumption.
  - intros r' Hr'. now apply sound_rules.
  - intros r' Hr'. now apply consuming_rules.
  - lia.
  - intros r' s' Hr' Hi' Hle Hd. apply IH; [exact Hr' | exact Hi' |].
    pose proof (rank_below r'). unfold remaining in *.
    destruct Hi as [[? ?] _]. destruct Hi' as [[? ?] _]. subst s1. simpl in *.
    destruct Hd as [Hd | Hd].
    + assert (Z.to_nat (last_index buffer - position s')
              < Z.to_nat (last_index buffer - position s))%nat by lia.
      nia.
    + assert (Z.to_nat (last_index buffer - position s')
              <= Z.to_nat (last_index buffer - position s))%nat by lia.
      nia.
  - right. exact Hfirst.
Qed.

(** Every rule returns on every state inside the buffer, and the result no
    longer depends on the fuel once there is enough of it. *)
Lemma rules_total r s :
  is_rule r = true -> inv s ->
  exists fuel0 res,
    returns res /\ good s res
    /\ forall fuel, (fuel0 <= fuel)%nat -> rules buffer fuel r s = res.
Proof using Hbuf.
  intros Hr Hi. set (fuel0 := S (remaining s * ranks + rank r)).
  exists fuel0, (rules buffer fuel0 r s).
  assert (Hret : returns (rules buffer fuel0 r s))
    by (apply returns_rules; [exact Hr | exact Hi | subst fuel0; lia]).
  split; [exact Hret |]. split; [now apply sound_rules |].
  intros fuel Hle. apply rules_more_fuel; [exact Hle |].
  intros E. rewrite E in Hret. exact Hret.
Qed.

End Termination.


(** *** Running the rules on a buffer of which a window is known *)

(** The runes [w] stand in the buffer from index [p] on. *)
Definition reads (buffer : list rune) (p : Z) (w : list rune) : Prop :=
  forall i x, nth_error w i = Some x -> char_at buffer (p + Z.of_nat i) = Some x.

Lemma Init_prefix Buffer : exists rest, Init Buffer = Buffer ++ rest.
Proof.
  unfold Init. destruct (rev Buffer) as [| c l].
  - now exists [endSymbol].
  - destruct (negb (c =? endSymbol)).
    + now exists [endSymbol].
    + exists []. now rewrite app_nil_r.
Qed.

Lemma Init_last Buffer :
  nth_error (Init Buffer) (Nat.pred (List.length (Init Buffer))) = Some endSymbol.
Proof.
  unfold Init. destruct (rev Buffer) as [| c l] eqn:E.
  - rewrite length_app, nth_error_app2 by (simpl; lia).
    replace (Nat.pred (List.length Buffer + List.length [endSymbol]) - List.length Buffer)%nat
      with 0%nat by (simpl; lia). reflexivity.
  - destruct (Z.eqb_spec c endSymbol) as [-> | Hc]; simpl.
    + assert (HB : Buffer = rev l ++ [endSymbol]).
      { rewrite <- (rev_involutive Buffer), E. reflexivity. }
      rewrite HB, length_app, nth_error_app2 by (simpl; lia).
      replace (Nat.pred (List.length (rev l) + List.length [endSymbol]) - List.length (rev l))%nat
        with 0%nat by (simpl; lia). reflexivity.
    + rewrite length_app, nth_error_app2 by (simpl; lia).
      replace (Nat.pred (List.length Buffer + List.length [endSymbol]) - List.length Buffer)%nat
        with 0%nat by (simpl; lia). reflexivity.
Qed.

Lemma Init_length Buffer :
  (List.length Buffer <= List.length (Init Buffer) <= S (List.length Buffer))%nat
  /\ (0 < List.length (Init Buffer))%nat.
Proof.
  unfold Init. destruct (rev Buffer) as [| c l] eqn:E.
  - rewrite length_app. simpl. lia.
  - assert (HB : Buffer = rev l ++ [c]).
    { rewrite <- (rev_involutive Buffer), E. reflexivity. }
    destruct (negb (c =? endSymbol)).
    + rewrite length_app. simpl. lia.
    + rewrite HB, length_app. simpl. lia.
Qed.

(** The buffer that [Init] builds from an input shorter than 2^32 runes. *)
Lemma Init_well_formed Buffer :
  Z.of_nat (List.length Buffer) < 4294967296 -> well_formed_buffer (Init Buffer).
Proof.
  intros Hlen. pose proof (Init_length Buffer) as [[H1 H2] H3].
  pose proof (Init_last Buffer) as Hlast.
  unfold well_formed_buffer, last_index.
  replace (Z.to_nat (Z.of_nat (List.length (Init Buffer)) - 1))
    with (Nat.pred (List.length (Init Buffer))) by lia.
  split; [exact Hlast | lia].
Qed.

Lemma inv_initial buffer : well_formed_buffer buffer -> inv buffer initial.
Proof.
  intros [_ H]. unfold inv, tok_ok. simpl. lia.
Qed.

Lemma reads_Init pre w suf :
  reads (Init (pre ++ w ++ suf)) (Z.of_nat (List.length pre)) w.
Proof.
  intros i x Hx. destruct (Init_prefix (pre ++ w ++ suf)) as [rest ->].
  unfold char_at. destruct (Z.ltb_spec (Z.of_nat (List.length pre) + Z.of_nat i) 0); [lia |].
  replace (Z.to_nat (Z.of_nat (List.length pre) + Z.of_nat i))
    with (List.length pre + i)%nat by lia.
  rewrite <- !app_assoc. rewrite nth_error_app2 by lia.
  replace (List.length pre + i - List.length pre)%nat with i by lia.
  rewrite nth_error_app1 by (apply nth_error_Some; congruence). exact Hx.
Qed.

Lemma reads_head buffer p x w : reads buffer p (x :: w) -> char_at buffer p = Some x.
Proof. intros H. specialize (H 0%nat x eq_refl). now rewrite Z.add_0_r in H. Qed.

Lemma reads_tail buffer p x w : reads buffer p (x :: w) -> reads buffer (p + 1) w.
Proof.
  intros H i y Hy. specialize (H (S i) y Hy).
  replace (p + 1 + Z.of_nat i) with (p + Z.of_nat (S i)) by lia. exact H.
Qed.

Lemma reads_app buffer p w1 w2 :
  reads buffer p (w1 ++ w2) ->
  reads buffer p w1 /\ reads buffer (p + Z.of_nat (List.length w1)) w2.
Proof.
  intros H. split.
  - intros i x Hx. apply H. rewrite nth_error_app1; [exact Hx |].
    apply nth_error_Some. congruence.
  - intros i x Hx.
    replace (p + Z.of_nat (List.length w1) + Z.of_nat i)
      with (p + Z.of_nat (List.length w1 + i)) by lia.
    apply H. rewrite nth_error_app2 by lia.
    replace (List.length w1 + i - List.length w1)%nat with i by lia. exact Hx.
Qed.

Lemma reads_window buffer p w :
  0 <= p -> firstn (List.length w) (skipn (Z.to_nat p) buffer) = w -> reads buffer p w.
Proof.
  intros Hp E i x Hx. unfold char_at.
  destruct (Z.ltb_spec (p + Z.of_nat i) 0); [lia |].
  replace (Z.to_nat (p + Z.of_nat i)) with (Z.to_nat p + i)%nat by lia.
  rewrite <- (nth_error_skipn (Z.to_nat p) buffer i). rewrite <- E in Hx.
  assert (Hi : (i < List.length w)%nat).
  { apply nth_error_Some. rewrite <- E at 1. congruence. }
  now rewrite nth_error_firstn, (proj2 (Nat.ltb_lt _ _) Hi) in Hx.
Qed.

Section Execution.

Variable buffer : list rune.
Hypothesis Hbuf : well_formed_buffer buffer.

Lemma char_at_next p x :
  char_at buffer p = Some x -> x <> endSymbol ->
  0 <= p /\ p + 1 <= last_index buffer /\ u32 (p + 1) = p + 1.
Proof using Hbuf.
  intros Hp Hx. destruct Hbuf as [Hlast Hn]. unfold char_at in Hp.
  destruct (Z.ltb_spec p 0) as [| H0]; [discriminate |].
  assert (Hlt : (Z.to_nat p < List.length buffer)%nat) by (apply nth_error_Some; congruence).
  assert (Hne : p <> last_index buffer) by (intros ->; congruence).
  unfold last_index in *. repeat split; try lia.
  unfold u32. apply Z.mod_small. lia.
Qed.

Lemma chr_hit c s :
  char_at buffer (position s) = Some (rune_of c) ->
  chr buffer c s = Ok (set_position (position s + 1) s).
Proof using Hbuf.
  intros H. unfold chr, peek, advance. rewrite H, Z.eqb_refl. simpl.
  destruct (char_at_next _ _ H (rune_of_not_end c)) as (_ & _ & ->). reflexivity.
Qed.

Lemma chr_miss c s x :
  char_at buffer (position s) = Some x -> x <> rune_of c ->
  chr buffer c s = Fail (max s).
Proof.
  intros H Hx. unfold chr, peek. rewrite H.
  destruct (Z.eqb_spec x (rune_of c)); [contradiction | reflexivity].
Qed.

Lemma rng_hit lo hi s x :
  char_at buffer (position s) = Some x -> rune_of lo <= x <= rune_of hi ->
  rng buffer lo hi s = Ok (set_position (position s + 1) s).
Proof using Hbuf.
  intros H Hx. unfold rng, peek, advance. rewrite H.
  destruct (Z.ltb_spec x (rune_of lo)); [lia |].
  destruct (Z.ltb_spec (rune_of hi) x); [lia |]. simpl.
  assert (Hne : x <> endSymbol) by (pose proof (rune_of_bound hi); unfold endSymbol; lia).
  destruct (char_at_next _ _ H Hne) as (_ & _ & ->). reflexivity.
Qed.

Lemma rng_miss lo hi s x :
  char_at buffer (position s) = Some x -> x < rune_of lo \/ rune_of hi < x ->
  rng buffer lo hi s = Fail (max s).
Proof.
  intros H Hx. unfold rng, peek. rewrite H.
  destruct (Z.ltb_spec x (rune_of lo)); [reflexivity |].
  destruct (Z.ltb_spec (rune_of hi) x); [reflexivity | lia].
Qed.

Lemma dot_hit s x :
  char_at buffer (position s) = Some x -> x <> endSymbol ->
  matchDot buffer s = Ok (set_position (position s + 1) s).
Proof using Hbuf.
  intros H Hx. unfold matchDot, peek, advance. rewrite H.
  destruct (Z.eqb_spec x endSymbol); [contradiction |]. simpl.
  destruct (char_at_next _ _ H Hx) as (_ & _ & ->). reflexivity.
Qed.

Lemma dot_miss s :
  char_at buffer (position s) = Some endSymbol -> matchDot buffer s = Fail (max s).
Proof.
  intros H. unfold matchDot, peek. rewrite H. reflexivity.
Qed.

(** A literal that stands in the buffer is read. *)
Lemma lit_chars_hit cs : forall s,
  cs <> [] -> reads buffer (position s) (List.map rune_of cs) ->
  seqs (List.map (chr buffer) cs) s
  = Ok (set_position (position s + Z.of_nat (List.length cs)) s).
Proof using Hbuf.
  induction cs as [| c cs IH]; intros s Hne Hr; [contradiction |].
  simpl List.map in *. pose proof (reads_head _ _ _ _ Hr) as Hc.
  pose proof (reads_tail _ _ _ _ Hr) as Ht.
  destruct cs as [| c' cs].
  - simpl. rewrite (chr_hit c s Hc). reflexivity.
  - change (seqs (chr buffer c :: List.map (chr buffer) (c' :: cs)) s)
      with (seq (chr buffer c) (seqs (List.map (chr buffer) (c' :: cs))) s).
    unfold seq at 1. rewrite (chr_hit c s Hc).
    rewrite (IH (set_position (position s + 1) s)); [| discriminate | exact Ht].
    simpl position. f_equal. destruct s. unfold set_position. simpl. f_equal.
    change (List.length (c :: c' :: cs)) with (S (List.length (c' :: cs))). lia.
Qed.

Lemma lit_hit w s :
  w <> ""%string -> reads buffer (position s) (runes w) ->
  lit buffer w s = Ok (set_position (position s + Z.of_nat (String.length w)) s).
Proof using Hbuf.
  intros Hw Hr. unfold lit.
  assert (Hl : List.length (list_ascii_of_string w) = String.length w).
  { clear. induction w; simpl; congruence. }
  rewrite <- Hl. apply lit_chars_hit; [| exact Hr].
  destruct w; [contradiction | discriminate].
Qed.

(** The first rune at which a window and a literal differ, if the window
    is long enough to show one. *)
Fixpoint differs (window : list rune) (cs : list ascii) : bool :=
  match window, cs with
  | x :: window', c :: cs' => if x =? rune_of c then differs window' cs' else true
  | _, _ => false
  end.

Lemma lit_chars_miss cs : forall window s,
  differs window cs = true -> reads buffer (position s) window ->
  seqs (List.map (chr buffer) cs) s = Fail (max s).
Proof using Hbuf.
  induction cs as [| c cs IH]; intros window s Hd Hr.
  - destruct window; discriminate.
  - destruct window as [| x window]; [discriminate |]. simpl in Hd.
    pose proof (reads_head _ _ _ _ Hr) as Hc.
    pose proof (reads_tail _ _ _ _ Hr) as Ht.
    destruct (Z.eqb_spec x (rune_of c)) as [-> | Hne].
    + destruct cs as [| c' cs]; [destruct window; discriminate |].
      change (seqs (List.map (chr buffer) (c :: c' :: cs)) s)
        with (seq (chr buffer c) (seqs (List.map (chr buffer) (c' :: cs))) s).
      unfold seq at 1. rewrite (chr_hit c s Hc).
      rewrite (IH window (set_position (position s + 1) s) Hd Ht). reflexivity.
    + destruct cs as [| c' cs].
      * simpl. now apply chr_miss with x.
      * change (seqs (List.map (chr buffer) (c :: c' :: cs)) s)
          with (seq (chr buffer c) (seqs (List.map (chr buffer) (c' :: cs))) s).
        unfold seq at 1. now rewrite (chr_miss c s x Hc Hne).
Qed.

Lemma lit_miss w window s :
  differs window (list_ascii_of_string w) = true ->
  reads buffer (position s) window ->
  lit buffer w s = Fail (max s).
Proof using Hbuf.
  intros Hd Hr. unfold lit. now apply lit_chars_miss with window.
Qed.

Lemma rules_S fuel r s :
  rules buffer (S fuel) r s
  = production buffer (fun r' s' => rules buffer fuel r' s') r s.
Proof. reflexivity. Qed.

End Execution.


(** *** Tactics that run a rule on a known window *)

Lemma reads_nth buffer p w i x :
  reads buffer p w -> nth_error w i = Some x -> char_at buffer (p + Z.of_nat i) = Some x.
Proof. intros H. apply H. Qed.

Fixpoint is_prefix (w window : list rune) : bool :=
  match w, window with
  | [], _ => true
  | x :: w', y :: window' => (x =? y) && is_prefix w' window'
  | _ :: _, [] => false
  end.

Lemma reads_prefix buffer p w : forall window,
  is_prefix w window = true -> reads buffer p window -> reads buffer p w.
Proof.
  induction w as [| x w IH] in p |- *; intros window Hp Hr.
  - intros i y Hy. destruct i; discriminate.
  - destruct window as [| y window]; [discriminate |]. simpl in Hp.
    apply andb_true_iff in Hp as [Hx Hp]. apply Z.eqb_eq in Hx. subst y.
    intros i z Hz. destruct i as [| i].
    + simpl in Hz. injection Hz as <-. rewrite Z.add_0_r. now apply reads_head in Hr.
    + replace (p + Z.of_nat (S i)) with (p + 1 + Z.of_nat i) by lia.
      apply (IH (p + 1) window Hp); [now apply reads_tail in Hr | exact Hz].
Qed.

(** Sums of literals in positions, as in [p + 5 + 1]. *)
Ltac norm_pos :=
  repeat match goal with
    | |- context [?p + Zpos ?a + Zpos ?b] =>
        let c := eval vm_compute in (Zpos a + Zpos b) in
        replace (p + Zpos a + Zpos b) with (p + c) by lia
    | |- context [Z.of_nat (String.length ?w)] =>
        let c := eval vm_compute in (Z.of_nat (String.length w)) in
        change (Z.of_nat (String.length w)) with c
    end.

Ltac state_simpl :=
  unfold set_max, set_depth, set_position;
  cbn [position depth max tokenTree]; norm_pos.

(** The position of a state, with the setters computed away. *)
Ltac position_of s :=
  let p := eval cbv beta iota delta [set_max set_depth set_position add position] in (position s) in p.

(** One step: a rune literal, a range, the dot or a word literal whose
    outcome the hypotheses decide.  The well-formedness of the buffer is
    the hypothesis [Hbuf]. *)
Ltac peg_step Hbuf :=
  match goal with
  | |- context [chr ?b ?c ?s] =>
      let p := position_of s in
      match goal with
      | H : char_at b p = Some ?x |- _ =>
          first [ rewrite (chr_hit b Hbuf c s H)
                | rewrite (chr_miss b c s x H) by (norm_runes; first [assumption | lia | discriminate]) ]
      end
  | |- context [rng ?b ?lo ?hi ?s] =>
      let p := position_of s in
      match goal with
      | H : char_at b p = Some ?x |- _ =>
          first [ rewrite (rng_hit b Hbuf lo hi s x H) by (norm_runes; lia)
                | rewrite (rng_miss b lo hi s x H) by (norm_runes; lia) ]
      end
  | |- context [matchDot ?b ?s] =>
      let p := position_of s in
      match goal with
      | H : char_at b p = Some ?x |- _ =>
          first [ rewrite (dot_hit b Hbuf s x H) by (unfold endSymbol; first [assumption | lia | discriminate])
                | rewrite (dot_miss b s H) ]
      end
  | |- context [lit ?b ?w ?s] =>
      let p := position_of s in
      match goal with
      | H : reads b p ?window |- _ =>
          first [ rewrite (lit_miss b Hbuf w window s eq_refl H)
                | rewrite (lit_hit b Hbuf w s)
                    by (first [ discriminate
                              | exact (reads_prefix b p (runes w) window eq_refl H) ]) ]
      end
  | |- context [lit ?b ?w ?s] =>
      change (lit b w) with (seqs (List.map (chr b) (list_ascii_of_string w)));
      cbn [list_ascii_of_string List.map seqs]
  end.

(** Opens the frame of the rule that is called with at least one unit of
    fuel. *)
Ltac peg_open :=
  rewrite rules_S; cbv beta iota delta [production]; unfold rule;
  cbn [seqs alts]; unfold plus.

Ltac peg_run Hbuf :=
  repeat first [ progress state_simpl
               | peg_step Hbuf
               | progress (cbv beta iota delta [seq alt opt notp]) ].

(** The rune of a window at offset [i], as a hypothesis on [char_at]. *)
Ltac pose_char Hr i :=
  let H := fresh "Hc" in
  pose proof (reads_nth _ _ _ i _ Hr eq_refl) as H;
  (let v := eval vm_compute in (Z.of_nat i) in change (Z.of_nat i) with v in H);
  rewrite ?Z.add_0_r in H;
  norm_runes.


Lemma loop_fuel p n : forall m s,
  (n <= m)%nat -> loop n p s <> Abort OutOfFuel -> loop m p s = loop n p s.
Proof.
  induction n as [| n IH]; intros m s Hle H; [simpl in H; congruence |].
  destruct m as [| m]; [lia |]. simpl in *.
  destruct (p s) as [s' | x | a]; try reflexivity.
  apply IH; [lia | exact H].
Qed.

Lemma reads_length buffer p w :
  w <> [] -> reads buffer p w -> (List.length w <= List.length buffer)%nat.
Proof.
  intros Hw Hr. destruct w as [| y w]; [contradiction |].
  pose proof (reads_head _ _ _ _ Hr) as Hy. unfold char_at in Hy.
  destruct (Z.ltb_spec p 0) as [| Hp]; [discriminate |].
  destruct (nth_error (y :: w) (List.length w)) as [x |] eqn:E.
  - specialize (Hr _ _ E). unfold char_at in Hr.
    destruct (Z.ltb_spec (p + Z.of_nat (List.length w)) 0); [discriminate |].
    assert (Z.to_nat (p + Z.of_nat (List.length w)) < List.length buffer)%nat
      by (apply nth_error_Some; congruence).
    simpl. lia.
  - apply nth_error_None in E. simpl in E. lia.
Qed.

Lemma star_as_loop buffer n p s :
  (n <= S (List.length buffer))%nat -> loop n p s <> Abort OutOfFuel ->
  star buffer p s = loop n p s.
Proof. intros Hn H. unfold star. now apply loop_fuel. Qed.


(** A call that fails on its first runes without adding a token. *)
Ltac peg_reject Hbuf :=
  peg_open; peg_run Hbuf;
  repeat (match goal with
          | |- context [rules ?b (S ?f) ?r ?s] =>
              let H := fresh "Hrej" in
              assert (H : rules b (S f) r s = Fail (max s)) by (peg_reject Hbuf);
              rewrite H; clear H
          end; peg_run Hbuf);
  reflexivity.

Ltac peg_fail_call Hbuf :=
  match goal with
  | |- context [rules ?b (S ?f) ?r ?s] =>
      let H := fresh "Hrej" in
      assert (H : rules b (S f) r s = Fail (max s)) by (peg_reject Hbuf);
      rewrite H; clear H
  end.

Ltac peg_eval Hbuf :=
  repeat first [ progress (peg_run Hbuf) | peg_fail_call Hbuf ].

(** A loop whose rounds the hypotheses decide: it is run with [k] rounds,
    which the buffer is long enough to allow. *)
Ltac peg_star Hbuf k Hlen :=
  match goal with
  | |- context [star ?b ?p ?s] =>
      let E := fresh "E" in
      eassert (E : loop k p s = _);
      [ cbn [loop]; peg_eval Hbuf; reflexivity
      | rewrite (star_as_loop b k p s Hlen ltac:(rewrite E; discriminate)), E; clear E ]
  end.

(** After [add]: the new [max] and the depth are named, what they are
    does not matter to the run. *)
Ltac peg_forget :=
  repeat match goal with
    | |- context [Build_state _ _ _ ?e] =>
        lazymatch e with
        | context [if _ then _ else _] =>
            let m := fresh "m" in set (m := e); clearbody m
        end
    | |- context [Build_state _ _ ?e _] =>
        lazymatch e with
        | context [u32 _] =>
            let d := fresh "d" in set (d := e); clearbody d
        end
    end.

Ltac peg_add Hbuf := unfold add; peg_run Hbuf; peg_forget.


(** *** [merge] followed by an opening parenthesis *)

(** The rule, begin and end of a token. *)
Definition span (t : token32) : pegRule * Z * Z := (tok_rule t, tok_begin t, tok_end t).

Section MergeCall.

Variable buffer : list rune.
Hypothesis Hbuf : well_formed_buffer buffer.

Lemma merge_window p :
  reads buffer p (runes "merge(") ->
  (7 <= S (List.length buffer))%nat
  /\ char_at buffer p = Some 109 /\ char_at buffer (p + 1) = Some 101
  /\ char_at buffer (p + 2) = Some 114 /\ char_at buffer (p + 3) = Some 103
  /\ char_at buffer (p + 4) = Some 101 /\ char_at buffer (p + 5) = Some 40.
Proof.
  intros Hr. split.
  - assert (Hne : runes "merge(" <> []) by (vm_compute; discriminate).
    pose proof (reads_length _ _ _ Hne Hr) as H.
    change (List.length (runes "merge(")) with 6%nat in H. lia.
  - pose_char Hr 0%nat. pose_char Hr 1%nat. pose_char Hr 2%nat. pose_char Hr 3%nat.
    pose_char Hr 4%nat. pose_char Hr 5%nat. tauto.
Qed.

Lemma SimpleMerge_rejects fuel p t d m :
  reads buffer p (runes "merge(") ->
  rules buffer (S fuel) ruleSimpleMerge
    {| position := p; tokenTree := t; depth := d; max := m |} = Fail m.
Proof using Hbuf.
  intros Hr. destruct (merge_window p Hr) as (Hlen & H0 & H1 & H2 & H3 & H4 & H5).
  peg_reject Hbuf.
Qed.

Lemma RefMerge_rejects fuel p t d m :
  reads buffer p (runes "merge(") ->
  rules buffer (S (S fuel)) ruleRefMerge
    {| position := p; tokenTree := t; depth := d; max := m |} = Fail m.
Proof using Hbuf.
  intros Hr. destruct (merge_window p Hr) as (Hlen & H0 & H1 & H2 & H3 & H4 & H5).
  peg_reject Hbuf.
Qed.

Lemma Merge_rejects fuel p t d m :
  reads buffer p (runes "merge(") ->
  rules buffer (S (S (S fuel))) ruleMerge
    {| position := p; tokenTree := t; depth := d; max := m |} = Fail m.
Proof using Hbuf.
  intros Hr. destruct (merge_window p Hr) as (Hlen & H0 & H1 & H2 & H3 & H4 & H5).
  peg_reject Hbuf.
Qed.

Lemma Reference_merge fuel p t d m :
  reads buffer p (runes "merge(") ->
  exists s',
    rules buffer (S (S (S (S (S fuel))))) ruleReference
      {| position := p; tokenTree := t; depth := d; max := m |} = Ok s'
    /\ position s' = p + 5
    /\ List.map span (tokenTree s')
       = List.map span t
         ++ [(ruleKey, p, p + 5); (ruleFollowUpRef, p + 5, p + 5); (ruleReference, p, p + 5)].
Proof using Hbuf.
  intros Hr. destruct (merge_window p Hr) as (Hlen & H0 & H1 & H2 & H3 & H4 & H5).
  peg_open. peg_run Hbuf. peg_forget.
  (* TagPrefix, Tag and TagComponent read the word and find no [::] *)
  peg_open. peg_run Hbuf. peg_forget. peg_open. peg_run Hbuf. peg_forget.
  peg_open. peg_run Hbuf. peg_forget.
  peg_star Hbuf 7%nat Hlen. peg_add Hbuf.
  peg_star Hbuf 7%nat Hlen. peg_add Hbuf.
  (* Key *)
  peg_open. peg_run Hbuf. peg_forget. peg_star Hbuf 7%nat Hlen. peg_add Hbuf.
  (* FollowUpRef *)
  peg_open. peg_run Hbuf. peg_forget.
  peg_star Hbuf 7%nat Hlen. peg_add Hbuf. peg_add Hbuf.
  eexists. split; [reflexivity |]. split; [reflexivity |].
  cbn [tokenTree]. rewrite !map_app, <- !app_assoc. reflexivity.
Qed.

(** On such an input [Level0] is [Chained], and [Chained] starts with the
    reference: every other alternative fails. *)
Lemma Level0_merge fuel p t d m :
  reads buffer p (runes "merge(") ->
  rules buffer (S (S (S (S (S (S (S fuel))))))) ruleLevel0
    {| position := p; tokenTree := t; depth := d; max := m |}
  = rule ruleLevel0
      (rule ruleChained
         (seq (fun s => rules buffer (S (S (S (S (S fuel))))) ruleReference s)
              (star buffer
                 (fun s => rules buffer (S (S (S (S (S fuel)))))
                             ruleChainedQualifiedExpression s))))
      {| position := p; tokenTree := t; depth := d; max := m |}.
Proof using Hbuf.
  intros Hr. destruct (merge_window p Hr) as (Hlen & H0 & H1 & H2 & H3 & H4 & H5).
  peg_open. peg_eval Hbuf.
  rewrite rules_S. cbv beta iota delta [production]. unfold rule. cbn [seqs alts].
  peg_eval Hbuf.
  destruct (Reference_merge fuel p t (u32 (u32 (d + 1) + 1)) m Hr) as (s' & E & _).
  rewrite E. reflexivity.
Qed.

(** What follows the reference, at the parenthesis, is a call or nothing. *)
Lemma Qualified_at_parenthesis fuel p t d m :
  char_at buffer p = Some 40 ->
  rules buffer (S (S (S (S (S fuel))))) ruleChainedQualifiedExpression
    {| position := p; tokenTree := t; depth := d; max := m |}
  = rule ruleChainedQualifiedExpression
      (fun s => rules buffer (S (S (S (S fuel)))) ruleChainedCall s)
      {| position := p; tokenTree := t; depth := d; max := m |}.
Proof using Hbuf.
  intros H0. peg_open. peg_run Hbuf.
  destruct (rules buffer (S (S (S (S fuel)))) ruleChainedCall _) as [s' | m' | a]; try reflexivity.
  peg_eval Hbuf. reflexivity.
Qed.

End MergeCall.


(** *** String literals *)

Definition quote : rune := 34.
Definition backslash : rune := 92.

(** The interior of a literal as the production reads it: a backslash
    directly followed by a quote is one item, every other rune but the
    quote is an item of its own.  [closes body] says that the items end
    with [body]: no quote stands alone, and no backslash ends the body
    (it would take the closing quote with it). *)
Fixpoint closes (body : list rune) : bool :=
  match body with
  | [] => true
  | c :: rest =>
      if c =? backslash then
        match rest with
        | [] => false
        | c' :: rest' => if c' =? quote then closes rest' else closes rest
        end
      else if c =? quote then false
      else negb (c =? endSymbol) && closes rest
  end.

(** The interior of a plain literal in the words of the specification: the
    escapes of a quote, of a backslash, of [n] and of [t] (a backslash and
    the rune), and unescaped runes that are neither a quote nor a
    backslash. *)
Fixpoint spec_body (body : list rune) : bool :=
  match body with
  | [] => true
  | c :: rest =>
      if c =? backslash then
        match rest with
        | [] => false
        | c' :: rest' =>
            ((c' =? quote) || (c' =? backslash) || (c' =? rune_of "n")
             || (c' =? rune_of "t")) && spec_body rest'
        end
      else negb (c =? quote) && negb (c =? endSymbol) && spec_body rest
  end.

(** The last rune of the interior is a backslash. *)
Definition ends_in_backslash (body : list rune) : bool :=
  match List.rev body with
  | c :: _ => c =? backslash
  | [] => false
  end.

Lemma pair_induction (P : list rune -> Prop) :
  P [] -> (forall a, P [a]) -> (forall a b l, P l -> P (b :: l) -> P (a :: b :: l)) ->
  forall l, P l.
Proof.
  intros H0 H1 H2 l.
  enough (H : P l /\ forall a, P (a :: l)) by apply H.
  induction l as [| b l [IH0 IH1]]; [auto |].
  split; [apply IH1 |]. intros a. apply H2; [exact IH0 | apply IH1].
Qed.

Lemma ends_in_backslash_cons a b l :
  ends_in_backslash (a :: b :: l) = ends_in_backslash (b :: l).
Proof.
  unfold ends_in_backslash. simpl.
  destruct (rev l ++ [b]) as [| c r] eqn:E; [destruct (rev l); discriminate |].
  reflexivity.
Qed.

Lemma closes_pair l : closes (backslash :: quote :: l) = closes l.
Proof. reflexivity. Qed.

Lemma closes_backslash c l : c <> quote -> closes (backslash :: c :: l) = closes (c :: l).
Proof.
  intros Hc. cbn [closes]. change (backslash =? backslash) with true. cbn iota.
  destruct (Z.eqb_spec c quote); [contradiction | reflexivity].
Qed.

Lemma closes_plain c l :
  c <> backslash -> c <> quote -> c <> endSymbol -> closes (c :: l) = closes l.
Proof.
  intros Hb Hq He. cbn [closes].
  destruct (Z.eqb_spec c backslash); [contradiction |].
  destruct (Z.eqb_spec c quote); [contradiction |].
  destruct (Z.eqb_spec c endSymbol); [contradiction | reflexivity].
Qed.

(** Interiors in the words of the specification close, unless they end in
    the escape of a backslash. *)
Lemma spec_body_closes body :
  spec_body body = true -> ends_in_backslash body = false -> closes body = true.
Proof.
  induction body as [| a | a b l IH0 IH1] using pair_induction; intros Hs He.
  - reflexivity.
  - unfold ends_in_backslash in He. simpl in He. cbn [spec_body] in Hs. rewrite He in Hs.
    apply andb_true_iff in Hs as [Hs _]. apply andb_true_iff in Hs as [Hq Hend].
    apply negb_true_iff, Z.eqb_neq in Hq, Hend. apply Z.eqb_neq in He.
    now rewrite closes_plain.
  - rewrite ends_in_backslash_cons in He. cbn [spec_body] in Hs.
    destruct (Z.eqb_spec a backslash) as [-> | Ha].
    + apply andb_true_iff in Hs as [Hb Hl].
      assert (Hl' : ends_in_backslash l = false \/ l = []).
      { destruct l as [| c l]; [now right | left]. now rewrite ends_in_backslash_cons in He. }
      destruct (Z.eqb_spec b quote) as [-> | Hq].
      * rewrite closes_pair. destruct Hl' as [Hl' | ->]; [now apply IH0 | reflexivity].
      * rewrite closes_backslash by exact Hq.
        destruct (Z.eqb_spec b backslash) as [-> | Hbs].
        -- destruct l as [| c l]; [discriminate He |].
           destruct Hl' as [Hl' | Hl']; [| discriminate].
           destruct (Z.eqb_spec c quote) as [-> | Hcq].
           ++ cbn [spec_body] in Hl. change (quote =? backslash) with false in Hl.
              change (quote =? quote) with true in Hl. discriminate Hl.
           ++ rewrite closes_backslash by exact Hcq. now apply IH0.
        -- assert (Hb' : b = rune_of "n" \/ b = rune_of "t").
           { destruct (Z.eqb_spec b (rune_of "n")); [now left |].
             destruct (Z.eqb_spec b (rune_of "t")); [now right |].
             destruct (Z.eqb_spec b quote); [contradiction |].
             destruct (Z.eqb_spec b backslash); [contradiction | discriminate Hb]. }
           rewrite closes_plain; [| exact Hbs | exact Hq | destruct Hb' as [-> | ->]; discriminate].
           destruct Hl' as [Hl' | ->]; [now apply IH0 | reflexivity].
    + apply andb_true_iff in Hs as [Ha' Hl]. apply andb_true_iff in Ha' as [Hq Hend].
      apply negb_true_iff, Z.eqb_neq in Hq, Hend.
      rewrite closes_plain by assumption. now apply IH1.
Qed.

Section StringLiteral.

Variable buffer : list rune.
Hypothesis Hbuf : well_formed_buffer buffer.

(** The item of the loop of [String]. *)
Definition string_item : parser :=
  alt (seq (chr buffer "\") (chr buffer "034"))
      (seq (notp (chr buffer "034")) (matchDot buffer)).

Lemma string_item_pair p t d m :
  char_at buffer p = Some backslash -> char_at buffer (p + 1) = Some quote ->
  string_item {| position := p; tokenTree := t; depth := d; max := m |}
  = Ok {| position := p + 2; tokenTree := t; depth := d; max := m |}.
Proof using Hbuf.
  unfold backslash, quote. intros H0 H1. unfold string_item. peg_run Hbuf. reflexivity.
Qed.

Lemma string_item_backslash p t d m c :
  char_at buffer p = Some backslash -> char_at buffer (p + 1) = Some c -> c <> quote ->
  string_item {| position := p; tokenTree := t; depth := d; max := m |}
  = Ok {| position := p + 1; tokenTree := t; depth := d; max := m |}.
Proof using Hbuf.
  unfold backslash, quote. intros H0 H1 Hc. unfold string_item. peg_run Hbuf. reflexivity.
Qed.

Lemma string_item_plain p t d m c :
  char_at buffer p = Some c -> c <> backslash -> c <> quote -> c <> endSymbol ->
  string_item {| position := p; tokenTree := t; depth := d; max := m |}
  = Ok {| position := p + 1; tokenTree := t; depth := d; max := m |}.
Proof using Hbuf.
  unfold backslash, quote. intros H0 Hb Hq He. unfold string_item. peg_run Hbuf. reflexivity.
Qed.

Lemma string_item_quote p t d m :
  char_at buffer p = Some quote ->
  string_item {| position := p; tokenTree := t; depth := d; max := m |} = Fail m.
Proof using Hbuf.
  unfold quote. intros H0. unfold string_item. peg_run Hbuf. reflexivity.
Qed.

Lemma string_items k : forall body n p t d m,
  (List.length body <= k)%nat -> (List.length body < n)%nat ->
  closes body = true -> reads buffer p (body ++ [quote]) ->
  loop n string_item {| position := p; tokenTree := t; depth := d; max := m |}
  = Ok {| position := p + Z.of_nat (List.length body); tokenTree := t; depth := d; max := m |}.
Proof using Hbuf.
  induction k as [| k IH]; intros body n p t d m Hk Hn Hc Hr.
  - destruct body; [| simpl in Hk; lia]. destruct n; [simpl in Hn; lia |].
    simpl. rewrite string_item_quote by (now apply reads_head in Hr).
    unfold set_max. simpl. now rewrite Z.add_0_r.
  - destruct body as [| c rest].
    + destruct n; [simpl in Hn; lia |].
      simpl. rewrite string_item_quote by (now apply reads_head in Hr).
      unfold set_max. simpl. now rewrite Z.add_0_r.
    + destruct n as [| n]; [simpl in Hn; lia |].
      pose proof (reads_head _ _ _ _ Hr) as H0. pose proof (reads_tail _ _ _ _ Hr) as Ht.
      cbn [closes] in Hc. cbn [loop].
      destruct (Z.eqb_spec c backslash) as [-> | Hb].
      * destruct rest as [| c' rest']; [discriminate |].
        pose proof (reads_head _ _ _ _ Ht) as H1. pose proof (reads_tail _ _ _ _ Ht) as Ht'.
        destruct (Z.eqb_spec c' quote) as [-> | Hq].
        -- rewrite string_item_pair by assumption.
           rewrite (IH rest' n (p + 2)); [| simpl in Hk; lia | simpl in Hn; lia | exact Hc |].
           ++ do 2 f_equal. simpl List.length. lia.
           ++ replace (p + 2) with (p + 1 + 1) by lia. exact Ht'.
        -- rewrite (string_item_backslash p t d m c') by assumption.
           rewrite (IH (c' :: rest') n (p + 1)); [| simpl in *; lia | simpl in *; lia | exact Hc | exact Ht].
           do 2 f_equal. simpl List.length. lia.
      * destruct (Z.eqb_spec c quote) as [-> | Hq]; [discriminate |].
        apply andb_true_iff in Hc as [He Hc]. apply negb_true_iff, Z.eqb_neq in He.
        rewrite (string_item_plain p t d m c) by assumption.
        rewrite (IH rest n (p + 1)); [| simpl in *; lia | simpl in *; lia | exact Hc | exact Ht].
        do 2 f_equal. simpl List.length. lia.
Qed.

(** The production reads a literal whose interior closes, up to and with
    its closing quote, and adds the token of the literal. *)
Lemma String_accepts fuel body p t d m :
  closes body = true -> reads buffer p (quote :: body ++ [quote]) ->
  exists d' m',
    rules buffer (S fuel) ruleString
      {| position := p; tokenTree := t; depth := d; max := m |}
    = Ok {| position := p + Z.of_nat (List.length body) + 2;
            tokenTree := t ++ [{| tok_rule := ruleString; tok_begin := p;
                                  tok_end := p + Z.of_nat (List.length body) + 2;
                                  tok_next := d' |}];
            depth := d'; max := m' |}.
Proof using Hbuf.
  intros Hc Hr.
  pose proof (reads_head _ _ _ _ Hr) as H0. pose proof (reads_tail _ _ _ _ Hr) as Ht.
  assert (Hlen : (List.length body + 2 <= List.length buffer)%nat).
  { pose proof (reads_length buffer p (quote :: body ++ [quote]) ltac:(discriminate) Hr) as H.
    simpl in H. rewrite length_app in H. simpl in H. lia. }
  destruct (reads_app _ _ _ _ Ht) as [_ Hq]. apply reads_head in Hq.
  unfold quote in H0, Hq.
  peg_open. peg_run Hbuf.
  change (alt _ _) with string_item.
  unfold star. rewrite (string_items (List.length body) body); [| lia | lia | exact Hc | exact Ht].
  replace (p + 1 + Z.of_nat (List.length body)) with (p + Z.of_nat (List.length body) + 1) in * by lia.
  peg_run Hbuf. unfold add. state_simpl.
  replace (p + Z.of_nat (List.length body) + 1 + 1) with (p + Z.of_nat (List.length body) + 2) by lia.
  eexists _, _. reflexivity.
Qed.

End StringLiteral.


(** C4, as it holds.  A literal between double quotes whose interior is made
    of the escapes of a quote, of a backslash, of n and of t and of runes
    that are neither a quote nor a backslash is read by String up to and
    with its closing quote, provided the interior does not end in a
    backslash: the production knows the escape of a quote only, and a
    backslash before the closing quote takes that quote with it. *)
Theorem String_reads_plain_literal buffer fuel body p t d m
  (Hbuf : well_formed_buffer buffer)
  (Hbody : spec_body body = true)
  (Hlast : ends_in_backslash body = false)
  (Hr : reads buffer p (quote :: body ++ [quote])) :
  exists d' m',
    rules buffer (S fuel) ruleString
      {| position := p; tokenTree := t; depth := d; max := m |}
    = Ok {| position := p + Z.of_nat (List.length body) + 2;
            tokenTree := t ++ [{| tok_rule := ruleString; tok_begin := p;
                                  tok_end := p + Z.of_nat (List.length body) + 2;
                                  tok_next := d' |}];
            depth := d'; max := m' |}.
Proof.
  apply String_accepts; [exact Hbuf | | exact Hr]. now apply spec_body_closes.
Qed.

Lemma String_reads_plain_literal_witness :
  let body := [97; backslash; quote; 98; backslash; backslash; backslash; rune_of "n"; 99] in
  let buffer := Init (quote :: body ++ [quote]) in
  exists d' m',
    rules buffer 1 ruleString initial
    = Ok {| position := 11;
            tokenTree := [{| tok_rule := ruleString; tok_begin := 0; tok_end := 11;
                             tok_next := d' |}];
            depth := d'; max := m' |}.
Proof.
  intros body buffer.
  assert (Hbuf : well_formed_buffer buffer) by (apply Init_well_formed; vm_compute; reflexivity).
  assert (Hr : reads buffer 0 (quote :: body ++ [quote]))
    by (apply reads_window; [lia | reflexivity]).
  exact (String_reads_plain_literal buffer 0 body 0 [] 0 zeroToken Hbuf eq_refl eq_refl Hr).
Defined.

(** The literal whose interior is the escape of a backslash and nothing
    else: the interior is made of the escapes of the specification, and
    String fails on it, with any amount of fuel. *)
Lemma String_rejects_escaped_backslash :
  let body := [backslash; backslash] in
  let buffer := Init (quote :: body ++ [quote]) in
  well_formed_buffer buffer
  /\ spec_body body = true
  /\ reads buffer 0 (quote :: body ++ [quote])
  /\ rules buffer 1 ruleString initial = Fail zeroToken
  /\ (forall fuel s', rules buffer fuel ruleString initial <> Ok s')
  /\ (exists e, Parse 100 (quote :: body ++ [quote]) = ParseError e).
Proof.
  intros body buffer.
  split; [apply Init_well_formed; vm_compute; reflexivity |].
  split; [reflexivity |]. split; [apply reads_window; [lia | reflexivity] |].
  split; [vm_compute; reflexivity |]. split.
  - apply (never_matches buffer 1 ruleString initial zeroToken). vm_compute. reflexivity.
  - eexists. vm_compute. reflexivity.
Qed.


(** *** Loops over a class of runes *)

Section Classes.

Variable buffer : list rune.
Hypothesis Hbuf : well_formed_buffer buffer.

(** [q] reads one rune of the class [P] and fails on any other rune. *)
Definition is_class (P : rune -> bool) (q : parser) : Prop :=
  P endSymbol = false
  /\ forall p t d m x, char_at buffer p = Some x ->
       q {| position := p; tokenTree := t; depth := d; max := m |}
       = if P x then Ok {| position := p + 1; tokenTree := t; depth := d; max := m |}
         else Fail m.

Definition in_rng (lo hi : ascii) (x : rune) : bool := (rune_of lo <=? x) && (x <=? rune_of hi).
Definition is_chr (c : ascii) (x : rune) : bool := x =? rune_of c.

Lemma class_rng lo hi : is_class (in_rng lo hi) (rng buffer lo hi).
Proof using Hbuf.
  split.
  - unfold in_rng. pose proof (rune_of_bound hi). unfold endSymbol.
    apply andb_false_iff. right. lia.
  - intros p t d m x Hx. unfold in_rng.
    destruct (Z.leb_spec (rune_of lo) x); destruct (Z.leb_spec x (rune_of hi)); simpl.
    + rewrite (rng_hit buffer Hbuf lo hi (Build_state p t d m) x Hx) by lia. reflexivity.
    + rewrite (rng_miss buffer lo hi (Build_state p t d m) x Hx) by lia. reflexivity.
    + rewrite (rng_miss buffer lo hi (Build_state p t d m) x Hx) by lia. reflexivity.
    + rewrite (rng_miss buffer lo hi (Build_state p t d m) x Hx) by lia. reflexivity.
Qed.

Lemma class_chr c : is_class (is_chr c) (chr buffer c).
Proof using Hbuf.
  split.
  - unfold is_chr. apply Z.eqb_neq. intros H. symmetry in H. now apply rune_of_not_end in H.
  - intros p t d m x Hx. unfold is_chr. destruct (Z.eqb_spec x (rune_of c)) as [-> | Hne].
    + rewrite (chr_hit buffer Hbuf c (Build_state p t d m) Hx). reflexivity.
    + rewrite (chr_miss buffer c (Build_state p t d m) x Hx Hne). reflexivity.
Qed.

Lemma class_alt P1 P2 q1 q2 :
  is_class P1 q1 -> is_class P2 q2 -> is_class (fun x => P1 x || P2 x) (alt q1 q2).
Proof.
  intros [E1 H1] [E2 H2]. split; [now rewrite E1, E2 |].
  intros p t d m x Hx. unfold alt. rewrite (H1 p t d m x Hx).
  destruct (P1 x); [reflexivity |]. unfold set_max. simpl. now rewrite (H2 p t d m x Hx).
Qed.

Lemma char_at_some p :
  0 <= p <= last_index buffer -> exists x, char_at buffer p = Some x.
Proof.
  intros Hp. unfold char_at. destruct (Z.ltb_spec p 0); [lia |].
  destruct (nth_error buffer (Z.to_nat p)) eqn:E; [eauto |].
  apply nth_error_None in E. unfold last_index in Hp. lia.
Qed.

(** The loop reads the runes of the class and stops at the first rune
    outside of it. *)
Lemma loop_class P q : is_class P q ->
  forall w n p t d m x,
    forallb P w = true -> reads buffer p w ->
    char_at buffer (p + Z.of_nat (List.length w)) = Some x -> P x = false ->
    (List.length w < n)%nat ->
    loop n q {| position := p; tokenTree := t; depth := d; max := m |}
    = Ok {| position := p + Z.of_nat (List.length w); tokenTree := t; depth := d; max := m |}.
Proof.
  intros [_ Hq]. induction w as [| c w IH]; intros n p t d m x Hw Hr Hx HP Hn.
  - destruct n; [simpl in Hn; lia |]. simpl in *. rewrite Z.add_0_r in *.
    rewrite (Hq p t d m x Hx), HP. reflexivity.
  - destruct n; [simpl in Hn; lia |]. simpl in Hw. apply andb_true_iff in Hw as [Hc Hw].
    cbn [loop]. rewrite (Hq p t d m c (reads_head _ _ _ _ Hr)), Hc.
    rewrite (IH n (p + 1) t d m x Hw (reads_tail _ _ _ _ Hr)).
    + do 2 f_equal. simpl List.length. lia.
    + replace (p + 1 + Z.of_nat (List.length w))
        with (p + Z.of_nat (List.length (c :: w))) by (simpl List.length; lia). exact Hx.
    + exact HP.
    + simpl in Hn. lia.
Qed.


(** The classes of the grammar. *)
Definition digit (x : rune) : bool := in_rng "0" "9" x.
Definition tag_start (x : rune) : bool := in_rng "a" "z" x || (in_rng "A" "Z" x || is_chr "_" x).
Definition tag_char (x : rune) : bool :=
  in_rng "a" "z" x || (in_rng "A" "Z" x || (in_rng "0" "9" x || is_chr "_" x)).
Definition key_start (x : rune) : bool := tag_char x.
Definition key_char (x : rune) : bool :=
  in_rng "a" "z" x || (in_rng "A" "Z" x || (in_rng "0" "9" x || (is_chr "_" x || is_chr "-" x))).

Lemma class_digit : is_class digit (rng buffer "0" "9").
Proof using Hbuf. apply class_rng. Qed.

Lemma class_tag_start :
  is_class tag_start (alts [rng buffer "a" "z"; rng buffer "A" "Z"; chr buffer "_"]).
Proof using Hbuf.
  cbn [alts]. repeat apply class_alt; first [apply class_rng | apply class_chr].
Qed.

Lemma class_tag_char :
  is_class tag_char
    (alts [rng buffer "a" "z"; rng buffer "A" "Z"; rng buffer "0" "9"; chr buffer "_"]).
Proof using Hbuf.
  cbn [alts]. repeat apply class_alt; first [apply class_rng | apply class_chr].
Qed.


End Classes.


(** *** What a parser reads, whatever the tokens and the depth *)

Section Accept.

Variable buffer : list rune.
Hypothesis Hbuf : well_formed_buffer buffer.

(** From position [p] the parser succeeds and stands at [p']. *)
Definition accepts (q : parser) (p p' : Z) : Prop :=
  forall t d m, exists t' d' m',
    q {| position := p; tokenTree := t; depth := d; max := m |}
    = Ok {| position := p'; tokenTree := t'; depth := d'; max := m' |}.

(** At position [p] the parser fails. *)
Definition rejects (q : parser) (p : Z) : Prop :=
  forall t d m, exists m',
    q {| position := p; tokenTree := t; depth := d; max := m |} = Fail m'.

Lemma accepts_class P q p x :
  is_class buffer P q -> char_at buffer p = Some x -> P x = true -> accepts q p (p + 1).
Proof.
  intros [_ Hq] Hx HP t d m. rewrite (Hq p t d m x Hx), HP. eauto.
Qed.

Lemma rejects_class P q p x :
  is_class buffer P q -> char_at buffer p = Some x -> P x = false -> rejects q p.
Proof.
  intros [_ Hq] Hx HP t d m. rewrite (Hq p t d m x Hx), HP. eauto.
Qed.



Lemma accepts_seq q1 q2 p p1 p2 :
  accepts q1 p p1 -> accepts q2 p1 p2 -> accepts (seq q1 q2) p p2.
Proof.
  intros H1 H2 t d m. unfold seq. destruct (H1 t d m) as (t1 & d1 & m1 & ->).
  apply H2.
Qed.

Lemma rejects_seq_l q1 q2 p : rejects q1 p -> rejects (seq q1 q2) p.
Proof. intros H1 t d m. unfold seq. destruct (H1 t d m) as (m1 & ->). eauto. Qed.

Lemma rejects_seq_r q1 q2 p p1 :
  accepts q1 p p1 -> rejects q2 p1 -> rejects (seq q1 q2) p.
Proof.
  intros H1 H2 t d m. unfold seq. destruct (H1 t d m) as (t1 & d1 & m1 & ->).
  apply H2.
Qed.


Lemma accepts_alt_r q1 q2 p p' :
  rejects q1 p -> accepts q2 p p' -> accepts (alt q1 q2) p p'.
Proof.
  intros H1 H2 t d m. unfold alt. destruct (H1 t d m) as (m1 & ->). apply H2.
Qed.




Lemma accepts_rule r q p p' : accepts q p p' -> accepts (rule r q) p p'.
Proof.
  intros H1 t d m. unfold rule, set_depth. simpl.
  destruct (H1 t (u32 (d + 1)) m) as (t1 & d1 & m1 & ->).
  unfold add, set_max. simpl. eauto.
Qed.

Lemma rejects_rule r q p : rejects q p -> rejects (rule r q) p.
Proof.
  intros H1 t d m. unfold rule, set_depth. simpl.
  destruct (H1 t (u32 (d + 1)) m) as (m1 & ->). eauto.
Qed.

Lemma accepts_loop_stop n q p : rejects q p -> accepts (loop (S n) q) p p.
Proof.
  intros H1 t d m. cbn [loop]. destruct (H1 t d m) as (m1 & ->). unfold set_max. simpl. eauto.
Qed.

Lemma accepts_loop_round n q p p1 p2 :
  accepts q p p1 -> accepts (loop n q) p1 p2 -> accepts (loop (S n) q) p p2.
Proof.
  intros H1 H2 t d m. cbn [loop]. destruct (H1 t d m) as (t1 & d1 & m1 & ->). apply H2.
Qed.

Lemma accepts_star n q p p' :
  (n <= S (List.length buffer))%nat -> accepts (loop n q) p p' -> accepts (star buffer q) p p'.
Proof.
  intros Hn H1 t d m. destruct (H1 t d m) as (t1 & d1 & m1 & E).
  rewrite (star_as_loop buffer n q _ Hn) by (rewrite E; discriminate). eauto.
Qed.

Lemma accepts_star_class P q w p x :
  is_class buffer P q -> forallb P w = true -> reads buffer p w ->
  char_at buffer (p + Z.of_nat (List.length w)) = Some x -> P x = false ->
  accepts (star buffer q) p (p + Z.of_nat (List.length w)).
Proof.
  intros Hq Hw Hr Hx HP. apply (accepts_star (S (List.length w))).
  - destruct w as [| c w]; [simpl; lia |].
    pose proof (reads_length buffer p (c :: w) ltac:(discriminate) Hr). lia.
  - intros t d m. rewrite (loop_class buffer P q Hq w _ p t d m x Hw Hr Hx HP) by lia. eauto.
Qed.

Lemma accepts_more_fuel fuel fuel' r p p' :
  (fuel <= fuel')%nat -> accepts (rules buffer fuel r) p p' -> accepts (rules buffer fuel' r) p p'.
Proof.
  intros Hle H1 t d m. destruct (H1 t d m) as (t1 & d1 & m1 & E).
  rewrite (rules_more_fuel buffer fuel fuel' r _ Hle) by (rewrite E; discriminate). eauto.
Qed.

(** Some run of the parser from [p] succeeds and stands at [p']. *)
Definition accepted (q : parser) (p p' : Z) : Prop :=
  exists t d m t' d' m',
    q {| position := p; tokenTree := t; depth := d; max := m |}
    = Ok {| position := p'; tokenTree := t'; depth := d'; max := m' |}.

Lemma accepted_seq q1 q2 p p' :
  accepted (seq q1 q2) p p' -> exists p1, accepted q1 p p1 /\ accepted q2 p1 p'.
Proof.
  intros (t & d & m & t' & d' & m' & E). unfold seq in E.
  destruct (q1 _) as [[p1 t1 d1 m1] | |] eqn:E1; try discriminate.
  exists p1. split; repeat eexists; eassumption.
Qed.


Lemma accepted_opt q p p' : accepted (opt q) p p' -> accepted q p p' \/ p' = p.
Proof.
  intros (t & d & m & t' & d' & m' & E). unfold opt in E.
  destruct (q _) as [s1 | m1 |] eqn:E1; try discriminate.
  - injection E as ->. left. repeat eexists; eassumption.
  - right. unfold set_max in E. simpl in E. now injection E.
Qed.

Lemma accepted_rule r q p p' : accepted (rule r q) p p' -> accepted q p p'.
Proof.
  intros (t & d & m & t' & d' & m' & E). unfold rule, set_depth in E. simpl in E.
  destruct (q _) as [[p1 t1 d1 m1] | |] eqn:E1; try discriminate.
  unfold add, set_max in E. simpl in E. injection E as -> _ _ _.
  repeat eexists; eassumption.
Qed.

Lemma accepted_class P q p p' :
  is_class buffer P q -> 0 <= p <= last_index buffer -> accepted q p p' ->
  exists x, char_at buffer p = Some x /\ P x = true /\ p' = p + 1
            /\ p + 1 <= last_index buffer.
Proof using Hbuf.
  intros [HE Hq] Hp (t & d & m & t' & d' & m' & E).
  destruct (char_at_some buffer p Hp) as [x Hx]. rewrite (Hq p t d m x Hx) in E.
  destruct (P x) eqn:HP; [| discriminate]. injection E as <- _ _ _.
  exists x. repeat split; try assumption.
  assert (Hne : x <> endSymbol) by (intros ->; congruence).
  now destruct (char_at_next buffer Hbuf p x Hx Hne) as (_ & ? & _).
Qed.

Lemma accepted_chr c p p' :
  0 <= p <= last_index buffer -> accepted (chr buffer c) p p' ->
  char_at buffer p = Some (rune_of c) /\ p' = p + 1 /\ p + 1 <= last_index buffer.
Proof using Hbuf.
  intros Hp H. destruct (accepted_class _ _ _ _ (class_chr buffer Hbuf c) Hp H)
    as (x & Hx & HP & -> & Hle).
  unfold is_chr in HP. apply Z.eqb_eq in HP. subst x. auto.
Qed.


Lemma accepted_rules fuel r p p' :
  accepted (rules buffer fuel r) p p' ->
  exists fuel', fuel = S fuel'
    /\ accepted (production buffer (fun r' s' => rules buffer fuel' r' s') r) p p'.
Proof.
  intros H. destruct fuel as [| fuel'].
  - destruct H as (t & d & m & t' & d' & m' & E). discriminate.
  - exists fuel'. split; [reflexivity | exact H].
Qed.

Lemma accepts_accepted q p p' : accepts q p p' -> accepted q p p'.
Proof.
  intros H. destruct (H [] 0 zeroToken) as (t' & d' & m' & E). repeat eexists. exact E.
Qed.

(** A parser without calls either stands at a later position or fails, and
    leaves the tokens, the depth and [max] as they are. *)
Definition lexical (q : parser) (p : Z) : Prop :=
  (exists p', p <= p' <= last_index buffer
     /\ forall t d m, q {| position := p; tokenTree := t; depth := d; max := m |}
                      = Ok {| position := p'; tokenTree := t; depth := d; max := m |})
  \/ (forall t d m, q {| position := p; tokenTree := t; depth := d; max := m |} = Fail m).

Lemma lexical_cases q p : lexical q p -> rejects q p \/ exists p', accepts q p p'.
Proof.
  intros [(p' & _ & H) | H].
  - right. exists p'. intros t d m. rewrite H. eauto.
  - left. intros t d m. rewrite H. eauto.
Qed.

Lemma lexical_class P q p :
  is_class buffer P q -> 0 <= p <= last_index buffer -> lexical q p.
Proof using Hbuf.
  intros [HE Hq] Hp. destruct (char_at_some buffer p Hp) as [x Hx].
  destruct (P x) eqn:HP.
  - left. exists (p + 1). split.
    + assert (Hne : x <> endSymbol) by (intros ->; congruence).
      destruct (char_at_next buffer Hbuf p x Hx Hne) as (_ & ? & _). lia.
    + intros t d m. now rewrite (Hq p t d m x Hx), HP.
  - right. intros t d m. now rewrite (Hq p t d m x Hx), HP.
Qed.

Lemma lexical_seq q1 q2 p :
  lexical q1 p -> (forall p1, p <= p1 <= last_index buffer -> lexical q2 p1) ->
  lexical (seq q1 q2) p.
Proof.
  intros [(p1 & Hp1 & H1) | H1] H2.
  - destruct (H2 p1 Hp1) as [(p2 & Hp2 & H3) | H3].
    + left. exists p2. split; [lia |]. intros t d m. unfold seq. now rewrite H1, H3.
    + right. intros t d m. unfold seq. now rewrite H1, H3.
  - right. intros t d m. unfold seq. now rewrite H1.
Qed.

Lemma lexical_alt q1 q2 p : lexical q1 p -> lexical q2 p -> lexical (alt q1 q2) p.
Proof.
  intros [(p1 & Hp1 & H1) | H1] H2.
  - left. exists p1. split; [lia |]. intros t d m. unfold alt. now rewrite H1.
  - destruct H2 as [(p2 & Hp2 & H2) | H2].
    + left. exists p2. split; [lia |]. intros t d m. unfold alt, set_max. now rewrite H1, H2.
    + right. intros t d m. unfold alt, set_max. now rewrite H1, H2.
Qed.

Lemma lexical_opt q p : p <= last_index buffer -> lexical q p -> lexical (opt q) p.
Proof.
  intros Hp [(p1 & Hp1 & H1) | H1].
  - left. exists p1. split; [lia |]. intros t d m. unfold opt. now rewrite H1.
  - left. exists p. split; [lia |]. intros t d m. unfold opt, set_max. now rewrite H1.
Qed.

Lemma lexical_loop_class P q :
  is_class buffer P q ->
  forall n p, 0 <= p <= last_index buffer -> last_index buffer - p < Z.of_nat n ->
    lexical (loop n q) p.
Proof using Hbuf.
  intros Hq. pose proof Hq as [HE Hq']. induction n as [| n IH]; intros p Hp Hn; [lia |].
  destruct (char_at_some buffer p Hp) as [x Hx]. destruct (P x) eqn:HP.
  - assert (Hne : x <> endSymbol) by (intros ->; congruence).
    destruct (char_at_next buffer Hbuf p x Hx Hne) as (_ & Hle & _).
    destruct (IH (p + 1) ltac:(lia) ltac:(lia)) as [(p' & Hp' & H) | H].
    + left. exists p'. split; [lia |]. intros t d m. cbn [loop]. now rewrite (Hq' p t d m x Hx), HP.
    + right. intros t d m. cbn [loop]. now rewrite (Hq' p t d m x Hx), HP.
  - left. exists p. split; [lia |]. intros t d m. cbn [loop].
    now rewrite (Hq' p t d m x Hx), HP.
Qed.

Lemma lexical_star_class P q p :
  is_class buffer P q -> 0 <= p <= last_index buffer -> lexical (star buffer q) p.
Proof using Hbuf.
  intros Hq Hp. apply (lexical_loop_class P q Hq); [exact Hp |].
  unfold last_index in *. lia.
Qed.

End Accept.


(** *** The shapes of a reference *)



(** A component of a tag, and a tag: components between the separators
    [.] and [:]. *)
Definition tag_component (w : list rune) : bool :=
  match w with
  | c :: r => tag_start c && forallb tag_char r
  | [] => false
  end.

Definition separator (x : rune) : bool := is_chr "." x || is_chr ":" x.

Definition tag_more (more : list (rune * list rune)) : list rune :=
  flat_map (fun sw => fst sw :: snd sw) more.

Definition tag_text (c : list rune) (more : list (rune * list rune)) : list rune :=
  c ++ tag_more more.

Definition is_tag (c : list rune) (more : list (rune * list rune)) : bool :=
  tag_component c
  && forallb (fun sw => separator (fst sw) && tag_component (snd sw)) more.


(** A key, with its optional qualifier after a colon. *)
Definition key_word (w : list rune) : bool :=
  match w with
  | c :: r => key_start c && forallb key_char r
  | [] => false
  end.


Definition is_key (k : list rune) (q : option (list rune)) : bool :=
  key_word k && match q with
                | Some k2 => key_word k2
                | None => true
                end.





(** A rune after which a path cannot go on. *)
Definition path_end (x : rune) : bool :=
  negb (key_char x) && negb (is_chr ":" x) && negb (is_chr "." x) && negb (is_chr "[" x).

Definition len (w : list rune) : Z := Z.of_nat (List.length w).

Lemma len_app w1 w2 : len (w1 ++ w2) = len w1 + len w2.
Proof. unfold len. rewrite length_app. lia. Qed.

Lemma len_cons x w : len (x :: w) = 1 + len w.
Proof. unfold len. simpl List.length. lia. Qed.

Lemma len_nil : len [] = 0.
Proof. reflexivity. Qed.


Lemma reads_nil buffer p : reads buffer p [].
Proof. intros i y Hy. destruct i; discriminate. Qed.

Lemma reads_split buffer p w1 w2 :
  reads buffer p (w1 ++ w2) -> reads buffer p w1 /\ reads buffer (p + len w1) w2.
Proof. apply reads_app. Qed.


(** Facts on the classes of runes, by arithmetic on the code points. *)
Ltac class_lia :=
  unfold path_end, separator, key_start, key_char, tag_start, tag_char, digit, in_rng, is_chr in *;
  norm_runes;
  repeat match goal with
    | H : _ && _ = true |- _ => apply andb_true_iff in H as [? ?]
    | H : _ || _ = false |- _ => apply orb_false_iff in H as [? ?]
    | H : negb _ = true |- _ => apply negb_true_iff in H
    | H : negb _ = false |- _ => apply negb_false_iff in H
    end;
  repeat match goal with
    | H : _ || _ = true |- _ => apply orb_true_iff in H as [H | H]
    | H : _ && _ = false |- _ => apply andb_false_iff in H as [H | H]
    | H : _ && _ = true |- _ => apply andb_true_iff in H as [? ?]
    | H : _ || _ = false |- _ => apply orb_false_iff in H as [? ?]
    end;
  repeat match goal with
    | H : (_ <=? _) = true |- _ => apply Z.leb_le in H
    | H : (_ <=? _) = false |- _ => apply Z.leb_gt in H
    | H : (_ =? _) = true |- _ => apply Z.eqb_eq in H
    | H : (_ =? _) = false |- _ => apply Z.eqb_neq in H
    end;
  try lia; try (subst; reflexivity); try (subst; discriminate).

Section Reference.

Variable buffer : list rune.
Hypothesis Hbuf : well_formed_buffer buffer.

Lemma accepts_rules fuel r p p' :
  accepts (production buffer (fun r' s' => rules buffer fuel r' s') r) p p' ->
  accepts (rules buffer (S fuel) r) p p'.
Proof. exact (fun H => H). Qed.

Lemma rejects_rules fuel r p :
  rejects (production buffer (fun r' s' => rules buffer fuel r' s') r) p ->
  rejects (rules buffer (S fuel) r) p.
Proof. exact (fun H => H). Qed.

Lemma accepts_to q p p1 p2 : p1 = p2 -> accepts q p p1 -> accepts q p p2.
Proof. now intros ->. Qed.

Lemma TagComponent_accepts fuel w p x :
  tag_component w = true -> reads buffer p w ->
  char_at buffer (p + len w) = Some x -> tag_char x = false ->
  accepts (rules buffer (S fuel) ruleTagComponent) p (p + len w).
Proof using Hbuf.
  intros Hw Hr Hx HP. destruct w as [| c r]; [discriminate |].
  apply andb_true_iff in Hw as [Hc Hw]. rewrite len_cons in *.
  apply accepts_rules. cbv beta iota delta [production]. apply accepts_rule. cbn [seqs].
  apply (accepts_seq _ _ _ (p + 1)).
  - exact (accepts_class _ _ _ _ _ (class_tag_start buffer Hbuf) (reads_head _ _ _ _ Hr) Hc).
  - apply (accepts_to _ _ (p + 1 + len r)); [lia |].
    apply (accepts_star_class _ _ _ _ _ x (class_tag_char buffer Hbuf) Hw (reads_tail _ _ _ _ Hr)).
    + now replace (p + 1 + Z.of_nat (List.length r)) with (p + (1 + len r)) by (unfold len; lia).
    + exact HP.
Qed.

Lemma TagComponent_rejects fuel p x :
  char_at buffer p = Some x -> tag_start x = false ->
  rejects (rules buffer (S fuel) ruleTagComponent) p.
Proof using Hbuf.
  intros Hx HP. apply rejects_rules. cbv beta iota delta [production]. apply rejects_rule.
  cbn [seqs]. apply rejects_seq_l.
  exact (rejects_class _ _ _ _ _ (class_tag_start buffer Hbuf) Hx HP).
Qed.

Lemma class_separator : is_class buffer separator (alts [chr buffer "."; chr buffer ":"]).
Proof using Hbuf. cbn [alts]. apply class_alt; apply class_chr; exact Hbuf. Qed.

Lemma separator_not_tag x : separator x = true -> tag_char x = false.
Proof.
  unfold separator, tag_char, is_chr, in_rng. norm_runes. intros H.
  apply orb_true_iff in H as [H | H]; apply Z.eqb_eq in H; subst x; reflexivity.
Qed.

Lemma tag_start_char x : tag_start x = true -> tag_char x = true.
Proof.
  unfold tag_start, tag_char. intros H.
  apply orb_true_iff in H as [-> | H]; [reflexivity |].
  apply orb_true_iff in H as [-> | ->]; now rewrite ?orb_true_r.
Qed.

Lemma tag_more_length more : (List.length more <= List.length (tag_more more))%nat.
Proof.
  induction more as [| [s w] more IH]; [simpl; lia |].
  unfold tag_more in *. cbn [flat_map fst snd]. simpl List.length. rewrite length_app. lia.
Qed.

(** The rounds of the loop of [Tag]: a separator and a component each. *)
Lemma Tag_loop fuel more : forall n p x y,
  forallb (fun sw => separator (fst sw) && tag_component (snd sw)) more = true ->
  reads buffer p (tag_more more ++ [x; y]) ->
  tag_char x = false -> tag_start y = false ->
  (List.length more < n)%nat ->
  accepts (loop n (seqs [alts [chr buffer "."; chr buffer ":"];
                         fun s' => rules buffer (S fuel) ruleTagComponent s']))
    p (p + len (tag_more more)).
Proof using Hbuf.
  induction more as [| [s w] more IH]; intros n p x y Hm Hr Hx Hy Hn.
  - destruct n as [| n]; [simpl in Hn; lia |]. cbn [seqs].
    apply (accepts_to _ _ p); [unfold tag_more; simpl; rewrite len_nil; lia |].
    apply accepts_loop_stop. simpl in Hr.
    pose proof (reads_head _ _ _ _ Hr) as Hcx.
    pose proof (reads_head _ _ _ _ (reads_tail _ _ _ _ Hr)) as Hcy.
    destruct (separator x) eqn:Hs.
    + apply (rejects_seq_r _ _ _ (p + 1)).
      * exact (accepts_class _ _ _ _ _ class_separator Hcx Hs).
      * exact (TagComponent_rejects fuel (p + 1) y Hcy Hy).
    + apply rejects_seq_l. exact (rejects_class _ _ _ _ _ class_separator Hcx Hs).
  - destruct n as [| n]; [simpl in Hn; lia |]. cbn [seqs].
    cbn [forallb fst snd] in Hm. apply andb_true_iff in Hm as [Hsw Hm].
    apply andb_true_iff in Hsw as [Hs Hw].
    unfold tag_more in *. cbn [flat_map fst snd] in *. fold (tag_more more) in *.
    rewrite <- app_assoc, <- app_comm_cons in Hr.
    pose proof (reads_head _ _ _ _ Hr) as Hcs.
    destruct (reads_split _ _ _ _ (reads_tail _ _ _ _ Hr)) as [Hrw Hrest].
    apply (accepts_loop_round _ _ _ (p + 1 + len w)).
    + apply (accepts_seq _ _ _ (p + 1)).
      * exact (accepts_class _ _ _ _ _ class_separator Hcs Hs).
      * assert (Hnext : exists z, char_at buffer (p + 1 + len w) = Some z /\ tag_char z = false).
        { destruct more as [| [s' w'] more'].
          - exists x. split; [now apply reads_head in Hrest | exact Hx].
          - exists s'. split; [now apply reads_head in Hrest |].
            cbn [forallb fst snd] in Hm. apply andb_true_iff in Hm as [Hsw' _].
            apply andb_true_iff in Hsw' as [Hs' _]. now apply separator_not_tag. }
        destruct Hnext as (z & Hz & HPz).
        exact (TagComponent_accepts fuel w (p + 1) z Hw Hrw Hz HPz).
    + apply (accepts_to _ _ (p + 1 + len w + len (tag_more more)));
        [rewrite ?len_app, ?len_cons, ?len_app; lia |].
      apply (IH n (p + 1 + len w) x y Hm Hrest Hx Hy). simpl in Hn. lia.
Qed.

Lemma Tag_accepts fuel c more p x y :
  is_tag c more = true -> reads buffer p (tag_text c more ++ [x; y]) ->
  tag_char x = false -> tag_start y = false ->
  accepts (rules buffer (S (S fuel)) ruleTag) p (p + len (tag_text c more)).
Proof using Hbuf.
  intros Ht Hr Hx Hy. apply andb_true_iff in Ht as [Hc Hm].
  unfold tag_text in *. rewrite <- app_assoc in Hr.
  destruct (reads_split _ _ _ _ Hr) as [Hrc Hrest].
  apply accepts_rules. cbv beta iota delta [production]. apply accepts_rule.
  cbn [seqs]. apply (accepts_seq _ _ _ (p + len c)).
  - assert (Hnext : exists z, char_at buffer (p + len c) = Some z /\ tag_char z = false).
    { destruct more as [| [s' w'] more'].
      - exists x. split; [now apply reads_head in Hrest | exact Hx].
      - exists s'. split; [now apply reads_head in Hrest |].
        cbn [forallb fst snd] in Hm. apply andb_true_iff in Hm as [Hsw' _].
        apply andb_true_iff in Hsw' as [Hs' _]. now apply separator_not_tag. }
    destruct Hnext as (z & Hz & HPz).
    exact (TagComponent_accepts fuel c p z Hc Hrc Hz HPz).
  - apply (accepts_to _ _ (p + len c + len (tag_more more))); [rewrite len_app; lia |].
    apply (accepts_star buffer (S (List.length more))).
    + pose proof (tag_more_length more).
      pose proof (reads_length buffer _ (tag_more more ++ [x; y])
                    ltac:(now destruct (tag_more more)) Hrest) as Hl.
      rewrite length_app in Hl. simpl in Hl. lia.
    + apply (Tag_loop fuel more _ _ x y Hm Hrest Hx Hy). lia.
Qed.

Lemma accepts_lit w p :
  w <> ""%string -> reads buffer p (runes w) ->
  accepts (lit buffer w) p (p + Z.of_nat (String.length w)).
Proof using Hbuf.
  intros Hw Hr t d m. rewrite (lit_hit buffer Hbuf w _ Hw) by exact Hr.
  unfold set_position. simpl. eauto.
Qed.




(** The first alternative of [TagPrefix]. *)
Definition doc_form : parser :=
  seqs [lit buffer "doc"; alts [chr buffer "."; chr buffer ":"]; opt (chr buffer "-");
        plus buffer (rng buffer "0" "9")].

Lemma lexical_chr c p : 0 <= p <= last_index buffer -> lexical buffer (chr buffer c) p.
Proof using Hbuf. apply lexical_class with (P := is_chr c); [exact Hbuf | now apply class_chr]. Qed.

Lemma lexical_doc_form p : 0 <= p <= last_index buffer -> lexical buffer doc_form p.
Proof using Hbuf.
  intros Hp. unfold doc_form, lit, plus. cbn [list_ascii_of_string List.map seqs].
  repeat (apply lexical_seq; [| intros ? ?]);
    try (apply lexical_chr; lia).
  - apply (lexical_class buffer Hbuf separator); [apply class_separator | lia].
  - apply lexical_opt; [lia |]. apply lexical_chr; lia.
  - apply (lexical_class buffer Hbuf digit); [now apply class_digit | lia].
  - apply (lexical_star_class buffer Hbuf digit); [now apply class_digit | lia].
Qed.

Lemma doc_form_inv p p' :
  0 <= p <= last_index buffer -> accepted doc_form p p' ->
  reads buffer p (runes "doc")
  /\ exists y z, char_at buffer (p + 3) = Some y /\ separator y = true
       /\ char_at buffer (p + 4) = Some z /\ (z = rune_of "-" \/ digit z = true).
Proof using Hbuf.
  intros Hp H. unfold doc_form, lit, plus in H. cbn [list_ascii_of_string List.map seqs] in H.
  apply accepted_seq in H as (p1 & H1 & H).
  apply accepted_seq in H1 as (q1 & Hd & H1). apply accepted_seq in H1 as (q2 & Ho & Hc).
  apply (accepted_chr buffer Hbuf) in Hd as (Cd & -> & ?); [| lia].
  apply (accepted_chr buffer Hbuf) in Ho as (Co & -> & ?); [| lia].
  apply (accepted_chr buffer Hbuf) in Hc as (Cc & -> & ?); [| lia].
  replace (p + 1 + 1 + 1) with (p + 3) in * by lia. replace (p + 1 + 1) with (p + 2) in * by lia.
  apply accepted_seq in H as (p2 & Hs & H).
  apply (accepted_class buffer Hbuf separator _ _ _ class_separator) in Hs
    as (y & Hy & Hsy & -> & ?); [| lia].
  replace (p + 3 + 1) with (p + 4) in * by lia.
  apply accepted_seq in H as (p3 & Hm & H). split.
  - intros i x Hx. destruct i as [| [| [| i]]]; simpl in Hx.
    + injection Hx as <-. now rewrite Z.add_0_r.
    + injection Hx as <-. exact Co.
    + injection Hx as <-. exact Cc.
    + destruct i; discriminate.
  - apply accepted_opt in Hm as [Hm | ->].
    + apply (accepted_chr buffer Hbuf) in Hm as (Cm & _ & _); [| lia]. eauto 10.
    + apply accepted_seq in H as (p4 & Hg & _).
      apply (accepted_class buffer Hbuf digit _ _ _ (class_digit buffer Hbuf)) in Hg
        as (z & Hz & Hdz & _ & _); [| lia]. eauto 10.
Qed.

(** A tag before [::] is not read as the tag of a numbered document. *)
Lemma tag_not_doc c more p :
  is_tag c more = true -> reads buffer p (tag_text c more ++ runes "::") ->
  0 <= p <= last_index buffer -> rejects doc_form p.
Proof using Hbuf.
  intros Ht Hr Hp. destruct (lexical_cases buffer _ _ (lexical_doc_form p Hp)) as [H | [p' H]];
    [exact H | exfalso].
  apply accepts_accepted in H. apply (doc_form_inv p p' Hp) in H
    as (Hdoc & y & z & Hy & Hsy & Hz & Hdz).
  pose proof (reads_nth _ _ _ 1%nat _ Hdoc eq_refl) as Co.
  pose proof (reads_nth _ _ _ 2%nat _ Hdoc eq_refl) as Cc.
  change (Z.of_nat 1) with 1 in Co. change (Z.of_nat 2) with 2 in Cc.
  apply andb_true_iff in Ht as [Hc Hm]. unfold tag_text in Hr.
  change (runes "::") with [58; 58] in Hr.
  assert (Hnext : forall q, reads buffer q (tag_more more ++ [58; 58]) ->
            exists a b, char_at buffer q = Some a /\ char_at buffer (q + 1) = Some b
                        /\ separator a = true /\ (b = 58 \/ tag_start b = true)).
  { intros q Hq. destruct more as [| [s' w'] more'].
    - exists 58, 58. simpl in Hq. split; [now apply reads_head in Hq |].
      split; [now apply reads_tail, reads_head in Hq |]. split; [reflexivity | now left].
    - cbn [forallb fst snd] in Hm. apply andb_true_iff in Hm as [Hsw' _].
      apply andb_true_iff in Hsw' as [Hs' Hw'].
      destruct w' as [| b w'']; [discriminate |]. apply andb_true_iff in Hw' as [Hb _].
      exists s', b. unfold tag_more in Hq. cbn [flat_map fst snd] in Hq.
      rewrite <- !app_comm_cons in Hq.
      split; [now apply reads_head in Hq |].
      split; [now apply reads_tail, reads_head in Hq |]. split; [exact Hs' | now right]. }
  destruct c as [| c0 r]; [discriminate |]. apply andb_true_iff in Hc as [Hc0 Hr0].
  rewrite <- app_comm_cons in Hr. apply reads_tail in Hr.
  destruct r as [| c1 r].
  { destruct (Hnext _ Hr) as (a & b & Ha & _ & Hsa & _).
    rewrite Co in Ha. injection Ha as <-. discriminate. }
  simpl in Hr0. apply andb_true_iff in Hr0 as [Hc1 Hr0].
  rewrite <- app_comm_cons in Hr. apply reads_tail in Hr.
  replace (p + 1 + 1) with (p + 2) in Hr by lia.
  destruct r as [| c2 r].
  { destruct (Hnext _ Hr) as (a & b & Ha & _ & Hsa & _).
    rewrite Cc in Ha. injection Ha as <-. discriminate. }
  simpl in Hr0. apply andb_true_iff in Hr0 as [Hc2 Hr0].
  rewrite <- app_comm_cons in Hr. apply reads_tail in Hr.
  replace (p + 2 + 1) with (p + 3) in Hr by lia.
  destruct r as [| c3 r].
  { destruct (Hnext _ Hr) as (a & b & Ha & Hb & Hsa & Hab).
    replace (p + 3 + 1) with (p + 4) in Hb by lia.
    rewrite Hz in Hb. injection Hb as <-.
    destruct Hdz as [-> | Hdz]; destruct Hab as [Hab | Hab]; try discriminate; class_lia. }
  simpl in Hr0. apply andb_true_iff in Hr0 as [Hc3 _].
  rewrite <- app_comm_cons in Hr. apply reads_head in Hr.
  rewrite Hy in Hr. injection Hr as <-.
  apply separator_not_tag in Hsy. congruence.
Qed.

(** A tag before [::]. *)
Lemma TagPrefix_tag fuel c more p :
  is_tag c more = true -> reads buffer p (tag_text c more ++ runes "::") ->
  accepts (rules buffer (S (S (S fuel))) ruleTagPrefix) p (p + len (tag_text c more) + 2).
Proof using Hbuf.
  intros Ht Hr.
  assert (Hp : 0 <= p <= last_index buffer).
  { pose proof Ht as Ht'. apply andb_true_iff in Ht' as [Hc _].
    destruct c as [| c0 r]; [discriminate |]. apply andb_true_iff in Hc as [Hc0 _].
    unfold tag_text in Hr. rewrite <- !app_comm_cons in Hr. apply reads_head in Hr.
    assert (Hne : c0 <> endSymbol) by (intros ->; discriminate).
    destruct (char_at_next buffer Hbuf p c0 Hr Hne) as (? & ? & _). lia. }
  pose proof (tag_not_doc c more p Ht Hr Hp) as Hdoc.
  destruct (reads_split _ _ _ _ Hr) as [_ Hcol].
  apply accepts_rules. cbv beta iota delta [production]. apply accepts_rule. cbn [seqs alts].
  apply (accepts_seq _ _ _ (p + len (tag_text c more))).
  - apply accepts_alt_r; [exact Hdoc |].
    apply (Tag_accepts fuel c more p 58 58 Ht Hr); reflexivity.
  - apply (accepts_to _ _ (p + len (tag_text c more) + Z.of_nat (String.length "::")));
      [simpl; lia |].
    apply accepts_lit; [discriminate | exact Hcol].
Qed.
















Lemma reads_cons p x w :
  char_at buffer p = Some x -> reads buffer (p + 1) w -> reads buffer p (x :: w).
Proof.
  intros Hx Hw i y Hy. destruct i as [| i].
  - simpl in Hy. injection Hy as <-. now rewrite Z.add_0_r.
  - replace (p + Z.of_nat (S i)) with (p + 1 + Z.of_nat i) by lia. now apply Hw.
Qed.

Lemma reads_join p w1 w2 :
  reads buffer p w1 -> reads buffer (p + len w1) w2 -> reads buffer p (w1 ++ w2).
Proof.
  intros H1 H2 i y Hy. destruct (Nat.lt_ge_cases i (List.length w1)) as [Hlt | Hge].
  - rewrite nth_error_app1 in Hy by exact Hlt. now apply H1.
  - rewrite nth_error_app2 in Hy by exact Hge.
    replace (p + Z.of_nat i) with (p + len w1 + Z.of_nat (i - List.length w1))
      by (unfold len; lia).
    now apply H2.
Qed.


Lemma char_at_bound p x : char_at buffer p = Some x -> 0 <= p <= last_index buffer.
Proof.
  unfold char_at. destruct (Z.ltb_spec p 0) as [| H0]; [discriminate |]. intros Hx.
  assert (Z.to_nat p < List.length buffer)%nat by (apply nth_error_Some; congruence).
  unfold last_index. lia.
Qed.



End Reference.





(** *** The positions of a parse error *)

(** Line and symbol of a text in the words of the specification: counted
    from line 1 and symbol 0, a newline increments the line and resets the
    symbol, every other rune increments the symbol. *)
Fixpoint count_from (text : list rune) (l s : Z) : textPosition :=
  match text with
  | [] => {| line := l; symbol := s |}
  | c :: rest =>
      if c =? rune_of "010" then count_from rest (l + 1) 0
      else count_from rest l (s + 1)
  end.

(** The line and the symbol of the rune at index [i]: those of the text up
    to and with that rune. *)
Definition line_symbol (buffer : list rune) (i : Z) : textPosition :=
  count_from (firstn (S (Z.to_nat i)) buffer) 1 0.

Lemma search_last buf : forall i e l s (tr : gmap Z textPosition),
  i <= e -> e - i < Z.of_nat (List.length buf) ->
  exists tr',
    search buf i [e] l s tr = Some tr'
    /\ tr' !! e = Some (count_from (firstn (S (Z.to_nat (e - i))) buf) l s)
    /\ forall k, k <> e -> tr' !! k = tr !! k.
Proof.
  induction buf as [| c buf IH]; intros i e l s tr Hie Hlen; [simpl in Hlen; lia |].
  cbn [search]. destruct (Z.eqb_spec i e) as [-> | Hne].
  - cbn [skip_equal]. eexists. split; [reflexivity |].
    rewrite Z.sub_diag. cbn [Z.to_nat firstn count_from]. split.
    + rewrite lookup_insert_eq. now destruct (c =? rune_of "010").
    + intros k Hk. now rewrite lookup_insert_ne by congruence.
  - destruct (IH (i + 1) e (if c =? rune_of "010" then l + 1 else l)
                (if c =? rune_of "010" then 0 else s + 1) tr
                ltac:(lia) ltac:(simpl List.length in Hlen; lia))
      as (tr' & E & He & Hk).
    exists tr'. split; [exact E |]. split; [| exact Hk].
    rewrite He. replace (Z.to_nat (e - i)) with (S (Z.to_nat (e - (i + 1)))) by lia.
    cbn [firstn count_from]. now destruct (c =? rune_of "010").
Qed.

Lemma search_pair buf : forall i b e l s (tr : gmap Z textPosition),
  i <= b <= e -> e - i < Z.of_nat (List.length buf) ->
  exists tr',
    search buf i [b; e] l s tr = Some tr'
    /\ tr' !! b = Some (count_from (firstn (S (Z.to_nat (b - i))) buf) l s)
    /\ tr' !! e = Some (count_from (firstn (S (Z.to_nat (e - i))) buf) l s).
Proof.
  induction buf as [| c buf IH]; intros i b e l s tr Hie Hlen; [simpl in Hlen; lia |].
  cbn [search]. destruct (Z.eqb_spec i b) as [-> | Hne].
  - cbn [skip_equal]. destruct (Z.eqb_spec b e) as [-> | Hbe].
    + eexists. split; [reflexivity |].
      rewrite Z.sub_diag. cbn [Z.to_nat firstn count_from]. rewrite lookup_insert_eq.
      split; now destruct (c =? rune_of "010").
    + destruct (search_last buf (b + 1) e (if c =? rune_of "010" then l + 1 else l)
                  (if c =? rune_of "010" then 0 else s + 1)
                  (<[b := {| line := if c =? rune_of "010" then l + 1 else l;
                             symbol := if c =? rune_of "010" then 0 else s + 1 |}]> tr)
                  ltac:(lia) ltac:(simpl List.length in Hlen; lia))
        as (tr' & E & He & Hk).
      exists tr'. split; [exact E |]. split.
      * rewrite (Hk b Hbe), lookup_insert_eq.
        rewrite Z.sub_diag. cbn [Z.to_nat firstn count_from].
        now destruct (c =? rune_of "010").
      * rewrite He. replace (Z.to_nat (e - b)) with (S (Z.to_nat (e - (b + 1)))) by lia.
        cbn [firstn count_from]. now destruct (c =? rune_of "010").
  - destruct (IH (i + 1) b e (if c =? rune_of "010" then l + 1 else l)
                (if c =? rune_of "010" then 0 else s + 1) tr
                ltac:(lia) ltac:(simpl List.length in Hlen; lia))
      as (tr' & E & Hb & He).
    exists tr'. split; [exact E |]. split.
    + rewrite Hb. replace (Z.to_nat (b - i)) with (S (Z.to_nat (b - (i + 1)))) by lia.
      cbn [firstn count_from]. now destruct (c =? rune_of "010").
    + rewrite He. replace (Z.to_nat (e - i)) with (S (Z.to_nat (e - (i + 1)))) by lia.
      cbn [firstn count_from]. now destruct (c =? rune_of "010").
Qed.

(** [translatePositions] on the two ends of a token inside the buffer. *)
Lemma translatePositions_ends buffer b e :
  0 <= b <= e -> e < Z.of_nat (List.length buffer) ->
  exists tr,
    translatePositions buffer [b; e] = Some tr
    /\ translation tr b = line_symbol buffer b
    /\ translation tr e = line_symbol buffer e.
Proof.
  intros Hbe Hlen. unfold translatePositions, sort_ints. cbn [fold_right insert_sorted].
  destruct (Z.leb_spec b e) as [_ |]; [| lia].
  destruct (search_pair buffer 0 b e 1 0 ∅ ltac:(lia) ltac:(lia)) as (tr & E & Hb & He).
  exists tr. split; [exact E |]. unfold translation, line_symbol.
  rewrite Hb, He, !Z.sub_0_r. split; reflexivity.
Qed.

Section ErrorReport.

Variable Quote : list rune -> string.

(** The message of a parse error whose token lies inside the buffer. *)
Lemma Error_message pretty e :
  tok_ok (err_buffer e) (err_max e) -> (0 < List.length (err_buffer e))%nat ->
  Error Quote pretty e
  = Some (nl ++ format pretty (rul3s (tok_rule (err_max e)))
                  (line_symbol (err_buffer e) (tok_begin (err_max e)))
                  (line_symbol (err_buffer e) (tok_end (err_max e)))
                  (Quote (firstn (Z.to_nat (tok_end (err_max e) - tok_begin (err_max e)))
                            (skipn (Z.to_nat (tok_begin (err_max e))) (err_buffer e)))))%string.
Proof.
  intros [Hbe Hend] Hpos. unfold last_index in Hend. unfold Error.
  destruct (translatePositions_ends (err_buffer e) (tok_begin (err_max e)) (tok_end (err_max e))
              Hbe ltac:(lia)) as (tr & -> & -> & ->).
  unfold slice.
  destruct (Z.ltb_spec (tok_begin (err_max e)) 0); [lia |].
  destruct (Z.ltb_spec (tok_end (err_max e)) (tok_begin (err_max e))); [lia |].
  destruct (Z.ltb_spec (Z.of_nat (List.length (err_buffer e))) (tok_end (err_max e))); [lia |].
  reflexivity.
Qed.

End ErrorReport.

(** With enough fuel [Parse] returns, with the tokens or with a parse error,
    and more fuel does not change what it returns. *)
Lemma Parse_total Buffer :
  Z.of_nat (List.length Buffer) < 4294967296 ->
  exists fuel0,
    (forall fuel, (fuel0 <= fuel)%nat -> Parse fuel Buffer = Parse fuel0 Buffer)
    /\ forall a, Parse fuel0 Buffer <> Aborted a.
Proof.
  intros Hlen. pose proof (Init_well_formed Buffer Hlen) as Hbuf.
  destruct (rules_total (Init Buffer) Hbuf ruleDynaml initial eq_refl (inv_initial _ Hbuf))
    as (fuel0 & res & Hret & _ & Hfuel).
  exists fuel0. unfold Parse. split.
  - intros fuel Hle. now rewrite (Hfuel fuel Hle), (Hfuel fuel0 (Nat.le_refl _)).
  - intros a. rewrite (Hfuel fuel0 (Nat.le_refl _)).
    destruct res; simpl in Hret; [discriminate | discriminate | contradiction].
Qed.

(** C6.  With enough fuel the parse of an expression returns, and what it
    returns for an expression that does not match is a parse error; the
    message of a parse error names the rule of the token that went
    furthest and gives the line and the symbol of its two ends, counted
    over the text from line 1 and symbol 0, a newline incrementing the line
    and resetting the symbol, every other rune incrementing the symbol. *)
Theorem parse_error_reports_line_and_symbol (Quote : list rune -> string) pretty Buffer
  (Hlen : Z.of_nat (List.length Buffer) < 4294967296) :
  (exists fuel0,
      (forall fuel, (fuel0 <= fuel)%nat -> Parse fuel Buffer = Parse fuel0 Buffer)
      /\ forall a, Parse fuel0 Buffer <> Aborted a)
  /\ forall fuel e,
      Parse fuel Buffer = ParseError e ->
      err_buffer e = Init Buffer
      /\ 0 <= tok_begin (err_max e) <= tok_end (err_max e)
      /\ tok_end (err_max e) < Z.of_nat (List.length (Init Buffer))
      /\ Error Quote pretty e
         = Some (nl ++ format pretty (rul3s (tok_rule (err_max e)))
                         (line_symbol (Init Buffer) (tok_begin (err_max e)))
                         (line_symbol (Init Buffer) (tok_end (err_max e)))
                         (Quote (firstn (Z.to_nat (tok_end (err_max e) - tok_begin (err_max e)))
                                   (skipn (Z.to_nat (tok_begin (err_max e)))
                                      (Init Buffer)))))%string.
Proof.
  split; [now apply Parse_total |].
  intros fuel e HP. pose proof (Init_well_formed Buffer Hlen) as Hbuf.
  unfold Parse in HP.
  pose proof (sound_rules (Init Buffer) Hbuf fuel ruleDynaml eq_refl initial
                (inv_initial _ Hbuf)) as Hgood.
  destruct (rules (Init Buffer) fuel ruleDynaml initial) as [s | m | a]; try discriminate.
  injection HP as <-. cbn [err_buffer err_max]. change (tok_ok (Init Buffer) m) in Hgood.
  pose proof Hgood as [Hbe Hend]. unfold last_index in Hend.
  split; [reflexivity |]. split; [exact Hbe |]. split; [lia |].
  apply (Error_message Quote pretty {| err_buffer := Init Buffer; err_max := m |} Hgood).
  exact (proj2 (Init_length Buffer)).
Qed.

Lemma parse_error_reports_line_and_symbol_witness :
  let Buffer := runes ("[1," ++ nl ++ " 2," ++ nl ++ " ]") in
  let Quote := fun _ : list rune => "Q"%string in
  Z.of_nat (List.length Buffer) < 4294967296
  /\ exists e,
      Parse 300 Buffer = ParseError e
      /\ span (err_max e) = (rulews, 7, 9)
      /\ line_symbol (Init Buffer) 7 = {| line := 3; symbol := 0 |}
      /\ line_symbol (Init Buffer) 9 = {| line := 3; symbol := 2 |}
      /\ Error Quote false e
         = Some (nl ++ "parse error near ws (line 3 symbol 0 - line 3 symbol 2):"
                    ++ nl ++ "Q" ++ nl)%string.
Proof.
  intros Buffer Quote.
  assert (Hlen : Z.of_nat (List.length Buffer) < 4294967296) by (vm_compute; reflexivity).
  split; [exact Hlen |].
  destruct (Parse 300 Buffer) as [tokens | e | a] eqn:HP;
    [vm_compute in HP; discriminate | | vm_compute in HP; discriminate].
  exists e. split; [reflexivity |].
  destruct (proj2 (parse_error_reports_line_and_symbol Quote false Buffer Hlen) 300%nat e HP)
    as (_ & _ & _ & HE).
  rewrite HE. vm_compute in HP. injection HP as <-.
  repeat split; vm_compute; reflexivity.
Defined.


(** *** The tokens a call adds *)

Section Tokens.

Variable buffer : list rune.
Hypothesis Hbuf : well_formed_buffer buffer.

(** A token inside the span from [lo] to [hi]. *)
Definition within (lo hi : Z) (t : token32) : Prop :=
  lo <= tok_begin t /\ tok_begin t <= tok_end t /\ tok_end t <= hi.

(** No token of the tree that is not empty ends behind [max]. *)
Definition covered (s : state) : Prop :=
  Forall (fun t => tok_begin t = tok_end t \/ tok_end t <= tok_end (max s)) (tokenTree s).

(** What a call does to the tokens: on success it has appended tokens that
    lie inside the span it has read, and [max] has not gone back; on failure
    [max] has not gone back. *)
Definition grows (s : state) (res : result) : Prop :=
  match res with
  | Ok s' =>
      tok_end (max s) <= tok_end (max s')
      /\ (covered s -> covered s')
      /\ exists new,
           tokenTree s' = tokenTree s ++ new
           /\ Forall (within (position s) (position s')) new
  | Fail m => tok_end (max s) <= tok_end m
  | Abort _ => True
  end.

Definition steady (p : parser) : Prop := forall s, inv buffer s -> grows s (p s).

Lemma within_widen lo hi lo' hi' t :
  lo' <= lo -> hi <= hi' -> within lo hi t -> within lo' hi' t.
Proof. unfold within. lia. Qed.

Lemma covered_set_max m s :
  tok_end (max s) <= tok_end m -> covered s -> covered (set_max m s).
Proof.
  intros Hm Hc. unfold covered in *. simpl.
  eapply Forall_impl; [| exact Hc]. simpl. intros t [H | H]; [now left | right; lia].
Qed.

Lemma grows_same s s' :
  tokenTree s' = tokenTree s -> tok_end (max s) <= tok_end (max s') ->
  max s' = max s \/ position s' = position s ->
  grows s (Ok s').
Proof.
  intros Ht Hm _. split; [exact Hm |]. split.
  - unfold covered. rewrite Ht. intros Hc.
    eapply Forall_impl; [| exact Hc]. simpl. intros t [H | H]; [now left | right; lia].
  - exists []. rewrite app_nil_r. split; [exact Ht | constructor].
Qed.

Lemma steady_chr c : steady (chr buffer c).
Proof.
  intros s Hi. unfold chr. destruct (peek buffer s) as [x |]; [| exact I].
  destruct (negb (x =? rune_of c)); [simpl; lia |].
  apply grows_same; simpl; auto; lia.
Qed.

Lemma steady_rng lo hi : steady (rng buffer lo hi).
Proof.
  intros s Hi. unfold rng. destruct (peek buffer s) as [x |]; [| exact I].
  destruct ((x <? rune_of lo) || (rune_of hi <? x)); [simpl; lia |].
  apply grows_same; simpl; auto; lia.
Qed.

Lemma steady_matchDot : steady (matchDot buffer).
Proof.
  intros s Hi. unfold matchDot. destruct (peek buffer s) as [x |]; [| exact I].
  destruct (negb (x =? endSymbol)); [| simpl; lia].
  apply grows_same; simpl; auto; lia.
Qed.

Lemma steady_seq p q :
  sound buffer p -> sound buffer q -> steady p -> steady q -> steady (seq p q).
Proof.
  intros Sp Sq Hp Hq s Hi. unfold seq.
  specialize (Sp s Hi). specialize (Hp s Hi).
  destruct (p s) as [s1 | m | a]; simpl in *; try assumption.
  destruct Sp as [Hi1 Hle1]. specialize (Sq s1 Hi1). specialize (Hq s1 Hi1).
  destruct (q s1) as [s2 | m | a]; simpl in *; try exact I.
  - destruct Sq as [Hi2 Hle2]. destruct Hp as (Hm1 & Hc1 & new1 & E1 & F1).
    destruct Hq as (Hm2 & Hc2 & new2 & E2 & F2).
    split; [lia |]. split; [auto |]. exists (new1 ++ new2).
    split; [now rewrite E2, E1, app_assoc |].
    apply Forall_app. split.
    + eapply Forall_impl; [| exact F1]. intros t. apply within_widen; lia.
    + eapply Forall_impl; [| exact F2]. intros t. apply within_widen; lia.
  - destruct Hp as (Hm1 & _). lia.
Qed.

Lemma steady_alt p q : sound buffer p -> steady p -> steady q -> steady (alt p q).
Proof.
  intros Sp Hp Hq s Hi. unfold alt. specialize (Sp s Hi). specialize (Hp s Hi).
  destruct (p s) as [s1 | m | a]; simpl in *; try assumption.
  specialize (Hq _ (inv_set_max buffer m s Hi Sp)).
  destruct (q (set_max m s)) as [s2 | m2 | a]; simpl in *; try exact I.
  - destruct Hq as (Hm2 & Hc2 & new & E & F). split; [lia |]. split.
    + intros Hc. apply Hc2. now apply covered_set_max.
    + now exists new.
  - lia.
Qed.

Lemma steady_opt p : steady p -> steady (opt p).
Proof.
  intros Hp s Hi. unfold opt. specialize (Hp s Hi).
  destruct (p s) as [s1 | m | a]; simpl in *; try assumption.
  split; [exact Hp |]. split; [now apply covered_set_max |].
  exists []. rewrite app_nil_r. split; [reflexivity | constructor].
Qed.

Lemma steady_notp p : steady p -> steady (notp p).
Proof.
  intros Hp s Hi. unfold notp. specialize (Hp s Hi).
  destruct (p s) as [s1 | m | a]; simpl in *; try assumption.
  - apply Hp.
  - split; [exact Hp |]. split; [now apply covered_set_max |].
    exists []. rewrite app_nil_r. split; [reflexivity | constructor].
Qed.

Lemma steady_loop p n : sound buffer p -> steady p -> steady (loop n p).
Proof.
  intros Sp Hp. induction n as [| n IH]; intros s Hi; simpl; [exact I |].
  pose proof (Sp s Hi) as Ss. specialize (Hp s Hi).
  destruct (p s) as [s1 | m | a]; simpl in *; try assumption.
  - destruct Ss as [Hi1 Hle1]. specialize (IH s1 Hi1).
    pose proof (sound_loop buffer p n Sp s1 Hi1) as Sl.
    destruct (loop n p s1) as [s2 | m | a]; simpl in *; try exact I.
    + destruct Sl as [Hi2 Hle2]. destruct Hp as (Hm1 & Hc1 & new1 & E1 & F1).
      destruct IH as (Hm2 & Hc2 & new2 & E2 & F2).
      split; [lia |]. split; [auto |]. exists (new1 ++ new2).
      split; [now rewrite E2, E1, app_assoc |].
      apply Forall_app. split.
      * eapply Forall_impl; [| exact F1]. intros t. apply within_widen; lia.
      * eapply Forall_impl; [| exact F2]. intros t. apply within_widen; lia.
    + destruct Hp as (Hm1 & _). lia.
  - split; [exact Hp |]. split; [now apply covered_set_max |].
    exists []. rewrite app_nil_r. split; [reflexivity | constructor].
Qed.

(** [add] appends the token of the rule, which lies behind no later [max]. *)
Lemma add_grows r b s :
  b <= position s ->
  tok_end (max s) <= tok_end (max (add r b s))
  /\ (covered s -> covered (add r b s))
  /\ tokenTree (add r b s)
     = tokenTree s ++ [{| tok_rule := r; tok_begin := b; tok_end := position s;
                          tok_next := depth s |}].
Proof.
  intros Hb. unfold add, covered. cbn [max tokenTree].
  destruct (Z.eqb_spec b (position s)) as [-> | Hne]; cbn [negb andb].
  - split; [lia |]. split; [| reflexivity]. intros Hc. apply Forall_app.
    split; [exact Hc |]. constructor; [now left | constructor].
  - destruct (Z.ltb_spec (tok_end (max s)) (position s)) as [Hlt | Hge].
    + cbn [tok_end]. split; [lia |]. split; [| reflexivity]. intros Hc.
      apply Forall_app. split.
      * eapply Forall_impl; [| exact Hc]. simpl. intros t [H | H]; [now left | right; lia].
      * constructor; [right; simpl; lia | constructor].
    + split; [lia |]. split; [| reflexivity]. intros Hc. apply Forall_app.
      split; [exact Hc |]. constructor; [right; simpl; lia | constructor].
Qed.

Lemma steady_rule r p : sound buffer p -> steady p -> steady (rule r p).
Proof.
  intros Sp Hp s Hi. unfold rule.
  assert (Hi1 : inv buffer (set_depth (u32 (depth s + 1)) s)) by exact Hi.
  specialize (Sp _ Hi1). specialize (Hp _ Hi1).
  destruct (p _) as [s1 | m | a]; [| exact Hp | exact I].
  destruct Sp as [Hi' Hle]. destruct Hp as (Hm1 & Hc1 & new & E & F).
  unfold set_depth in Hle, Hm1, Hc1, E, F. cbn [position max tokenTree] in Hle, Hm1, E, F.
  destruct (add_grows r (position s) (set_depth (u32 (depth s1 - 1)) s1) Hle)
    as (Hm2 & Hc2 & E2).
  unfold grows.
  change (max (set_depth (u32 (depth s1 - 1)) s1)) with (max s1) in Hm2.
  split; [lia |].
  split; [intros Hc; apply Hc2, Hc1, Hc |].
  exists (new ++ [{| tok_rule := r; tok_begin := position s; tok_end := position s1;
                     tok_next := u32 (depth s1 - 1) |}]).
  split; [rewrite E2; unfold set_depth; cbn [tokenTree position depth];
          now rewrite E, app_assoc |].
  apply Forall_app. split; [exact F |].
  constructor; [| constructor]. unfold within, add, set_depth. simpl. lia.
Qed.

Lemma steady_action r : steady (action r).
Proof.
  intros s Hi. unfold action.
  destruct (add_grows r (position s) s (Z.le_refl _)) as (Hm & Hc & E).
  split; [exact Hm |]. split; [exact Hc |].
  eexists. split; [exact E |]. constructor; [| constructor]. unfold within. simpl. lia.
Qed.

Lemma steady_interp call e :
  (forall r, is_rule r = true -> sound buffer (call r)) ->
  (forall r, is_rule r = true -> steady (call r)) ->
  wf_exp e = true -> steady (interp buffer call e).
Proof using Hbuf.
  intros Sc Hc.
  induction e as [| | c | lo hi | | r | a IHa b IHb | a IHa b IHb | a IHa | a IHa | a IHa];
    simpl; intros Hwf.
  - intros s Hi. apply grows_same; auto; lia.
  - intros s Hi. simpl. lia.
  - apply steady_chr.
  - apply steady_rng.
  - apply steady_matchDot.
  - now apply Hc.
  - apply andb_true_iff in Hwf as [? ?].
    apply steady_seq; auto; now apply sound_interp.
  - apply andb_true_iff in Hwf as [? ?].
    apply steady_alt; auto; now apply sound_interp.
  - apply andb_true_iff in Hwf as [? ?].
    apply steady_loop; auto; now apply sound_interp.
  - apply steady_opt; auto.
  - apply steady_notp; auto.
Qed.

Lemma steady_rules fuel : forall r, is_rule r = true -> steady (rules buffer fuel r).
Proof using Hbuf.
  induction fuel as [| fuel IH]; intros r Hr s Hi; [exact I |].
  change (grows s (production buffer (fun r' s' => rules buffer fuel r' s') r s)).
  rewrite production_denote. pose proof (wf_rule_all r) as Hwf.
  unfold is_rule in Hr. unfold wf_rule in Hwf. unfold denote.
  destruct (grammar r) as [e | |]; [| apply steady_action; exact Hi | discriminate].
  apply andb_true_iff in Hwf as [Hwf _]. apply andb_true_iff in Hwf as [Hwf _].
  apply andb_true_iff in Hwf as [Hwf _].
  assert (Sc : forall r', is_rule r' = true ->
                 sound buffer (fun s' => rules buffer fuel r' s')).
  { intros r' Hr'. exact (sound_rules buffer Hbuf fuel r' Hr'). }
  apply steady_rule; [now apply sound_interp | | exact Hi].
  apply steady_interp; [exact Sc | | exact Hwf].
  intros r' Hr'. exact (IH r' Hr').
Qed.

(** The tokens of a call: those of the calls inside it, which lie inside
    the span it has read, and then its own over that span. *)
Lemma call_tokens fuel r s s' :
  is_rule r = true -> inv buffer s -> rules buffer fuel r s = Ok s' ->
  exists inner d,
    tokenTree s'
    = tokenTree s ++ inner
        ++ [{| tok_rule := r; tok_begin := position s; tok_end := position s';
               tok_next := d |}]
    /\ Forall (within (position s) (position s')) inner.
Proof using Hbuf.
  intros Hr Hi. destruct fuel as [| fuel]; [discriminate |].
  change (rules buffer (S fuel) r s)
    with (production buffer (fun r' s' => rules buffer fuel r' s') r s).
  rewrite production_denote. pose proof (wf_rule_all r) as Hwf.
  unfold is_rule in Hr. unfold wf_rule in Hwf. unfold denote.
  destruct (grammar r) as [e | |]; [| | discriminate].
  - apply andb_true_iff in Hwf as [Hwf _]. apply andb_true_iff in Hwf as [Hwf _].
    apply andb_true_iff in Hwf as [Hwf _].
    assert (Sc : forall r', is_rule r' = true ->
                   sound buffer (fun s' => rules buffer fuel r' s')).
    { intros r' Hr'. exact (sound_rules buffer Hbuf fuel r' Hr'). }
    assert (Hc : forall r', is_rule r' = true ->
                   steady (fun s' => rules buffer fuel r' s')).
    { intros r' Hr'. exact (steady_rules fuel r' Hr'). }
    assert (Hi1 : inv buffer (set_depth (u32 (depth s + 1)) s)) by exact Hi.
    pose proof (sound_interp buffer Hbuf _ e Sc Hwf _ Hi1) as Hs.
    pose proof (steady_interp _ e Sc Hc Hwf _ Hi1) as Hg.
    unfold rule. destruct (interp _ _ e _) as [s1 | m | a]; try discriminate.
    intros [= <-]. destruct Hg as (_ & _ & new & E & F).
    unfold set_depth in E, F. cbn [tokenTree position] in E, F.
    exists new, (u32 (depth s1 - 1)). unfold add, set_depth. cbn [tokenTree position depth].
    split; [now rewrite E, app_assoc | exact F].
  - unfold action, add. intros [= <-]. cbn [tokenTree position].
    exists [], (depth s). split; [reflexivity | constructor].
Qed.

End Tokens.

(** *** The word merge before a parenthesis *)

Lemma loop_tokens buffer (Hbuf : well_formed_buffer buffer) q n s s' :
  sound buffer q -> steady buffer q -> inv buffer s ->
  loop n q s = Ok s' ->
  position s <= position s' /\ exists new, tokenTree s' = tokenTree s ++ new.
Proof.
  intros Sq Hq Hi E.
  pose proof (sound_loop buffer q n Sq s Hi) as Hs.
  pose proof (steady_loop buffer q n Sq Hq s Hi) as Hg.
  rewrite E in Hs, Hg. destruct Hs as [_ Hle]. destruct Hg as (_ & _ & new & Hn & _).
  split; [exact Hle | now exists new].
Qed.

(** An expression read where the word merge stands before a parenthesis is
    the reference merge and what is chained to it; the chain is empty or
    begins with the call at the parenthesis. *)
Lemma Level0_merge_tokens buffer (Hbuf : well_formed_buffer buffer) p fuel s s' :
  reads buffer p (runes "merge(") -> inv buffer s -> position s = p ->
  rules buffer fuel ruleLevel0 s = Ok s' ->
  exists rest,
    List.map span (tokenTree s')
    = List.map span (tokenTree s)
      ++ [(ruleKey, p, p + 5); (ruleFollowUpRef, p + 5, p + 5); (ruleReference, p, p + 5)]
      ++ rest ++ [(ruleChained, p, position s'); (ruleLevel0, p, position s')]
    /\ (rest = [] /\ position s' = p + 5
        \/ exists inner q after,
             rest = inner ++ [(ruleChainedCall, p + 5, q);
                              (ruleChainedQualifiedExpression, p + 5, q)] ++ after
             /\ p + 5 < q <= position s').
Proof.
  intros Hr Hi Hp E. destruct s as [p0 t d m]. cbn [position] in Hp. subst p0.
  cbn [tokenTree].
  assert (E7 : rules buffer (S (S (S (S (S (S (S fuel))))))) ruleLevel0
                 {| position := p; tokenTree := t; depth := d; max := m |} = Ok s').
  { rewrite (rules_more_fuel buffer fuel) by (lia || (rewrite E; discriminate)). exact E. }
  rewrite (Level0_merge buffer Hbuf fuel p t d m Hr) in E7.
  destruct (merge_window buffer p Hr) as (_ & _ & _ & _ & _ & _ & H5).
  unfold rule at 1 2 in E7. cbn [set_depth position tokenTree depth max] in E7.
  unfold seq in E7. cbv beta in E7.
  change (set_depth (u32 (u32 (d + 1) + 1))
            (set_depth (u32 (d + 1))
               {| position := p; tokenTree := t; depth := d; max := m |}))
    with {| position := p; tokenTree := t; depth := u32 (u32 (d + 1) + 1); max := m |} in E7.
  destruct (Reference_merge buffer Hbuf fuel p t (u32 (u32 (d + 1) + 1)) m Hr)
    as (sr & Er & Hpr & Htr).
  assert (Hir : inv buffer sr).
  { pose proof (sound_rules buffer Hbuf (S (S (S (S (S fuel))))) ruleReference eq_refl
                  {| position := p; tokenTree := t; depth := u32 (u32 (d + 1) + 1); max := m |}
                  Hi) as Hs.
    rewrite Er in Hs. exact (proj1 Hs). }
  rewrite Er in E7.
  set (q := fun s0 => rules buffer (S (S (S (S (S fuel))))) ruleChainedQualifiedExpression s0)
    in *.
  assert (Sq : sound buffer q) by (exact (sound_rules buffer Hbuf _ ruleChainedQualifiedExpression eq_refl)).
  assert (Gq : steady buffer q) by (exact (steady_rules buffer Hbuf _ ruleChainedQualifiedExpression eq_refl)).
  unfold star in E7. cbn [loop] in E7.
  destruct sr as [p5 t5 d5 m5]. cbn [position tokenTree] in Hpr, Htr. subst p5.
  assert (Eq : q {| position := p + 5; tokenTree := t5; depth := d5; max := m5 |}
               = rule ruleChainedQualifiedExpression
                   (fun s => rules buffer (S (S (S (S fuel)))) ruleChainedCall s)
                   {| position := p + 5; tokenTree := t5; depth := d5; max := m5 |})
    by (exact (Qualified_at_parenthesis buffer Hbuf fuel (p + 5) t5 d5 m5 H5)).
  rewrite Eq in E7. unfold rule, set_depth in E7.
  cbn [position tokenTree depth max] in E7.
  destruct (rules buffer (S (S (S (S fuel)))) ruleChainedCall _) as [sc | mc | ac] eqn:Ec.
  - (* the call *)
    set (s5 := {| position := p + 5; tokenTree := t5; depth := u32 (d5 + 1); max := m5 |})
      in *.
    assert (Hi5 : inv buffer s5) by exact Hir.
    pose proof (consuming_rules buffer Hbuf _ ruleChainedCall eq_refl s5 sc Hi5 Ec) as Hlt.
    destruct (call_tokens buffer Hbuf _ ruleChainedCall s5 sc eq_refl Hi5 Ec)
      as (inner & dc & Htc & _).
    cbn [s5 position tokenTree] in Hlt, Htc.
    match type of E7 with
    | context [loop ?n q ?s2] =>
        assert (Hi2 : inv buffer s2);
        [ pose proof (Sq _ Hir) as H2; rewrite Eq in H2; unfold rule, set_depth in H2;
          cbn [position tokenTree depth max] in H2; fold s5 in H2; rewrite Ec in H2;
          exact (proj1 H2)
        | destruct (loop n q s2) as [se | me | ae] eqn:El; try discriminate;
          destruct (loop_tokens buffer Hbuf q n s2 se Sq Gq Hi2 El) as [Hle [after Hafter]] ]
    end.
    injection E7 as <-. unfold add in *. cbn [position tokenTree depth max] in *.
    exists (List.map span inner
            ++ [(ruleChainedCall, p + 5, position sc);
                (ruleChainedQualifiedExpression, p + 5, position sc)]
            ++ List.map span after).
    split.
    + rewrite Hafter, Htc. rewrite !map_app, Htr. cbn [List.map span tok_rule tok_begin tok_end].
      rewrite <- !app_assoc. reflexivity.
    + right. exists (List.map span inner), (position sc), (List.map span after).
      split; [reflexivity | lia].
  - (* no call: the chain is empty *)
    injection E7 as <-. unfold add, set_depth, set_max. cbn [position tokenTree depth max].
    exists []. split.
    + rewrite !map_app, Htr. cbn [List.map span tok_rule tok_begin tok_end].
      rewrite <- !app_assoc. reflexivity.
    + now left.
  - discriminate.
Qed.

(** C1, as it holds.  Where the word merge stands directly before an
    opening parenthesis, the productions SimpleMerge, RefMerge and Merge,
    started there, fail, with any amount of fuel and in any state; Level0
    goes to Chained, whose first part is the reference that reads the word
    merge; at the parenthesis the only way on is ChainedCall, the call of
    the reference with its arguments; and every expression that Level0
    reads there has the tokens of the reference merge and then those of
    its chain, which is empty or begins with the call at the
    parenthesis. *)
Theorem merge_before_parenthesis_is_a_call buffer p
  (Hbuf : well_formed_buffer buffer) (Hr : reads buffer p (runes "merge(")) :
  (forall fuel t d m,
      rules buffer (S fuel) ruleSimpleMerge
        {| position := p; tokenTree := t; depth := d; max := m |} = Fail m
      /\ rules buffer (S (S fuel)) ruleRefMerge
           {| position := p; tokenTree := t; depth := d; max := m |} = Fail m
      /\ rules buffer (S (S (S fuel))) ruleMerge
           {| position := p; tokenTree := t; depth := d; max := m |} = Fail m)
  /\ (forall fuel t d m s' r,
      In r [ruleSimpleMerge; ruleRefMerge; ruleMerge] ->
      rules buffer fuel r {| position := p; tokenTree := t; depth := d; max := m |} <> Ok s')
  /\ (forall fuel t d m,
      exists s',
        rules buffer (S (S (S (S (S fuel))))) ruleReference
          {| position := p; tokenTree := t; depth := d; max := m |} = Ok s'
        /\ position s' = p + 5
        /\ List.map span (tokenTree s')
           = List.map span t
             ++ [(ruleKey, p, p + 5); (ruleFollowUpRef, p + 5, p + 5);
                 (ruleReference, p, p + 5)])
  /\ (forall fuel t d m,
      rules buffer (S (S (S (S (S (S (S fuel))))))) ruleLevel0
        {| position := p; tokenTree := t; depth := d; max := m |}
      = rule ruleLevel0
          (rule ruleChained
             (seq (fun s => rules buffer (S (S (S (S (S fuel))))) ruleReference s)
                  (star buffer
                     (fun s => rules buffer (S (S (S (S (S fuel)))))
                                 ruleChainedQualifiedExpression s))))
          {| position := p; tokenTree := t; depth := d; max := m |})
  /\ (forall fuel t d m,
      rules buffer (S (S (S (S (S fuel))))) ruleChainedQualifiedExpression
        {| position := p + 5; tokenTree := t; depth := d; max := m |}
      = rule ruleChainedQualifiedExpression
          (fun s => rules buffer (S (S (S (S fuel)))) ruleChainedCall s)
          {| position := p + 5; tokenTree := t; depth := d; max := m |})
  /\ (forall fuel s s',
      inv buffer s -> position s = p -> rules buffer fuel ruleLevel0 s = Ok s' ->
      exists rest,
        List.map span (tokenTree s')
        = List.map span (tokenTree s)
          ++ [(ruleKey, p, p + 5); (ruleFollowUpRef, p + 5, p + 5);
              (ruleReference, p, p + 5)]
          ++ rest ++ [(ruleChained, p, position s'); (ruleLevel0, p, position s')]
        /\ (rest = [] /\ position s' = p + 5
            \/ exists inner q after,
                 rest = inner ++ [(ruleChainedCall, p + 5, q);
                                  (ruleChainedQualifiedExpression, p + 5, q)] ++ after
                 /\ p + 5 < q <= position s')).
Proof.
  split; [| split; [| split; [| split; [| split]]]].
  - intros fuel t d m. split; [now apply SimpleMerge_rejects |].
    split; [now apply RefMerge_rejects | now apply Merge_rejects].
  - intros fuel t d m s' r [<- | [<- | [<- | []]]].
    + apply (never_matches buffer 1 _ _ m). now apply SimpleMerge_rejects.
    + apply (never_matches buffer 2 _ _ m). now apply RefMerge_rejects.
    + apply (never_matches buffer 3 _ _ m). now apply Merge_rejects.
  - intros fuel t d m. now apply Reference_merge.
  - intros fuel t d m. now apply Level0_merge.
  - intros fuel t d m. apply Qualified_at_parenthesis; [exact Hbuf |].
    now destruct (merge_window buffer p Hr) as (_ & _ & _ & _ & _ & _ & H5).
  - intros fuel s s' Hi Hp E. now apply (Level0_merge_tokens buffer Hbuf p fuel s s').
Qed.

Lemma merge_before_parenthesis_witness :
  let buffer := Init (runes "merge(a)") in
  well_formed_buffer buffer
  /\ reads buffer 0 (runes "merge(")
  /\ rules buffer 3 ruleMerge initial = Fail zeroToken
  /\ (forall fuel s', rules buffer fuel ruleMerge initial <> Ok s')
  /\ match Parse 100 (runes "merge(a)") with
     | Matched tokens =>
         List.map span tokens
         = [(rulews, 0, 0); (ruleKey, 0, 5); (ruleFollowUpRef, 5, 5);
            (ruleReference, 0, 5); (rulews, 6, 6); (ruleStartArguments, 5, 6);
            (rulews, 6, 6); (ruleKey, 6, 7); (ruleFollowUpRef, 7, 7);
            (ruleReference, 6, 7); (ruleChained, 6, 7); (ruleLevel0, 6, 7);
            (ruleLevel1, 6, 7); (ruleLevel2, 6, 7); (ruleLevel3, 6, 7);
            (ruleLevel4, 6, 7); (ruleLevel5, 6, 7); (ruleLevel6, 6, 7);
            (ruleLevel7, 6, 7); (rulews, 7, 7); (ruleExpression, 6, 7);
            (ruleNextExpression, 6, 7); (ruleNameArgumentList, 6, 7);
            (ruleChainedCall, 5, 8); (ruleChainedQualifiedExpression, 5, 8);
            (ruleChained, 0, 8); (ruleLevel0, 0, 8); (ruleLevel1, 0, 8);
            (ruleLevel2, 0, 8); (ruleLevel3, 0, 8); (ruleLevel4, 0, 8);
            (ruleLevel5, 0, 8); (ruleLevel6, 0, 8); (ruleLevel7, 0, 8);
            (rulews, 8, 8); (ruleExpression, 0, 8); (ruleDynaml, 0, 8)]
     | _ => False
     end.
Proof.
  intros buffer.
  assert (Hbuf : well_formed_buffer buffer) by (apply Init_well_formed; vm_compute; reflexivity).
  assert (Hr : reads buffer 0 (runes "merge(")) by (apply reads_window; [lia | reflexivity]).
  destruct (merge_before_parenthesis_is_a_call buffer 0 Hbuf Hr) as (Hrej & Hnever & _).
  split; [exact Hbuf |]. split; [exact Hr |]. split; [| split].
  - exact (proj2 (proj2 (Hrej 0%nat [] 0 zeroToken))).
  - intros fuel s'. apply (Hnever fuel [] 0 zeroToken s' ruleMerge). simpl. tauto.
  - vm_compute. reflexivity.
Defined.

(** C1, where it fails.  In the text merge merge(a) the second word merge
    stands directly before the parenthesis and is not parsed as a call:
    RefMerge, started at the first word, accepts and takes the second word
    as its reference, so that the tokens are those of a merge directive
    from 0 to 11, and the parser ends with a parse error whatever the
    fuel.  The text merge( alone ends with a parse error as well. *)
Lemma merge_before_parenthesis_without_a_call :
  let text := runes "merge merge(a)" in
  reads (Init text) 6 (runes "merge(")
  /\ (exists s',
        rules (Init text) 100 ruleMerge initial = Ok s'
        /\ position s' = 11
        /\ List.map span (tokenTree s')
           = [(rulereq_ws, 5, 6); (ruleKey, 6, 11); (ruleFollowUpRef, 11, 11);
              (ruleReference, 6, 11); (ruleRefMerge, 0, 11); (ruleMerge, 0, 11)])
  /\ (exists e, Parse 300 text = ParseError e)
  /\ (forall fuel tokens, Parse fuel text <> Matched tokens)
  /\ reads (Init (runes "merge(")) 0 (runes "merge(")
  /\ (exists e, Parse 300 (runes "merge(") = ParseError e)
  /\ (forall fuel tokens, Parse fuel (runes "merge(") <> Matched tokens).
Proof.
  intros text.
  assert (H1 : exists m, rules (Init text) 300 ruleDynaml initial = Fail m)
    by (vm_compute; eexists; reflexivity).
  assert (H2 : exists m, rules (Init (runes "merge(")) 300 ruleDynaml initial = Fail m)
    by (vm_compute; eexists; reflexivity).
  destruct H1 as [m1 H1]. destruct H2 as [m2 H2].
  assert (P1 : exists e, Parse 300 text = ParseError e)
    by (unfold Parse; rewrite H1; eexists; reflexivity).
  assert (P2 : exists e, Parse 300 (runes "merge(") = ParseError e)
    by (unfold Parse; rewrite H2; eexists; reflexivity).
  pose proof (never_matches (Init text) 300 ruleDynaml initial m1 H1) as N1.
  pose proof (never_matches (Init (runes "merge(")) 300 ruleDynaml initial m2 H2) as N2.
  clear H1 H2.
  split; [apply reads_window; [lia | reflexivity] |].
  split; [vm_compute; eexists; repeat split; reflexivity |].
  split; [exact P1 |]. clear P1.
  split.
  { intros fuel tokens HP. unfold Parse in HP. specialize (N1 fuel).
    destruct (rules (Init text) fuel ruleDynaml initial) as [s' | m | a];
      [now apply (N1 s') | discriminate | discriminate]. }
  split; [apply reads_window; [lia | reflexivity] |].
  split; [exact P2 |]. clear P2.
  intros fuel tokens HP. unfold Parse in HP. specialize (N2 fuel).
  destruct (rules (Init (runes "merge(")) fuel ruleDynaml initial) as [s' | m | a];
    [now apply (N2 s') | discriminate | discriminate].
Qed.


(** *** What every rule keeps and gives *)

(** X1.  No rule reads the buffer outside its bounds: from a state inside a
    buffer that ends with the end symbol a call never panics, a call that
    succeeds stands at a later position inside the buffer, and the token
    kept for the error message lies inside the buffer. *)
Theorem rules_stay_inside_buffer buffer fuel r s
  (Hbuf : well_formed_buffer buffer) (Hr : is_rule r = true) (Hi : inv buffer s) :
  match rules buffer fuel r s with
  | Ok s' =>
      position s <= position s' /\ 0 <= position s' <= last_index buffer
      /\ tok_ok buffer (max s')
  | Fail m => tok_ok buffer m
  | Abort a => a = OutOfFuel
  end.
Proof.
  pose proof (sound_rules buffer Hbuf fuel r Hr s Hi) as H.
  destruct (rules buffer fuel r s) as [s' | m | a]; simpl in *; [| exact H | exact H].
  destruct H as [[Hp Hm] Hle]. auto.
Qed.

Lemma rules_stay_inside_buffer_witness :
  let buffer := Init (runes "a.b + [1] c") in
  match rules buffer 60 ruleExpression initial with
  | Ok s' =>
      position initial <= position s' /\ 0 <= position s' <= last_index buffer
      /\ tok_ok buffer (max s')
  | Fail m => tok_ok buffer m
  | Abort a => a = OutOfFuel
  end.
Proof.
  intros buffer.
  assert (Hbuf : well_formed_buffer buffer) by (apply Init_well_formed; vm_compute; reflexivity).
  exact (rules_stay_inside_buffer buffer 60 ruleExpression initial Hbuf eq_refl
           (inv_initial buffer Hbuf)).
Defined.

(** X2.  Every rule returns: no rule is left recursive and no loop runs over
    an expression that can succeed without reading, so that seventeen
    nested calls for each rune of the buffer are enough for a call to
    return, with success or failure; and what it returns is the same for
    any larger bound. *)
Theorem every_rule_returns buffer fuel r s
  (Hbuf : well_formed_buffer buffer) (Hr : is_rule r = true) (Hi : inv buffer s)
  (Hfuel : (17 * List.length buffer <= fuel)%nat) :
  ((exists s', rules buffer fuel r s = Ok s') \/ (exists m, rules buffer fuel r s = Fail m))
  /\ forall fuel', (fuel <= fuel')%nat -> rules buffer fuel' r s = rules buffer fuel r s.
Proof.
  assert (Hret : returns (rules buffer fuel r s)).
  { apply (returns_rules buffer Hbuf); [exact Hr | exact Hi |].
    pose proof (rank_below r) as Hrank. unfold ranks in *.
    destruct Hi as [[H0 Hlast] _]. unfold remaining, last_index in *. lia. }
  split.
  - destruct (rules buffer fuel r s) as [s' | m | a]; [eauto | eauto | contradiction].
  - intros fuel' Hle. apply rules_more_fuel; [exact Hle |].
    intros E. rewrite E in Hret. exact Hret.
Qed.

Lemma every_rule_returns_witness :
  let buffer := Init (runes "(( a ") in
  ((exists s', rules buffer 102 ruleDynaml initial = Ok s')
   \/ (exists m, rules buffer 102 ruleDynaml initial = Fail m))
  /\ forall fuel', (102 <= fuel')%nat ->
       rules buffer fuel' ruleDynaml initial = rules buffer 102 ruleDynaml initial.
Proof.
  intros buffer.
  assert (Hbuf : well_formed_buffer buffer) by (apply Init_well_formed; vm_compute; reflexivity).
  apply (every_rule_returns buffer 102 ruleDynaml initial Hbuf eq_refl (inv_initial buffer Hbuf)).
  assert (E : List.length buffer = 6%nat) by reflexivity. rewrite E. lia.
Defined.

(** X3.  The tokens of a call: a call that succeeds leaves the tokens that
    were there as they are and appends the tokens of the calls inside it,
    each of them inside the span the call has read, and last its own token
    over exactly that span. *)
Theorem tokens_of_a_call buffer fuel r s s'
  (Hbuf : well_formed_buffer buffer) (Hr : is_rule r = true) (Hi : inv buffer s)
  (Hrun : rules buffer fuel r s = Ok s') :
  exists inner d,
    tokenTree s'
    = tokenTree s ++ inner
        ++ [{| tok_rule := r; tok_begin := position s; tok_end := position s';
               tok_next := d |}]
    /\ Forall (fun t => position s <= tok_begin t /\ tok_begin t <= tok_end t
                        /\ tok_end t <= position s') inner.
Proof. exact (call_tokens buffer Hbuf fuel r s s' Hr Hi Hrun). Qed.

Lemma tokens_of_a_call_witness :
  let buffer := Init (runes "a.b") in
  exists s' inner d,
    rules buffer 10 ruleReference initial = Ok s'
    /\ tokenTree s'
       = inner ++ [{| tok_rule := ruleReference; tok_begin := 0; tok_end := 3; tok_next := d |}]
    /\ Forall (fun t => 0 <= tok_begin t /\ tok_begin t <= tok_end t /\ tok_end t <= 3) inner.
Proof.
  intros buffer.
  assert (Hbuf : well_formed_buffer buffer) by (apply Init_well_formed; vm_compute; reflexivity).
  destruct (rules buffer 10 ruleReference initial) as [s' | m | a] eqn:E;
    [| vm_compute in E; discriminate | vm_compute in E; discriminate].
  destruct (tokens_of_a_call buffer 10 ruleReference initial s' Hbuf eq_refl
              (inv_initial buffer Hbuf) E) as (inner & d & Ht & Hin).
  assert (Hp : position s' = 3) by (vm_compute in E; injection E as <-; reflexivity).
  rewrite Hp in Ht, Hin. exists s', inner, d. auto.
Defined.

(** X4.  The token kept for the error message never goes back: after a call,
    whether it succeeds or fails, the token ends where it ended before or
    later; and if no token of the tree that is not empty ended behind it
    before a call that succeeds, none does after. *)
Theorem furthest_token_never_goes_back buffer fuel r s
  (Hbuf : well_formed_buffer buffer) (Hr : is_rule r = true) (Hi : inv buffer s) :
  match rules buffer fuel r s with
  | Ok s' =>
      tok_end (max s) <= tok_end (max s')
      /\ (Forall (fun t => tok_begin t = tok_end t \/ tok_end t <= tok_end (max s))
            (tokenTree s) ->
          Forall (fun t => tok_begin t = tok_end t \/ tok_end t <= tok_end (max s'))
            (tokenTree s'))
  | Fail m => tok_end (max s) <= tok_end m
  | Abort _ => True
  end.
Proof.
  pose proof (steady_rules buffer Hbuf fuel r Hr s Hi) as H.
  destruct (rules buffer fuel r s) as [s' | m | a]; [| exact H | exact I].
  destruct H as (Hm & Hc & _). split; [exact Hm | exact Hc].
Qed.

Lemma furthest_token_never_goes_back_witness :
  let buffer := Init (runes "a b ]") in
  match rules buffer 110 ruleDynaml initial with
  | Ok s' => False
  | Fail m => tok_end (max initial) <= tok_end m /\ tok_end m = 4
  | Abort _ => False
  end.
Proof.
  intros buffer.
  assert (Hbuf : well_formed_buffer buffer) by (apply Init_well_formed; vm_compute; reflexivity).
  pose proof (furthest_token_never_goes_back buffer 110 ruleDynaml initial Hbuf eq_refl
                (inv_initial buffer Hbuf)) as H.
  destruct (rules buffer 110 ruleDynaml initial) as [s' | m | a] eqn:E;
    [vm_compute in E; discriminate | | vm_compute in E; discriminate].
  split; [exact H |]. vm_compute in E. injection E as <-. reflexivity.
Defined.
Lemma Init_cases Buffer :
  (exists body, Buffer = body ++ [endSymbol]) /\ Init Buffer = Buffer
  \/ (forall body, Buffer <> body ++ [endSymbol]) /\ Init Buffer = Buffer ++ [endSymbol].
Proof.
  unfold Init. destruct (rev Buffer) as [| c l] eqn:E.
  - right. split; [| reflexivity]. intros body ->. rewrite rev_app_distr in E. discriminate.
  - assert (HB : Buffer = rev l ++ [c]).
    { rewrite <- (rev_involutive Buffer), E. reflexivity. }
    destruct (Z.eqb_spec c endSymbol) as [-> | Hne]; cbn [negb].
    + left. split; [now exists (rev l) | reflexivity].
    + right. split; [| reflexivity]. intros body Hb. rewrite Hb in HB.
      apply app_inj_tail in HB as [_ <-]. contradiction.
Qed.

(** X5.  [Init] makes the buffer end with the end symbol: it appends the
    symbol unless the text already ends with it, so that a second [Init]
    changes nothing, and the text is the buffer or the buffer without its
    last rune. *)
Theorem Init_appends_the_end_symbol_once :
  (forall Buffer, exists body, Init Buffer = body ++ [endSymbol])
  /\ (forall Buffer, Init (Init Buffer) = Init Buffer)
  /\ (forall Buffer, Init Buffer = Buffer <-> exists body, Buffer = body ++ [endSymbol])
  /\ (forall Buffer, Init Buffer = Buffer \/ Init Buffer = Buffer ++ [endSymbol])
  /\ Init [] = [endSymbol].
Proof.
  assert (Hend : forall Buffer, exists body, Init Buffer = body ++ [endSymbol]).
  { intros Buffer. destruct (Init_cases Buffer) as [[[body Hb] ->] | [_ ->]]; eauto. }
  assert (Hiff : forall Buffer,
             Init Buffer = Buffer <-> exists body, Buffer = body ++ [endSymbol]).
  { intros Buffer. destruct (Init_cases Buffer) as [[Hb E] | [Hb E]].
    - tauto.
    - split.
      + rewrite E. intros H. exfalso. apply (f_equal (@List.length _)) in H.
        rewrite length_app in H. simpl in H. lia.
      + intros [body H]. now apply Hb in H. }
  split; [exact Hend |]. split; [| split; [exact Hiff | split]].
  - intros Buffer. apply Hiff. apply Hend.
  - intros Buffer. destruct (Init_cases Buffer) as [[_ E] | [_ E]]; auto.
  - reflexivity.
Qed.

(** X6.  A match reads the whole text: when [Parse] matches, the last token
    is the one of [Dynaml], it begins at 0 and ends at the index of an end
    symbol of the buffer, which for a text without the end symbol is the
    length of the text. *)
Theorem a_match_reads_the_whole_text fuel Buffer tokens
  (HP : Parse fuel Buffer = Matched tokens) :
  exists inner d n,
    tokens = inner ++ [{| tok_rule := ruleDynaml; tok_begin := 0; tok_end := n;
                          tok_next := d |}]
    /\ 0 <= n
    /\ nth_error (Init Buffer) (Z.to_nat n) = Some endSymbol
    /\ (~ In endSymbol Buffer -> n = Z.of_nat (List.length Buffer)).
Proof.
  unfold Parse in HP.
  destruct (rules (Init Buffer) fuel ruleDynaml initial) as [s' | m | a] eqn:E;
    try discriminate.
  injection HP as <-. destruct fuel as [| fuel]; [discriminate |].
  rewrite rules_S in E. cbv beta iota delta [production] in E. unfold rule in E.
  cbn [seqs] in E. unfold seq at 1 in E.
  destruct (alts _ _) as [sA | mA | aA]; try discriminate.
  unfold notp, matchDot, peek in E.
  destruct (char_at (Init Buffer) (position sA)) as [x |] eqn:Hx; [| discriminate].
  destruct (Z.eqb_spec x endSymbol) as [-> | Hne]; cbn [negb] in E; [| discriminate].
  injection E as <-. unfold add, set_depth, set_max. cbn [tokenTree position depth].
  assert (Hn : 0 <= position sA /\ nth_error (Init Buffer) (Z.to_nat (position sA)) = Some endSymbol).
  { unfold char_at in Hx. destruct (Z.ltb_spec (position sA) 0); [discriminate |]. auto. }
  destruct Hn as [H0 Hnth].
  exists (tokenTree sA), (u32 (depth sA - 1)), (position sA).
  split; [reflexivity |]. split; [exact H0 |]. split; [exact Hnth |].
  intros Hin. destruct (Init_cases Buffer) as [[[body Hb] _] | [_ EI]].
  - exfalso. apply Hin. rewrite Hb. apply in_or_app. right. now left.
  - rewrite EI in Hnth.
    destruct (Nat.lt_ge_cases (Z.to_nat (position sA)) (List.length Buffer)) as [Hlt | Hge].
    + rewrite nth_error_app1 in Hnth by exact Hlt. exfalso. apply Hin.
      now apply nth_error_In in Hnth.
    + assert (Hlen : (Z.to_nat (position sA) < List.length (Buffer ++ [endSymbol]))%nat)
        by (apply nth_error_Some; congruence).
      rewrite length_app in Hlen. simpl in Hlen. lia.
Qed.

Lemma a_match_reads_the_whole_text_witness :
  exists tokens inner d,
    Parse 100 (runes "a.b x") = Matched tokens
    /\ tokens = inner ++ [{| tok_rule := ruleDynaml; tok_begin := 0; tok_end := 5;
                             tok_next := d |}].
Proof.
  destruct (Parse 100 (runes "a.b x")) as [tokens | e | a] eqn:E;
    [| vm_compute in E; discriminate | vm_compute in E; discriminate].
  destruct (a_match_reads_the_whole_text 100 (runes "a.b x") tokens E)
    as (inner & d & n & Ht & _ & _ & Hn).
  assert (H5 : n = 5).
  { apply Hn. vm_compute. intros H. repeat destruct H as [H | H]; try discriminate H. exact H. }
  exists tokens, inner, d. split; [reflexivity |]. now rewrite <- H5.
Defined.


(** *** [translatePositions] on any positions *)

Lemma insert_sorted_In x l k : In k (insert_sorted x l) <-> k = x \/ In k l.
Proof.
  induction l as [| y l IH]; simpl; [intuition |].
  destruct (x <=? y); simpl; [intuition |]. rewrite IH. intuition.
Qed.

Lemma sort_ints_In l k : In k (sort_ints l) <-> In k l.
Proof.
  induction l as [| x l IH]; simpl; [tauto |].
  rewrite insert_sorted_In, IH. intuition.
Qed.

(** A list in ascending order. *)
Fixpoint ascending (l : list Z) : Prop :=
  match l with
  | [] => True
  | x :: l' => Forall (fun y => x <= y) l' /\ ascending l'
  end.

Lemma insert_sorted_ascending x l : ascending l -> ascending (insert_sorted x l).
Proof.
  induction l as [| y l IH]; simpl; [intros _; split; [constructor | exact I] |].
  intros [Hy Hl]. destruct (Z.leb_spec x y) as [Hle | Hgt]; simpl.
  - split; [| split; assumption]. constructor; [exact Hle |].
    eapply Forall_impl; [| exact Hy]. simpl. intros z Hz. lia.
  - split; [| now apply IH]. apply List.Forall_forall. intros z Hz.
    apply insert_sorted_In in Hz as [-> | Hz]; [lia |].
    rewrite List.Forall_forall in Hy. now apply Hy.
Qed.

Lemma sort_ints_ascending l : ascending (sort_ints l).
Proof. induction l as [| x l IH]; simpl; [exact I | now apply insert_sorted_ascending]. Qed.

Lemma skip_equal_spec i rest :
  Forall (fun y => i <= y) rest -> ascending rest ->
  Forall (fun y => i + 1 <= y) (skip_equal i rest)
  /\ ascending (skip_equal i rest)
  /\ forall k, In k rest <-> (k = i /\ In i rest) \/ In k (skip_equal i rest).
Proof.
  induction rest as [| p rest IH]; intros Hge Hasc; [simpl; intuition |].
  inversion Hge as [| ? ? Hp Hrest]; subst. destruct Hasc as [Hall Hasc].
  cbn [skip_equal]. destruct (Z.eqb_spec i p) as [-> | Hne].
  - destruct (IH Hrest Hasc) as (H1 & H2 & H3). split; [exact H1 |]. split; [exact H2 |].
    intros k. simpl. rewrite H3. intuition.
  - split; [| split].
    + constructor; [lia |]. eapply Forall_impl; [| exact Hall]. simpl. intros z Hz. lia.
    + split; assumption.
    + intros k. split; [now right |]. intros [[-> [H | H]] | H]; try assumption.
      * congruence.
      * now right.
Qed.

(** A first position behind the index is never found, and nothing is
    recorded. *)
Lemma search_behind buf : forall i p rest l s (tr : gmap Z textPosition),
  p < i -> search buf i (p :: rest) l s tr = Some tr.
Proof.
  induction buf as [| c buf IH]; intros i p rest l s tr Hp; [reflexivity |].
  cbn [search]. destruct (Z.eqb_spec i p); [lia |]. apply IH. lia.
Qed.

Lemma search_ascending buf : forall i ps l s (tr : gmap Z textPosition),
  ps <> [] -> ascending ps -> Forall (fun p => i <= p) ps ->
  exists tr',
    search buf i ps l s tr = Some tr'
    /\ (forall k, In k ps -> k < i + Z.of_nat (List.length buf) ->
          tr' !! k = Some (count_from (firstn (S (Z.to_nat (k - i))) buf) l s))
    /\ (forall k, ~ (In k ps /\ k < i + Z.of_nat (List.length buf)) -> tr' !! k = tr !! k).
Proof.
  induction buf as [| c buf IH]; intros i ps l s tr Hne Hasc Hge.
  - exists tr. split; [reflexivity |]. split; [| reflexivity].
    intros k Hin Hk. rewrite List.Forall_forall in Hge. specialize (Hge k Hin). simpl in Hk. lia.
  - destruct ps as [| p rest]; [contradiction |]. cbn [search].
    set (l' := if c =? rune_of "010" then l + 1 else l).
    set (s' := if c =? rune_of "010" then 0 else s + 1).
    assert (Hhead : count_from [c] l s = {| line := l'; symbol := s' |}).
    { subst l' s'. simpl. now destruct (c =? rune_of "010"). }
    assert (Hshift : forall k, i + 1 <= k ->
              count_from (firstn (S (Z.to_nat (k - i))) (c :: buf)) l s
              = count_from (firstn (S (Z.to_nat (k - (i + 1)))) buf) l' s').
    { intros k Hk. replace (Z.to_nat (k - i)) with (S (Z.to_nat (k - (i + 1)))) by lia.
      subst l' s'. cbn [firstn count_from]. now destruct (c =? rune_of "010"). }
    inversion Hge as [| ? ? Hp Hrest]; subst. destruct Hasc as [Hall Hasc].
    simpl List.length. destruct (Z.eqb_spec i p) as [-> | Hip].
    + destruct (skip_equal_spec p rest Hall Hasc) as (Hge' & Hasc' & Hin').
      destruct (skip_equal p rest) as [| q rest'] eqn:Eskip.
      * eexists. split; [reflexivity |]. split.
        -- intros k Hin Hk.
           assert (k = p) by (destruct Hin as [<- | Hin]; [reflexivity |];
                              apply Hin' in Hin as [[-> _] | []]; reflexivity).
           subst k. rewrite lookup_insert_eq, Z.sub_diag. change (Z.to_nat 0) with 0%nat.
           simpl firstn. rewrite firstn_O. now rewrite Hhead.
        -- intros k Hk. apply lookup_insert_ne. intros <-. apply Hk.
           split; [now left | lia].
      * destruct (IH (p + 1) (q :: rest') l' s'
                    (<[p := {| line := l'; symbol := s' |}]> tr)
                    ltac:(discriminate) Hasc' Hge') as (tr' & E & Hyes & Hno).
        exists tr'. split; [exact E |]. split.
        -- intros k Hin Hk. destruct (Z.eq_dec k p) as [-> | Hkp].
           ++ rewrite Hno.
              ** rewrite lookup_insert_eq, Z.sub_diag. change (Z.to_nat 0) with 0%nat.
                 simpl firstn. rewrite firstn_O. now rewrite Hhead.
              ** intros [Hq _]. rewrite List.Forall_forall in Hge'. specialize (Hge' p Hq). lia.
           ++ assert (Hk' : In k (q :: rest')).
              { destruct Hin as [<- | Hin]; [contradiction |].
                apply Hin' in Hin as [[-> _] | Hin]; [contradiction | exact Hin]. }
              rewrite (Hyes k Hk') by lia. rewrite List.Forall_forall in Hge'.
              specialize (Hge' k Hk'). now rewrite Hshift by lia.
        -- intros k Hk. rewrite Hno.
           ++ apply lookup_insert_ne. intros <-. apply Hk. split; [now left | lia].
           ++ intros [Hq Hlt]. apply Hk. split; [| lia]. right. apply Hin'. now right.
    + destruct (IH (i + 1) (p :: rest) l' s' tr ltac:(discriminate)
                  ltac:(split; assumption)
                  ltac:(constructor; [lia |];
                        eapply Forall_impl; [| exact Hall]; simpl; intros z Hz; lia))
        as (tr' & E & Hyes & Hno).
      exists tr'. split; [exact E |]. split.
      * intros k Hin Hk. rewrite (Hyes k Hin) by lia.
        assert (i + 1 <= k).
        { destruct Hin as [<- | Hin]; [lia |]. rewrite List.Forall_forall in Hall.
          specialize (Hall k Hin). lia. }
        now rewrite Hshift by lia.
      * intros k Hk. apply Hno. intros [Hin Hlt]. apply Hk. split; [exact Hin | lia].
Qed.

(** X7.  [translatePositions] gives every position that lies in the buffer
    its line and its symbol, counted over the buffer up to and with the rune
    at that position, and it records nothing else; the positions need not be
    sorted and may repeat.  No position at all makes it panic on a buffer
    that is not empty, and a negative position among them leaves the map
    empty. *)
Theorem translatePositions_gives_line_and_symbol buffer :
  (forall positions,
      positions <> [] -> Forall (fun p => 0 <= p) positions ->
      exists tr,
        translatePositions buffer positions = Some tr
        /\ (forall k, In k positions -> k < Z.of_nat (List.length buffer) ->
              tr !! k = Some (line_symbol buffer k))
        /\ (forall k, ~ (In k positions /\ k < Z.of_nat (List.length buffer)) ->
              tr !! k = None))
  /\ (buffer <> [] -> translatePositions buffer [] = None)
  /\ (forall positions p,
        In p positions -> p < 0 -> translatePositions buffer positions = Some ∅).
Proof.
  split; [| split].
  - intros positions Hne Hpos. unfold translatePositions.
    assert (Hne' : sort_ints positions <> []).
    { destruct positions as [| p ps]; [contradiction |]. intros E.
      assert (Hin : In p (sort_ints (p :: ps))) by (apply sort_ints_In; now left).
      rewrite E in Hin. exact Hin. }
    assert (Hge : Forall (fun p => 0 <= p) (sort_ints positions)).
    { apply List.Forall_forall. intros k Hk. apply (proj1 (sort_ints_In _ _)) in Hk.
      rewrite List.Forall_forall in Hpos. apply Hpos, Hk. }
    destruct (search_ascending buffer 0 (sort_ints positions) 1 0 ∅ Hne'
                (sort_ints_ascending positions) Hge) as (tr & E & Hyes & Hno).
    exists tr. split; [exact E |]. split.
    + intros k Hin Hk. rewrite (Hyes k) by (rewrite ?sort_ints_In; assumption || lia).
      unfold line_symbol. now rewrite Z.sub_0_r.
    + intros k Hk. rewrite Hno; [apply lookup_empty |].
      rewrite sort_ints_In. intros [Hin Hlt]. apply Hk. split; [exact Hin | lia].
  - intros Hne. destruct buffer as [| c buf]; [now destruct Hne | reflexivity].
  - intros positions p Hin Hp. unfold translatePositions.
    pose proof (sort_ints_ascending positions) as Hasc.
    apply (proj2 (sort_ints_In _ _)) in Hin.
    destruct (sort_ints positions) as [| q rest]; [contradiction |].
    apply search_behind. destruct Hasc as [Hall _].
    destruct Hin as [-> | Hin]; [exact Hp |].
    rewrite List.Forall_forall in Hall. specialize (Hall p Hin). lia.
Qed.


(** *** What [String] reads, exactly *)

Section StringExactly.

Variable buffer : list rune.
Hypothesis Hbuf : well_formed_buffer buffer.

Lemma string_item_end p t d m :
  char_at buffer p = Some endSymbol ->
  string_item buffer {| position := p; tokenTree := t; depth := d; max := m |} = Fail m.
Proof using Hbuf.
  unfold endSymbol. intros H0. unfold string_item. peg_run Hbuf. reflexivity.
Qed.

(** The loop of [String] stops before a quote or the end symbol; what it
    has read closes if it stops before a quote. *)
Lemma string_items_inv n : forall p t d m s',
  0 <= p <= last_index buffer ->
  loop n (string_item buffer) {| position := p; tokenTree := t; depth := d; max := m |} = Ok s' ->
  exists body,
    reads buffer p body
    /\ s' = {| position := p + len body; tokenTree := t; depth := d; max := m |}
    /\ (char_at buffer (p + len body) = Some quote -> closes body = true).
Proof using Hbuf.
  induction n as [| n IH]; intros p t d m s' Hp Hl; [discriminate |].
  cbn [loop] in Hl. destruct (char_at_some buffer p Hp) as [x Hx].
  assert (Hstop : string_item buffer {| position := p; tokenTree := t; depth := d; max := m |}
                  = Fail m ->
                  exists body,
                    reads buffer p body
                    /\ s' = {| position := p + len body; tokenTree := t; depth := d; max := m |}
                    /\ (char_at buffer (p + len body) = Some quote -> closes body = true)).
  { intros E. rewrite E in Hl. injection Hl as <-. exists []. rewrite len_nil, Z.add_0_r.
    split; [apply reads_nil |]. split; [reflexivity | reflexivity]. }
  destruct (Z.eq_dec x quote) as [-> | Hq]; [now apply Hstop, string_item_quote |].
  destruct (Z.eq_dec x endSymbol) as [-> | He]; [now apply Hstop, string_item_end |].
  destruct (char_at_next buffer Hbuf p x Hx He) as (_ & Hle & _).
  destruct (char_at_some buffer (p + 1) ltac:(lia)) as [y Hy].
  destruct (Z.eq_dec x backslash) as [-> | Hb].
  - destruct (Z.eq_dec y quote) as [-> | Hyq].
    + rewrite string_item_pair in Hl by assumption.
      assert (Hye : quote <> endSymbol) by discriminate.
      destruct (char_at_next buffer Hbuf (p + 1) quote Hy Hye) as (_ & Hle2 & _).
      destruct (IH (p + 2) t d m s' ltac:(lia) Hl) as (body & Hr & -> & Hc).
      exists (backslash :: quote :: body). rewrite !len_cons.
      replace (p + (1 + (1 + len body))) with (p + 2 + len body) by lia.
      split; [| split; [reflexivity | exact Hc]].
      apply reads_cons; [exact Hx |]. apply reads_cons; [exact Hy |].
      now replace (p + 1 + 1) with (p + 2) by lia.
    + rewrite (string_item_backslash buffer Hbuf p t d m y) in Hl by assumption.
      destruct (IH (p + 1) t d m s' ltac:(lia) Hl) as (body & Hr & -> & Hc).
      exists (backslash :: body). rewrite len_cons.
      replace (p + (1 + len body)) with (p + 1 + len body) by lia.
      split; [now apply reads_cons |]. split; [reflexivity |].
      intros Hend. destruct body as [| c rest].
      * rewrite len_nil, Z.add_0_r in Hend. congruence.
      * assert (c = y) by (apply reads_head in Hr; congruence). subst c.
        rewrite closes_backslash by exact Hyq. now apply Hc.
  - rewrite (string_item_plain buffer Hbuf p t d m x) in Hl by assumption.
    destruct (IH (p + 1) t d m s' ltac:(lia) Hl) as (body & Hr & -> & Hc).
    exists (x :: body). rewrite len_cons.
    replace (p + (1 + len body)) with (p + 1 + len body) by lia.
    split; [now apply reads_cons |]. split; [reflexivity |].
    intros Hend. rewrite closes_plain by assumption. now apply Hc.
Qed.

Lemma String_inv fuel p p' :
  0 <= p <= last_index buffer -> accepted (rules buffer fuel ruleString) p p' ->
  exists body,
    closes body = true /\ reads buffer p (quote :: body ++ [quote])
    /\ p' = p + len body + 2.
Proof using Hbuf.
  intros Hp H. apply accepted_rules in H as (fuel' & -> & H).
  cbv beta iota delta [production] in H. apply accepted_rule in H. cbn [seqs] in H.
  apply accepted_seq in H as (p1 & Hopen & H).
  apply (accepted_chr buffer Hbuf) in Hopen as (Hopen & -> & Hle); [| exact Hp].
  apply accepted_seq in H as (p2 & Hitems & Hclose).
  destruct Hitems as (t & d & m & t' & d' & m' & E).
  apply string_items_inv in E as (body & Hr & Es & Hc); [| lia].
  injection Es as -> _ _ _.
  assert (Hb : 0 <= p + 1 + len body <= last_index buffer).
  { destruct Hclose as (t1 & d1 & m1 & t2 & d2 & m2 & E). unfold chr, peek in E.
    cbn [position] in E.
    destruct (char_at buffer (p + 1 + len body)) as [x |] eqn:Hx; [| discriminate].
    exact (char_at_bound buffer _ _ Hx). }
  apply (accepted_chr buffer Hbuf) in Hclose as (Hclose & -> & _); [| exact Hb].
  exists body. split; [now apply Hc |]. split; [| lia].
  apply reads_cons; [exact Hopen |]. apply reads_join; [exact Hr |].
  apply reads_cons; [exact Hclose | apply reads_nil].
Qed.

End StringExactly.

(** X8.  [String] reads exactly the literals that close: it succeeds at a
    position if and only if the text there is a quote, an interior and a
    quote, where the interior, read from the left, is made of pairs of a
    backslash and a quote and of single runes other than a quote and the
    end symbol, and does not end in a backslash that is no part of such a
    pair; it then stands right behind the closing quote. *)
Theorem String_reads_exactly buffer (Hbuf : well_formed_buffer buffer) :
  (forall fuel p body,
      closes body = true -> reads buffer p (quote :: body ++ [quote]) ->
      accepts (rules buffer (S fuel) ruleString) p (p + len body + 2))
  /\ (forall fuel p p',
      0 <= p <= last_index buffer -> accepted (rules buffer fuel ruleString) p p' ->
      exists body,
        closes body = true /\ reads buffer p (quote :: body ++ [quote])
        /\ p' = p + len body + 2).
Proof.
  split.
  - intros fuel p body Hc Hr t d m.
    destruct (String_accepts buffer Hbuf fuel body p t d m Hc Hr) as (d' & m' & E).
    rewrite E. unfold len. eauto.
  - intros fuel p p'. now apply String_inv.
Qed.

Lemma String_reads_exactly_witness :
  let buffer := Init (quote :: runes "a\" ++ [quote; 98; quote; 99]) in
  accepts (rules buffer 1 ruleString) 0 6
  /\ forall p', accepted (rules buffer 1 ruleString) 0 p' -> p' = 6.
Proof.
  intros buffer.
  assert (Hbuf : well_formed_buffer buffer) by (apply Init_well_formed; vm_compute; reflexivity).
  destruct (String_reads_exactly buffer Hbuf) as [Hyes Hno].
  assert (H6 : accepts (rules buffer 1 ruleString) 0 6).
  { refine (Hyes 0%nat 0 [97; backslash; quote; 98] eq_refl _).
    apply reads_window; [lia | reflexivity]. }
  split; [exact H6 |].
  intros p' (t & d & m & t' & d' & m' & E).
  destruct (H6 t d m) as (t6 & d6 & m6 & E'). rewrite E' in E. now injection E as <-.
Defined.


(** *** The tag names of [CheckTagName] are tags of the grammar *)

Definition alnum (x : rune) : bool :=
  in_rng "a" "z" x || (in_rng "A" "Z" x || in_rng "0" "9" x).

Definition letter (x : rune) : bool := in_rng "a" "z" x || in_rng "A" "Z" x.

Lemma alnum_tag_char x : alnum x = true -> tag_char x = true.
Proof. unfold alnum. intros H. class_lia. Qed.

Lemma letter_tag_start x : letter x = true -> tag_start x = true.
Proof. unfold letter. intros H. class_lia. Qed.

Lemma last_behind (l1 l2 : list rune) d : l2 <> [] -> List.last (l1 ++ l2) d = List.last l2 d.
Proof.
  intros Hne. induction l1 as [| x l1 IH]; [reflexivity |].
  simpl. destruct (l1 ++ l2) eqn:E; [| exact IH].
  apply app_eq_nil in E as [_ ->]. contradiction.
Qed.

(** The loop of [CheckTagName] in the middle of a name: [cur] is the
    component read so far. *)
Lemma check_tag_text name : forall cur,
  TagName.check (len cur) name = None ->
  forallb alnum cur = true ->
  match cur with c :: _ => letter c | [] => true end = true ->
  cur ++ name <> [] -> List.last (cur ++ name) 0 <> rune_of ":" ->
  exists c more, cur ++ name = tag_text c more /\ is_tag c more = true.
Proof.
  induction name as [| x rest IH]; intros cur Hc Hall Hhd Hne Hlast.
  - rewrite app_nil_r in *. exists cur, []. unfold tag_text, tag_more, is_tag.
    simpl. rewrite app_nil_r. split; [reflexivity |].
    destruct cur as [| c r]; [contradiction |]. simpl in *.
    apply andb_true_iff in Hall as [_ Hr]. rewrite (letter_tag_start c Hhd). simpl.
    rewrite andb_true_r. apply forallb_forall. intros y Hy.
    rewrite forallb_forall in Hr. now apply alnum_tag_char, Hr.
  - cbn [TagName.check] in Hc. unfold in_range in Hc. norm_runes.
    assert (Hlen : len cur = 0 <-> cur = []).
    { unfold len. destruct cur; simpl; split; intros; try lia; congruence. }
    destruct (Z.eqb_spec x 58) as [-> | Hx].
    + destruct (Z.eqb_spec (len cur) 0) as [E | E]; [discriminate |].
      assert (Hcur : cur <> []) by tauto.
      assert (Hrest : rest <> []).
      { intros ->. apply Hlast. now rewrite last_last. }
      destruct (IH [] Hc eq_refl eq_refl Hrest) as (c' & more' & E' & Ht').
      { intros H. apply Hlast. simpl in H.
        change (cur ++ 58 :: rest) with (cur ++ [58] ++ rest). rewrite app_assoc.
        now rewrite last_behind by exact Hrest. }
      simpl in E'. exists cur, ((58, c') :: more'). unfold tag_text, tag_more, is_tag in *.
      cbn [flat_map fst snd forallb]. split; [now rewrite E' |].
      apply andb_true_iff in Ht' as [Hc' Hm']. rewrite Hc', Hm'.
      destruct cur as [| c r]; [contradiction |]. simpl in *.
      apply andb_true_iff in Hall as [_ Hr]. rewrite (letter_tag_start c Hhd). simpl.
      rewrite andb_true_r. apply forallb_forall. intros y Hy.
      rewrite forallb_forall in Hr. now apply alnum_tag_char, Hr.
    + assert (Ecur : len (cur ++ [x]) = len cur + 1) by (rewrite len_app, len_cons, len_nil; lia).
      assert (Hstep : TagName.check (len (cur ++ [x])) rest = None
                      /\ alnum x = true /\ (cur = [] -> letter x = true)).
      { rewrite Ecur. unfold alnum, letter, in_rng. norm_runes.
        destruct ((48 <=? x) && (x <=? 57)) eqn:E1.
        - destruct (Z.eqb_spec (len cur + 1) 1) as [E | E]; [discriminate |].
          split; [exact Hc |]. rewrite !orb_true_r. split; [reflexivity |].
          intros ->. unfold len in E. simpl in E. lia.
        - destruct ((97 <=? x) && (x <=? 122)) eqn:E2; [auto |].
          destruct ((65 <=? x) && (x <=? 90)) eqn:E3; [auto | discriminate]. }
      destruct Hstep as (Hc' & Hx' & Hl').
      destruct (IH (cur ++ [x]) Hc') as (c & more & E & Ht).
      * rewrite forallb_app, Hall. simpl. now rewrite Hx'.
      * destruct cur as [| c r]; [now apply Hl' | exact Hhd].
      * now destruct cur.
      * now rewrite <- app_assoc.
      * exists c, more. split; [| exact Ht]. now rewrite <- E, <- app_assoc.
Qed.

(** X9.  A name that [CheckTagName] accepts, that is not empty and does not
    end in a colon, is a tag of the grammar: where the name stands before
    two colons, [TagPrefix] reads the name and the colons. *)
Theorem checked_tag_names_are_tags buffer fuel name p
  (Hbuf : well_formed_buffer buffer)
  (Hcheck : TagName.CheckTagName name = None)
  (Hname : name <> [])
  (Hlast : List.last name 0 <> rune_of ":")
  (Hr : reads buffer p (name ++ runes "::")) :
  accepts (rules buffer (S (S (S fuel))) ruleTagPrefix) p (p + len name + 2).
Proof.
  destruct (check_tag_text name [] Hcheck eq_refl eq_refl Hname Hlast) as (c & more & E & Ht).
  simpl in E. subst name. now apply TagPrefix_tag.
Qed.

Lemma checked_tag_names_are_tags_witness :
  let buffer := Init (runes "lib:v2::x") in
  TagName.CheckTagName (runes "lib:v2") = None
  /\ accepts (rules buffer 3 ruleTagPrefix) 0 8.
Proof.
  intros buffer.
  assert (Hbuf : well_formed_buffer buffer) by (apply Init_well_formed; vm_compute; reflexivity).
  split; [reflexivity |].
  refine (checked_tag_names_are_tags buffer 0 (runes "lib:v2") 0 Hbuf eq_refl _ _ _).
  - discriminate.
  - vm_compute. discriminate.
  - apply reads_window; [lia | reflexivity].
Defined.

End Peg.

(** ** cmd/merge.go: the diagnostics of the merge command *)

Module MergeCmd.

#[local] Open Scope string_scope.

Definition nl : string := String "010" EmptyString.

(** A Go [error]: [None] is [nil], [Some text] an error whose [Error()] is
    [text]. *)
Definition error := option string.

(** [fmt.Sprintln] of operands that are strings or errors: a space between
    the operands, a newline at the end. *)
Definition Sprintln (operands : list string) : string := String.concat " " operands ++ nl.

(** [%d] of an index. *)
Definition decimal (n : nat) : string := NilZero.string_of_uint (Nat.to_uint n).

(** The text of [legend]. *)
Definition legend : string :=
  nl ++ "error classification:" ++ nl
     ++ " *: error in local dynaml expression" ++ nl
     ++ " @: dependent of or involved in a cycle" ++ nl
     ++ " -: depending on a node with an error".

(** [flow.Options], the fields the command reads. *)
Record Options := { Partial : bool; PreserveTemporary : bool }.

(** The calls of [log.Fatalln] of [merge] from the legend on. *)
Inductive site : Type :=
| FeatureFlag | BindingsNoMap | PrepareStubs | Apply | SubpathNotFound | StateFile
| InvalidExpression | ExpressionFailed | NoMapDocument | SelectionNotFound | Marshalling.

(** How the command ends: [log.Fatalln] prints its message and exits, or
    the documents are printed. *)
Inductive outcome : Type :=
| Fatal (at_ : site) (message : string)
| Printed (stdout : string).

(** What [yaml.ToJSON] and [candiedyaml.Marshal] return. *)
Inductive marshalled : Type :=
| Bytes (bytes : string)
| MarshalError (text : string).

(** A document of the template with what the calls on it return:
    [templateYAML.Value() != nil], [flow.Apply], [flowed.Temporary()],
    [yaml.FindR] for the sub path, [ioutil.WriteFile] for the state,
    [dynaml.Parse] and [flow.Cascade] for the expression, whether the
    document is a map, [yaml.FindR] for the selection, the elements if the
    document is a list with their marshalling, and its own marshalling. *)
Record document := {
  has_value : bool;
  apply_error : error;
  temporary : bool;
  subpath_found : bool;
  state_written : bool;
  parse_error : error;
  is_map : bool;
  cascade_error : error;
  selection_found : bool;
  elements : option (list marshalled);
  marshal : marshalled
}.

(** The arguments of [merge], the flags of the command, and what the calls
    before the loop return: [features.Set], whether bindings are given and
    are a map, whether an environment is needed, and [flow.PrepareStubs]. *)
Record run := {
  processingOptions : Options;
  opts : Options;
  json : bool;
  split : bool;
  subpath : string;
  selection : list string;
  stateFilePath : string;
  expr : string;
  feature_error : error;
  bindings_given : bool;
  bindings_are_map : bool;
  features_or_tags : bool;
  prepare_error : error;
  templateYAMLs : list document
}.

(** What a round of the loop over the documents does to [result]. *)
Inductive round : Type :=
| Exit (at_ : site) (message : string)
| Continue (appended : list (option string)).

Section Command.

(** [%q], [strconv.Quote] of the standard library. *)
Variable Quote : string -> string.

Definition Fatalln (at_ : site) (operands : list string) : round := Exit at_ (Sprintln operands).

(** The elements of a list document, with [split]. *)
Fixpoint marshal_elements (doc : string) (list : list marshalled) : round :=
  match list with
  | [] => Continue []
  | MarshalError err :: _ =>
      Fatalln Marshalling ["error marshalling manifest" ++ doc ++ ":"; err]
  | Bytes bytes :: list' =>
      match marshal_elements doc list' with
      | Continue result => Continue (Some bytes :: result)
      | Exit at_ message => Exit at_ message
      end
  end.

(** [if cond { log.Fatalln(...) }]: the exit, if any, or else the rest. *)
Definition or_else (exit : option round) (rest : round) : round :=
  match exit with
  | Some e => e
  | None => rest
  end.

Notation "'check' exit ; rest" := (or_else exit rest)
  (at level 10, exit at level 100, rest at level 200, only parsing).

(** The body of the loop over [templateYAMLs]. *)
Definition process (r : run) (no : nat) (templateYAML : document) : round :=
  let doc := if (1 <? List.length (templateYAMLs r))%nat
             then " (document " ++ decimal (no + 1) ++ ")" else EmptyString in
  if negb (has_value templateYAML) then Continue [None] else
  check (match apply_error templateYAML with
         | Some err =>
             if negb (Partial (opts r))
             then Some (Fatalln Apply ["error generating manifest" ++ doc ++ ":"; err; legend])
             else None
         | None => None
         end);
  if negb (PreserveTemporary (opts r)) && temporary templateYAML then Continue [] else
  check (if negb (String.eqb (subpath r) EmptyString) && negb (subpath_found templateYAML)
         then Some (Fatalln SubpathNotFound
                      ["path " ++ Quote (subpath r) ++ " not found" ++ doc])
         else None);
  check (if negb (String.eqb (stateFilePath r) EmptyString) && negb (state_written templateYAML)
         then Some (Fatalln StateFile ["cannot write state file " ++ Quote (stateFilePath r)])
         else None);
  check (if (0 <? String.length (expr r))%nat then
           match parse_error templateYAML with
           | Some err =>
               Some (Fatalln InvalidExpression
                       ["invalid expression " ++ Quote (expr r) ++ ": " ++ err])
           | None =>
               if is_map templateYAML then
                 match cascade_error templateYAML with
                 | Some err =>
                     Some (Fatalln ExpressionFailed
                             ["expression " ++ Quote (expr r) ++ " failed: " ++ err])
                 | None => None
                 end
               else Some (Fatalln NoMapDocument ["no map document"])
           end
         else None);
  check (if (0 <? List.length (selection r))%nat && negb (selection_found templateYAML)
         then Some (Fatalln SelectionNotFound
                      ["path " ++ Quote (subpath r) ++ " not found" ++ doc])
         else None);
  match (if split r then elements templateYAML else None) with
  | Some list => marshal_elements doc list
  | None =>
      match marshal templateYAML with
      | MarshalError err =>
          Fatalln Marshalling ["error marshalling manifest" ++ doc ++ ":"; err]
      | Bytes bytes => Continue [Some bytes]
      end
  end.

(** The loop over [templateYAMLs], from the document of index [no] on. *)
Fixpoint documents (r : run) (no : nat) (docs : list document) : round :=
  match docs with
  | [] => Continue []
  | templateYAML :: docs' =>
      match process r no templateYAML with
      | Exit at_ message => Exit at_ message
      | Continue appended =>
          match documents r (S no) docs' with
          | Exit at_ message => Exit at_ message
          | Continue result => Continue (appended ++ result)
          end
      end
  end.

(** The loop that prints [result]. *)
Definition print (json : bool) (result : list (option string)) : string :=
  String.concat EmptyString
    (List.map
       (fun bytes =>
          (if negb json
              && ((1 <? List.length result)%nat
                  || match bytes with
                     | Some b => (String.length b =? 0)%nat
                     | None => true
                     end)
           then "---" ++ nl else EmptyString)
          ++ match bytes with
             | Some b => b ++ (if json then nl else EmptyString)
             | None => EmptyString
             end)
       result).

(** [merge], from the legend on. *)
Definition merge (r : run) : outcome :=
  match feature_error r with
  | Some err => Fatal FeatureFlag (Sprintln [err])
  | None =>
  if (bindings_given r || features_or_tags r || (1 <? List.length (templateYAMLs r))%nat)
     && bindings_given r && negb (bindings_are_map r)
  then Fatal BindingsNoMap (Sprintln ["bindings must be given as map"]) else
  match (if negb (Partial (processingOptions r)) then prepare_error r else None) with
  | Some err => Fatal PrepareStubs (Sprintln ["error generating manifest:"; err; legend])
  | None =>
      match documents r 0 (templateYAMLs r) with
      | Exit at_ message => Fatal at_ message
      | Continue result => Printed (print (json r) result)
      end
  end
  end.

(** [needle] stands at the head of [text]. *)
Fixpoint starts_with (needle text : string) : bool :=
  match needle, text with
  | EmptyString, _ => true
  | String a needle', String b text' => Ascii.eqb a b && starts_with needle' text'
  | String _ _, EmptyString => false
  end.

(** [needle] stands somewhere in [text]. *)
Fixpoint includes (needle text : string) : bool :=
  starts_with needle text
  || match text with
     | EmptyString => false
     | String _ text' => includes needle text'
     end.

Lemma starts_with_app needle post : starts_with needle (needle ++ post) = true.
Proof.
  induction needle as [| a needle IH]; [reflexivity |].
  simpl. now rewrite Ascii.eqb_refl, IH.
Qed.

Lemma starts_with_inv needle : forall text,
  starts_with needle text = true -> exists post, text = needle ++ post.
Proof.
  induction needle as [| a needle IH]; intros text H; [now exists text |].
  destruct text as [| b text]; [discriminate |]. simpl in H.
  apply andb_true_iff in H as [Hab H]. apply Ascii.eqb_eq in Hab. subst b.
  destruct (IH text H) as [post ->]. now exists post.
Qed.

Lemma includes_head needle text : starts_with needle text = true -> includes needle text = true.
Proof. intros H. destruct text; simpl; now rewrite H. Qed.

Lemma includes_app needle pre post : includes needle (pre ++ needle ++ post) = true.
Proof.
  induction pre as [| a pre IH].
  - change (EmptyString ++ needle ++ post) with (needle ++ post).
    apply includes_head, starts_with_app.
  - simpl. rewrite IH. apply orb_true_r.
Qed.

Lemma includes_inv needle : forall text,
  includes needle text = true -> exists pre post, text = pre ++ needle ++ post.
Proof.
  induction text as [| a text IH]; intros H.
  - simpl in H. rewrite orb_false_r in H. apply starts_with_inv in H as [post ->].
    now exists EmptyString, post.
  - simpl in H. apply orb_true_iff in H as [H | H].
    + apply starts_with_inv in H as [post ->]. now exists EmptyString, post.
    + destruct (IH H) as (pre & post & ->). now exists (String a pre), post.
Qed.

Lemma append_assoc (a b c : string) : (a ++ b) ++ c = a ++ b ++ c.
Proof.
  induction a as [| x a IH]; [reflexivity |].
  change (String x ((a ++ b) ++ c) = String x (a ++ b ++ c)). now rewrite IH.
Qed.

Lemma Sprintln_legend head err :
  Sprintln [head; err; legend] = (head ++ " " ++ err ++ " ") ++ legend ++ nl.
Proof.
  unfold Sprintln. cbn [String.concat]. now rewrite !append_assoc.
Qed.

Lemma marshal_elements_site doc list at_ message :
  marshal_elements doc list = Exit at_ message -> at_ = Marshalling.
Proof.
  induction list as [| [bytes | text] list IH]; simpl; intros H; try discriminate.
  - destruct (marshal_elements doc list) as [a m | result]; [| discriminate].
    injection H as -> ->. now apply IH.
  - unfold Fatalln in H. now injection H as <- _.
Qed.

(** The rounds that exit at another call than the one in question. *)
Ltac other_exit :=
  repeat (cbv beta iota;
          match goal with
          | |- context [match ?x with _ => _ end] =>
              lazymatch x with
              | context [match _ with _ => _ end] => fail
              | _ => destruct x
              end
          end);
  cbv beta iota;
  let H := fresh "H" in
  intros H; try discriminate; apply marshal_elements_site in H; discriminate.

(** The exits of a round at [flow.Apply]. *)
Lemma process_Apply r no templateYAML message :
  process r no templateYAML = Exit Apply message ->
  Partial (opts r) = false
  /\ exists err,
       apply_error templateYAML = Some err
       /\ message
          = Sprintln ["error generating manifest"
                        ++ (if (1 <? List.length (templateYAMLs r))%nat
                            then " (document " ++ decimal (no + 1) ++ ")" else EmptyString) ++ ":";
                      err; legend].
Proof.
  unfold process, or_else, Fatalln. intros H.
  destruct (has_value templateYAML); [| discriminate]. cbn [negb] in H.
  destruct (apply_error templateYAML) as [err |].
  - destruct (Partial (opts r)); cbn [negb] in H.
    + exfalso. revert H.
      other_exit.
    + injection H as <-. split; [reflexivity |]. now exists err.
  - exfalso. revert H.
    other_exit.
Qed.

Lemma process_not_PrepareStubs r no templateYAML message :
  process r no templateYAML <> Exit PrepareStubs message.
Proof.
  unfold process, or_else, Fatalln.
  other_exit.
Qed.

Lemma documents_exit r : forall docs no at_ message,
  documents r no docs = Exit at_ message ->
  exists no' templateYAML,
    In templateYAML docs /\ process r no' templateYAML = Exit at_ message.
Proof.
  induction docs as [| d docs IH]; intros no at_ message H; [discriminate |].
  cbn [documents] in H. destruct (process r no d) as [at' message' | appended] eqn:E.
  - injection H as -> ->. exists no, d. split; [now left | exact E].
  - destruct (documents r (S no) docs) as [at' message' | result] eqn:E'; [| discriminate].
    injection H as -> ->. destruct (IH _ _ _ E') as (no' & d' & Hin & Hp).
    exists no', d'. split; [now right | exact Hp].
Qed.

(** X24.  When [flow.PrepareStubs] returns an error and the partial mode of
    the command is off, and when [flow.Apply] returns an error for a
    document and the partial mode of the options is off, the command ends
    in [log.Fatalln] with the error and, after it, the legend; and a
    message of one of these two calls ends with the legend, which gives
    the star as an error in a local dynaml expression, the at sign as
    dependent of or involved in a cycle, and the dash as depending on a
    node with an error. *)
Theorem legend_on_manifest_errors :
  (forall r err,
      feature_error r = None ->
      bindings_given r = false \/ bindings_are_map r = true ->
      Partial (processingOptions r) = false -> prepare_error r = Some err ->
      merge r = Fatal PrepareStubs (Sprintln ["error generating manifest:"; err; legend]))
  /\ (forall r no templateYAML err,
      has_value templateYAML = true -> apply_error templateYAML = Some err ->
      Partial (opts r) = false ->
      process r no templateYAML
      = Exit Apply
          (Sprintln ["error generating manifest"
                       ++ (if (1 <? List.length (templateYAMLs r))%nat
                           then " (document " ++ decimal (no + 1) ++ ")" else EmptyString)
                       ++ ":";
                     err; legend]))
  /\ (forall r at_ message,
      merge r = Fatal at_ message -> at_ = PrepareStubs \/ at_ = Apply ->
      includes legend message = true
      /\ (exists head err, message = (head ++ " " ++ err ++ " ") ++ legend ++ nl)
      /\ (at_ = PrepareStubs -> Partial (processingOptions r) = false)
      /\ (at_ = Apply -> Partial (opts r) = false)).
Proof.
  split; [| split].
  - intros r err Hf Hb Hp He. unfold merge. rewrite Hf, Hp, He.
    destruct Hb as [-> | ->]; now rewrite ?andb_false_r.
  - intros r no d err Hv Ha Hp. unfold process, or_else. now rewrite Hv, Ha, Hp.
  - intros r at_ message Hrun Hsite. unfold merge in Hrun.
    destruct (feature_error r); [injection Hrun as <- _; destruct Hsite; discriminate |].
    destruct (_ && negb (bindings_are_map r));
      [injection Hrun as <- _; destruct Hsite; discriminate |].
    destruct (Partial (processingOptions r)) eqn:Hpartial; cbn [negb] in Hrun.
    + destruct (documents r 0 (templateYAMLs r)) as [at' message' | result] eqn:E;
        [| discriminate].
      injection Hrun as -> ->. destruct (documents_exit _ _ _ _ _ E) as (no & d & _ & Hd).
      destruct Hsite as [-> | ->]; [now apply process_not_PrepareStubs in Hd |].
      apply process_Apply in Hd as (Ho & err & _ & ->). rewrite Sprintln_legend.
      split; [apply includes_app |]. split; [eauto |]. split; [discriminate | auto].
    + destruct (prepare_error r) as [err |].
      * injection Hrun as <- <-. rewrite Sprintln_legend.
        split; [apply includes_app |]. split; [eauto |]. split; [auto | discriminate].
      * destruct (documents r 0 (templateYAMLs r)) as [at' message' | result] eqn:E;
          [| discriminate].
        injection Hrun as -> ->. destruct (documents_exit _ _ _ _ _ E) as (no & d & _ & Hd).
        destruct Hsite as [-> | ->]; [now apply process_not_PrepareStubs in Hd |].
        apply process_Apply in Hd as (Ho & err & _ & ->). rewrite Sprintln_legend.
        split; [apply includes_app |]. split; [eauto |]. split; [discriminate | auto].
Qed.

End Command.
(** A run of the command on a template of two documents. *)
Definition strict : Options := {| Partial := false; PreserveTemporary := false |}.

Definition plain_document : document :=
  {| has_value := true; apply_error := None; temporary := false; subpath_found := true;
     state_written := true; parse_error := None; is_map := true; cascade_error := None;
     selection_found := true; elements := None; marshal := Bytes "a: 1" |}.

Definition plain_run (expression : string) (docs : list document) : run :=
  {| processingOptions := strict; opts := strict; json := false; split := false;
     subpath := EmptyString; selection := []; stateFilePath := EmptyString;
     expr := expression; feature_error := None; bindings_given := false;
     bindings_are_map := true; features_or_tags := false; prepare_error := None;
     templateYAMLs := docs |}.

Definition unresolved : string := "unresolved nodes: (( x )) in template.yml a () *'x' not found".

Lemma legend_on_manifest_errors_witness :
  let r := plain_run EmptyString
             [plain_document;
              {| has_value := true; apply_error := Some unresolved; temporary := false;
                 subpath_found := true; state_written := true; parse_error := None;
                 is_map := true; cascade_error := None; selection_found := true;
                 elements := None; marshal := Bytes "a: 1" |}] in
  merge (fun s => s) r
  = Fatal Apply ("error generating manifest (document 2): " ++ unresolved ++ " " ++ legend ++ nl)
  /\ includes legend
       ("error generating manifest (document 2): " ++ unresolved ++ " " ++ legend ++ nl) = true.
Proof.
  intros r.
  assert (Hrun : merge (fun s => s) r
                 = Fatal Apply ("error generating manifest (document 2): " ++ unresolved
                                  ++ " " ++ legend ++ nl)) by reflexivity.
  split; [exact Hrun |].
  exact (proj1 (proj2 (proj2 (legend_on_manifest_errors (fun s => s))) r Apply _ Hrun
                  (or_intror eq_refl))).
Defined.

(** C7.  The third exit on an evaluation error has no legend: when the
    expression given to the command fails in [flow.Cascade], with the
    partial modes off, the command ends with the error of the evaluation,
    and the legend, which the exits after [flow.PrepareStubs] and
    [flow.Apply] print, is not part of the message. *)
Lemma evaluate_failure_has_no_legend :
  let r := plain_run "x"
             [{| has_value := true; apply_error := None; temporary := false;
                 subpath_found := true; state_written := true; parse_error := None;
                 is_map := true; cascade_error := Some unresolved; selection_found := true;
                 elements := None; marshal := Bytes "a: 1" |}] in
  Partial (processingOptions r) = false /\ Partial (opts r) = false
  /\ merge (fun s => s) r = Fatal ExpressionFailed ("expression x failed: " ++ unresolved ++ nl)
  /\ includes legend ("expression x failed: " ++ unresolved ++ nl) = false
  /\ ~ exists pre post, "expression x failed: " ++ unresolved ++ nl = pre ++ legend ++ post.
Proof.
  intros r. split; [reflexivity |]. split; [reflexivity |]. split; [reflexivity |].
  split; [vm_compute; reflexivity |].
  intros (pre & post & E).
  assert (H : includes legend ("expression x failed: " ++ unresolved ++ nl) = true)
    by (rewrite E; apply includes_app).
  vm_compute in H. discriminate.
Qed.

(** *** Value definitions: [createValuesFromArgs] and [addValue] *)

(** [strings.Split(s, sep)] for a separator of one byte: the pieces of [s]
    between the separators, one more than there are separators. *)
Fixpoint Split (s : string) (sep : ascii) : list string :=
  match s with
  | EmptyString => [EmptyString]
  | String c s' =>
      if Ascii.eqb c sep then EmptyString :: Split s' sep
      else match Split s' sep with
           | piece :: pieces => String c piece :: pieces
           | [] => [String c EmptyString]
           end
  end.

(** [sep] does not occur in [s]. *)
Fixpoint without (sep : ascii) (s : string) : bool :=
  match s with
  | EmptyString => true
  | String c s' => negb (Ascii.eqb c sep) && without sep s'
  end.

Section Values.

(** [%q] of a string *)
Variable Quote : string -> string.

(** The loop of [createValuesFromArgs] over the definitions. *)
Fixpoint define (values : list string) (result : gmap string string)
  : option (gmap string string) * error :=
  match values with
  | [] => (Some result, None)
  | s :: values' =>
      match Split s "=" with
      | [key; value] =>
          if String.eqb key EmptyString
          then (None, Some ("empty key in value definition " ++ Quote s ++ nl))
          else define values' (<[key := value]> result)
      | _ => (None, Some ("invalid value definition " ++ Quote s ++ nl))
      end
  end.

(** [createValuesFromArgs]: the map, [None] for nil, and the error *)
Definition createValuesFromArgs (values : list string)
  : option (gmap string string) * error :=
  if (List.length values =? 0)%nat then (None, None) else define values ∅.


(** A [yaml.Node] by its value and its source name; [Data] stands for the
    values that are neither integers, nor strings, nor maps.  The maps of
    a document form a tree, so that the assignment to a nested map, which
    Go performs in place, is the update of the tree. *)
Variable Data : Type.

Inductive node :=
| NilNode
| NewNode (value : content) (sourceName : string)
with content :=
| Int (i : Z)
| Text (s : string)
| Map (m : gmap string node)
| Other (d : Data).

Definition backslash : ascii := "\"%char.

(** [strings.HasSuffix(comp, "\\")] and [comp[:len(comp)-1]] *)
Fixpoint HasSuffix_backslash (comp : string) : bool :=
  match comp with
  | EmptyString => false
  | String c EmptyString => Ascii.eqb c backslash
  | String _ comp' => HasSuffix_backslash comp'
  end.

Fixpoint drop_last (comp : string) : string :=
  match comp with
  | EmptyString => EmptyString
  | String _ EmptyString => EmptyString
  | String c comp' => String c (drop_last comp')
  end.

(** The loop that takes the backslashes from the end of a component and
    counts them in [mask]; it has a round for every backslash. *)
Fixpoint unmask (rounds : nat) (comp : string) (mask : nat) : string * nat :=
  match rounds with
  | O => (comp, mask)
  | S rounds' =>
      if HasSuffix_backslash comp then unmask rounds' (drop_last comp) (S mask)
      else (comp, mask)
  end.

(** The loop that gives one backslash back for every two. *)
Fixpoint remask (mask : nat) (comp : string) : string * nat :=
  match mask with
  | S (S mask') => remask mask' (comp ++ "\")
  | _ => (comp, mask)
  end.

(** The first loop of [addValue] at the component [comp] with the
    components [rest] behind it: the components it leaves, or the error. *)
Fixpoint join_escaped (name comp : string) (rest : list string) : string + list string :=
  match rest with
  | [] => inr [comp]
  | next :: rest' =>
      if String.eqb comp EmptyString
      then inl ("empty path component in " ++ Quote name)
      else
        let '(comp, mask) := unmask (String.length comp) comp 0 in
        let '(comp, mask) := remask mask comp in
        if (0 <? mask)%nat then join_escaped name (comp ++ "." ++ next) rest'
        else
          match join_escaped name next rest' with
          | inl err => inl err
          | inr comps => inr (comp :: comps)
          end
  end.

(** The second loop of [addValue] with the final assignment: the map
    after it and the error. *)
Fixpoint descend (name : string) (m : gmap string node) (comps : list string)
    (value : node) : gmap string node * error :=
  match comps with
  | [] => (m, None)
  | c :: comps' =>
      match comps' with
      | [] => (<[c := value]> m, None)
      | _ =>
          let fresh :=
            let '(n, err) := descend name ∅ comps' value in
            (<[c := NewNode (Map n) "<values>"]> m, err) in
          match m !! c with
          | None => fresh
          | Some NilNode => fresh
          | Some (NewNode (Map n) source) =>
              let '(n, err) := descend name n comps' value in
              (<[c := NewNode (Map n) source]> m, err)
          | Some _ =>
              (m, Some ("field " ++ Quote c ++ " in " ++ name ++ " is no map"))
          end
      end
  end.

(** [addValue]: the map after the call and the error *)
Definition addValue (m : gmap string node) (name : string) (value : node)
  : gmap string node * error :=
  match Split name "." with
  | [] => (m, None)
  | comp :: rest =>
      match join_escaped name comp rest with
      | inl err => (m, Some err)
      | inr comps => descend name m comps value
      end
  end.

(** The node at a path of keys. *)
Fixpoint lookup_path (m : gmap string node) (path : list string) : option node :=
  match path with
  | [] => None
  | c :: path' =>
      match path' with
      | [] => m !! c
      | _ =>
          match m !! c with
          | Some (NewNode (Map n) _) => lookup_path n path'
          | _ => None
          end
      end
  end.

(** A key with a backslash before each of its dots. *)
Fixpoint escape (key : string) : string :=
  match key with
  | EmptyString => EmptyString
  | String c key' =>
      if Ascii.eqb c "." then String backslash (String "." (escape key'))
      else String c (escape key')
  end.

(** **** The pieces of a split *)

Lemma Split_pieces s sep : exists piece pieces, Split s sep = piece :: pieces.
Proof.
  induction s as [| c s (piece & pieces & IH)]; [now exists EmptyString, [] |].
  cbn [Split]. destruct (Ascii.eqb c sep); [now eexists _, _ |].
  rewrite IH. now eexists _, _.
Qed.

Lemma Split_plain s sep : without sep s = true -> Split s sep = [s].
Proof.
  induction s as [| c s IH]; [reflexivity |]. cbn [without Split].
  intros H. apply andb_true_iff in H as [Hc Hs]. apply negb_true_iff in Hc.
  now rewrite Hc, (IH Hs).
Qed.

Lemma Split_app a b sep :
  Split (a ++ String sep b) sep = (Split a sep ++ Split b sep)%list.
Proof.
  induction a as [| c a IH].
  - change (EmptyString ++ String sep b) with (String sep b). cbn [Split].
    now rewrite Ascii.eqb_refl.
  - change (String c a ++ String sep b) with (String c (a ++ String sep b)).
    cbn [Split]. rewrite IH. destruct (Ascii.eqb c sep); [reflexivity |].
    now destruct (Split_pieces a sep) as (piece & pieces & ->).
Qed.

Lemma Split_without s sep : Forall (fun piece => without sep piece = true) (Split s sep).
Proof.
  induction s as [| c s IH]; [now repeat constructor |]. cbn [Split].
  destruct (Ascii.eqb c sep) eqn:E; [now constructor |].
  destruct (Split_pieces s sep) as (piece & pieces & Hs). rewrite Hs in *.
  inversion IH as [| ? ? Hp Hps]; subst. constructor; [| assumption].
  cbn [without]. now rewrite E, Hp.
Qed.

Lemma concat_cons sep x y l :
  String.concat sep (x :: y :: l) = x ++ sep ++ String.concat sep (y :: l).
Proof. reflexivity. Qed.

Lemma Split_concat s sep : String.concat (String sep EmptyString) (Split s sep) = s.
Proof.
  induction s as [| c s IH]; [reflexivity |]. cbn [Split].
  destruct (Split_pieces s sep) as (piece & pieces & Hs). rewrite Hs in *.
  destruct (Ascii.eqb_spec c sep) as [-> | _].
  - rewrite concat_cons, IH. reflexivity.
  - destruct pieces as [| piece' pieces].
    + change (String.concat (String sep EmptyString) [piece]) with piece in IH.
      now rewrite <- IH.
    + rewrite concat_cons in *. now rewrite <- IH.
Qed.

Lemma Split_two s sep key value :
  Split s sep = [key; value]
  <-> s = key ++ String sep value /\ without sep key = true /\ without sep value = true.
Proof.
  split.
  - intros H. pose proof (Split_concat s sep) as Hc. pose proof (Split_without s sep) as Hw.
    rewrite H in Hc, Hw. inversion Hw as [| ? ? Hk Hw']; subst.
    inversion Hw' as [| ? ? Hv _]; subst. now repeat split.
  - intros (-> & Hk & Hv). now rewrite Split_app, !Split_plain.
Qed.

(** **** [createValuesFromArgs] *)

(** The value of the last of the definitions [kvs] that has the key. *)
Fixpoint defined (key : string) (kvs : list (string * string)) : option string :=
  match kvs with
  | [] => None
  | (k, v) :: kvs' =>
      match defined key kvs' with
      | Some v' => Some v'
      | None => if String.eqb key k then Some v else None
      end
  end.

(** A definition [key=value]. *)
Definition definition (s key value : string) : Prop :=
  s = key ++ "=" ++ value
  /\ key <> EmptyString /\ without "=" key = true /\ without "=" value = true.

Lemma define_step s values result :
  define (s :: values) result
  = match Split s "=" with
    | [key; value] =>
        if String.eqb key EmptyString
        then (None, Some ("empty key in value definition " ++ Quote s ++ nl))
        else define values (<[key := value]> result)
    | _ => (None, Some ("invalid value definition " ++ Quote s ++ nl))
    end.
Proof. reflexivity. Qed.

Lemma define_definition s key value values result :
  definition s key value ->
  define (s :: values) result = define values (<[key := value]> result).
Proof.
  intros (Hs & Hk & Hwk & Hwv). rewrite define_step.
  rewrite (proj2 (Split_two s "=" key value)) by now repeat split.
  now destruct (String.eqb_spec key EmptyString).
Qed.

Lemma define_error_iff values : forall result,
  snd (define values result) = None
  <-> Forall (fun s => exists key value, definition s key value) values.
Proof.
  induction values as [| s values IH]; intros result; [now split; [constructor |] |].
  split.
  - intros H. rewrite define_step in H.
    destruct (Split s "=") as [| key [| value [| ? ?]]] eqn:E; try discriminate.
    destruct (String.eqb_spec key EmptyString) as [| Hk]; [discriminate |].
    apply Split_two in E as (Hs & Hwk & Hwv).
    constructor; [| now apply IH in H].
    exists key, value. now repeat split.
  - intros H. inversion H as [| ? ? (key & value & Hd) H']; subst.
    rewrite (define_definition _ _ _ _ _ Hd). now apply IH.
Qed.

Lemma define_failed values : forall result,
  snd (define values result) <> None -> fst (define values result) = None.
Proof.
  induction values as [| s values IH]; intros result; [now intros [] |].
  rewrite define_step.
  destruct (Split s "=") as [| key [| value [| ? ?]]]; try reflexivity.
  destruct (String.eqb key EmptyString); [reflexivity | apply IH].
Qed.

Lemma define_defined kvs : forall result,
  Forall (fun kv => fst kv <> EmptyString /\ without "=" (fst kv) = true
                    /\ without "=" (snd kv) = true) kvs ->
  exists m,
    define (List.map (fun kv => fst kv ++ "=" ++ snd kv) kvs) result = (Some m, None)
    /\ forall key, m !! key = match defined key kvs with
                              | Some v => Some v
                              | None => result !! key
                              end.
Proof.
  induction kvs as [| [k v] kvs IH]; intros result H.
  - exists result. now split.
  - inversion H as [| ? ? (Hk & Hwk & Hwv) H']; subst. cbn [fst snd] in *.
    cbn [List.map fst snd].
    rewrite (define_definition _ k v) by now repeat split.
    destruct (IH (<[k := v]> result) H') as (m & -> & Hm).
    exists m. split; [reflexivity |]. intros key. rewrite Hm. cbn [defined].
    destruct (defined key kvs); [reflexivity |].
    destruct (String.eqb_spec key k) as [-> | Hne].
    + now rewrite lookup_insert_eq.
    + now rewrite lookup_insert_ne by congruence.
Qed.

(** X19.  [createValuesFromArgs] returns no error exactly when every
    definition is a key, one equals sign and a value, with a key that is
    not empty; the map has the value of the last definition of every key
    and no other key, it is nil when there is an error, and also when
    there is no definition at all. *)
Theorem createValuesFromArgs_last_definition_wins :
  (forall values,
     snd (createValuesFromArgs values) = None
     <-> Forall (fun s => exists key value, definition s key value) values)
  /\ (forall kvs,
        kvs <> [] ->
        Forall (fun kv => fst kv <> EmptyString /\ without "=" (fst kv) = true
                          /\ without "=" (snd kv) = true) kvs ->
        exists m,
          createValuesFromArgs (List.map (fun kv => fst kv ++ "=" ++ snd kv) kvs)
          = (Some m, None)
          /\ forall key, m !! key = defined key kvs)
  /\ (forall values,
        snd (createValuesFromArgs values) <> None ->
        fst (createValuesFromArgs values) = None)
  /\ createValuesFromArgs [] = (None, None).
Proof.
  split; [| split; [| split; [| reflexivity]]].
  - intros [| s values]; [now split; [constructor |] |]. apply define_error_iff.
  - intros [| kv kvs] Hne H; [now destruct Hne |].
    destruct (define_defined (kv :: kvs) ∅ H) as (m & Hm & Hl).
    exists m. split; [exact Hm |]. intros key. rewrite Hl, lookup_empty.
    now destruct (defined key (kv :: kvs)).
  - intros [| s values]; [now intros [] |]. apply define_failed.
Qed.

(** **** The backslashes at the end of a component *)

Fixpoint backslashes (n : nat) : string :=
  match n with
  | O => EmptyString
  | S n' => String backslash (backslashes n')
  end.

Lemma append_nil_r (s : string) : s ++ EmptyString = s.
Proof.
  induction s as [| c s IH]; [reflexivity |].
  change (String c (s ++ EmptyString) = String c s). now rewrite IH.
Qed.

Lemma append_cons c (a b : string) : String c a ++ b = String c (a ++ b).
Proof. reflexivity. Qed.

Lemma append_length (a b : string) :
  String.length (a ++ b) = (String.length a + String.length b)%nat.
Proof.
  induction a as [| c a IH]; [reflexivity |]. rewrite append_cons. cbn. now rewrite IH.
Qed.

Lemma HasSuffix_backslash_append a c b :
  HasSuffix_backslash (a ++ String c b) = HasSuffix_backslash (String c b).
Proof.
  induction a as [| x a IH]; [reflexivity |]. rewrite append_cons.
  destruct a as [| y a]; [reflexivity |]. exact IH.
Qed.

Lemma drop_last_append a c : drop_last (a ++ String c EmptyString) = a.
Proof.
  induction a as [| x a IH]; [reflexivity |]. rewrite append_cons.
  destruct a as [| y a]; [reflexivity |]. cbn [drop_last] in *.
  rewrite append_cons in *. now rewrite IH.
Qed.

Lemma backslashes_end n : backslashes (S n) = backslashes n ++ String backslash EmptyString.
Proof.
  induction n as [| n IH]; [reflexivity |].
  change (backslashes (S (S n))) with (String backslash (backslashes (S n))).
  rewrite IH at 1. reflexivity.
Qed.

Lemma backslashes_add a b : backslashes (a + b) = backslashes a ++ backslashes b.
Proof. induction a as [| a IH]; [reflexivity |]. cbn. now rewrite IH. Qed.

Lemma backslashes_length n : String.length (backslashes n) = n.
Proof. induction n as [| n IH]; [reflexivity |]. cbn. now rewrite IH. Qed.

Lemma unmask_backslashes body : HasSuffix_backslash body = false ->
  forall n rounds mask, (n <= rounds)%nat ->
    unmask rounds (body ++ backslashes n) mask = (body, (mask + n)%nat).
Proof.
  intros Hopen. induction n as [| n IH]; intros rounds mask Hr.
  - rewrite append_nil_r, Nat.add_0_r. destruct rounds; [reflexivity |].
    cbn [unmask]. now rewrite Hopen.
  - destruct rounds as [| rounds]; [lia |]. cbn [unmask].
    rewrite backslashes_end, <- append_assoc, HasSuffix_backslash_append.
    cbn [HasSuffix_backslash]. unfold backslash at 2. rewrite Ascii.eqb_refl.
    rewrite drop_last_append, IH by lia. f_equal. lia.
Qed.

Lemma remask_two mask comp : remask (S (S mask)) comp = remask mask (comp ++ "\").
Proof. reflexivity. Qed.

Lemma remask_backslashes k : forall comp,
  remask (2 * k) comp = (comp ++ backslashes k, O)
  /\ remask (S (2 * k)) comp = (comp ++ backslashes k, 1%nat).
Proof.
  induction k as [| k IH]; intros comp; [now rewrite append_nil_r |].
  replace (2 * S k)%nat with (S (S (2 * k))) by lia. rewrite !remask_two.
  destruct (IH (comp ++ "\")) as [-> ->].
  rewrite append_assoc. now split.
Qed.

Lemma HasSuffix_backslash_drop_last comp :
  HasSuffix_backslash comp = true -> comp = drop_last comp ++ String backslash EmptyString.
Proof.
  induction comp as [| c comp IH]; [discriminate |].
  destruct comp as [| d comp].
  - cbn [HasSuffix_backslash drop_last]. intros H. apply Ascii.eqb_eq in H. now subst c.
  - intros H. change (HasSuffix_backslash (String d comp) = true) in H.
    change (drop_last (String c (String d comp)))
      with (String c (drop_last (String d comp))).
    rewrite append_cons. now rewrite <- (IH H).
Qed.

(** The rounds of [unmask] suffice: it takes all the backslashes at the
    end of the component. *)
Lemma unmask_takes_all rounds : forall comp mask,
  (String.length comp <= rounds)%nat ->
  exists body k,
    unmask rounds comp mask = (body, (mask + k)%nat)
    /\ HasSuffix_backslash body = false /\ comp = body ++ backslashes k.
Proof.
  induction rounds as [| rounds IH]; intros comp mask Hlen.
  - destruct comp; [| cbn in Hlen; lia]. exists EmptyString, O.
    cbn [unmask]. now rewrite Nat.add_0_r.
  - cbn [unmask]. destruct (HasSuffix_backslash comp) eqn:E.
    + pose proof (HasSuffix_backslash_drop_last comp E) as Hc.
      assert (Hl : (String.length (drop_last comp) <= rounds)%nat).
      { rewrite Hc, append_length in Hlen. cbn in Hlen. lia. }
      destruct (IH (drop_last comp) (S mask) Hl) as (body & k & -> & Hopen & Hb).
      exists body, (S k). split; [f_equal; lia |]. split; [exact Hopen |].
      rewrite Hc, Hb at 1. now rewrite backslashes_end, append_assoc.
    + exists comp, O. now rewrite Nat.add_0_r, append_nil_r.
Qed.

(** Of the [2 * k] backslashes at the end of a component [k] are kept. *)
Lemma join_escaped_keeps name body k next rest :
  HasSuffix_backslash body = false ->
  body ++ backslashes k <> EmptyString ->
  join_escaped name (body ++ backslashes (2 * k)) (next :: rest)
  = match join_escaped name next rest with
    | inl err => inl err
    | inr comps => inr ((body ++ backslashes k) :: comps)
    end.
Proof.
  intros Hopen Hne. cbn [join_escaped].
  destruct (String.eqb_spec (body ++ backslashes (2 * k)) EmptyString) as [E | _].
  - exfalso. apply Hne. destruct body; [| discriminate E].
    destruct k; [reflexivity | discriminate E].
  - rewrite unmask_backslashes by (assumption || rewrite append_length, backslashes_length; lia).
    cbn [Nat.add]. now rewrite (proj1 (remask_backslashes k body)).
Qed.

(** With [2 * k + 1] backslashes at its end a component keeps [k] of them
    and goes on behind a dot with the next one. *)
Lemma join_escaped_merges name body k next rest :
  HasSuffix_backslash body = false ->
  join_escaped name (body ++ backslashes (S (2 * k))) (next :: rest)
  = join_escaped name ((body ++ backslashes k) ++ "." ++ next) rest.
Proof.
  intros Hopen. cbn [join_escaped].
  destruct (String.eqb_spec (body ++ backslashes (S (2 * k))) EmptyString) as [E | _].
  - destruct body; discriminate E.
  - rewrite unmask_backslashes by (assumption || rewrite append_length, backslashes_length; lia).
    cbn [Nat.add]. now rewrite (proj2 (remask_backslashes k body)).
Qed.

(** **** Escaped dots *)

Lemma without_open s : without backslash s = true -> HasSuffix_backslash s = false.
Proof.
  induction s as [| c s IH]; [reflexivity |]. cbn [without]. intros H.
  apply andb_true_iff in H as [Hc Hs]. apply negb_true_iff in Hc.
  destruct s as [| d s]; [exact Hc | exact (IH Hs)].
Qed.

Lemma open_append acc c :
  Ascii.eqb c backslash = false -> HasSuffix_backslash (acc ++ String c EmptyString) = false.
Proof. intros H. now rewrite HasSuffix_backslash_append. Qed.

Lemma append_char (acc : string) c s : acc ++ String c s = (acc ++ String c EmptyString) ++ s.
Proof. now rewrite append_assoc. Qed.

(** The pieces of an escaped key are joined to the key again. *)
Lemma join_escaped_escape name key : forall acc piece pieces rest,
  without backslash key = true ->
  HasSuffix_backslash acc = false ->
  Split (escape key) "." = piece :: pieces ->
  join_escaped name (acc ++ piece) (pieces ++ rest)%list = join_escaped name (acc ++ key) rest.
Proof.
  induction key as [| c key IH]; intros acc piece pieces rest Hkey Hacc Hsplit.
  - injection Hsplit as <- <-. reflexivity.
  - cbn [without] in Hkey. apply andb_true_iff in Hkey as [Hc Hkey].
    apply negb_true_iff in Hc. cbn [escape] in Hsplit.
    destruct (Split_pieces (escape key) ".") as (piece' & pieces' & Hs).
    destruct (Ascii.eqb_spec c ".") as [-> | Hdot].
    + cbn [Split] in Hsplit. rewrite Hs in Hsplit. cbn in Hsplit.
      injection Hsplit as <- <-.
      change (join_escaped name (acc ++ backslashes (S (2 * 0)))
                (piece' :: (pieces' ++ rest)%list)
              = join_escaped name (acc ++ String "." key) rest).
      rewrite (join_escaped_merges name acc 0 piece' (pieces' ++ rest)%list Hacc).
      change (backslashes 0) with EmptyString. rewrite append_nil_r.
      change ("." ++ piece') with (String "." piece').
      rewrite append_char, (append_char acc "." key).
      apply IH; [assumption | now apply open_append | assumption].
    + cbn [Split] in Hsplit. rewrite Hs in Hsplit.
      destruct (Ascii.eqb_spec c ".") as [| _]; [contradiction |].
      injection Hsplit as <- <-.
      rewrite append_char, (append_char acc c key).
      apply IH; [assumption | now apply open_append | assumption].
Qed.

(** The name for a path of keys. *)
Definition path_name (comps : list string) : string :=
  String.concat "." (List.map escape comps).

Lemma join_escaped_path name comps : forall piece pieces,
  comps <> [] ->
  Forall (fun c => without backslash c = true) comps ->
  Forall (fun c => c <> EmptyString) (removelast comps) ->
  Split (path_name comps) "." = piece :: pieces ->
  join_escaped name piece pieces = inr comps.
Proof.
  induction comps as [| c comps IH]; intros piece pieces Hne Hplain Hfull Hsplit;
    [now destruct Hne |].
  inversion Hplain as [| ? ? Hc Hplain']; subst.
  destruct (Split_pieces (escape c) ".") as (p & ps & Hs).
  destruct comps as [| c' comps].
  - unfold path_name in Hsplit. cbn [List.map String.concat] in Hsplit.
    rewrite Hs in Hsplit. injection Hsplit as <- <-.
    rewrite <- (app_nil_r ps).
    change p with (EmptyString ++ p).
    now rewrite (join_escaped_escape name c EmptyString p ps [] Hc eq_refl Hs).
  - unfold path_name in Hsplit. cbn [List.map] in Hsplit. rewrite concat_cons in Hsplit.
    change ("." ++ String.concat "." (escape c' :: List.map escape comps))
      with (String "." (path_name (c' :: comps))) in Hsplit.
    rewrite Split_app, Hs in Hsplit.
    destruct (Split_pieces (path_name (c' :: comps)) ".") as (q & qs & Hq).
    rewrite Hq in Hsplit. injection Hsplit as <- <-.
    change p with (EmptyString ++ p).
    rewrite (join_escaped_escape name c EmptyString p ps (q :: qs) Hc eq_refl Hs).
    change (EmptyString ++ c) with c.
    cbn [removelast] in Hfull. inversion Hfull as [| ? ? Hcne Hfull']; subst.
    pose proof (join_escaped_keeps name c 0 q qs (without_open c Hc)) as Hk.
    change (backslashes (2 * 0)) with EmptyString in Hk.
    change (backslashes 0) with EmptyString in Hk.
    rewrite append_nil_r in Hk. rewrite (Hk Hcne).
    now rewrite (IH q qs ltac:(discriminate) Hplain' Hfull' Hq).
Qed.

(** **** The maps on the path *)

Lemma descend_step name m c c' comps value :
  descend name m (c :: c' :: comps) value
  = match m !! c with
    | Some (NewNode (Map n) source) =>
        let '(n, err) := descend name n (c' :: comps) value in
        (<[c := NewNode (Map n) source]> m, err)
    | None | Some NilNode =>
        let '(n, err) := descend name ∅ (c' :: comps) value in
        (<[c := NewNode (Map n) "<values>"]> m, err)
    | Some _ => (m, Some ("field " ++ Quote c ++ " in " ++ name ++ " is no map"))
    end.
Proof.
  cbn [descend]. destruct (m !! c) as [[| [] ?] |]; reflexivity.
Qed.

Lemma descend_fresh name value comps : snd (descend name ∅ comps value) = None.
Proof.
  induction comps as [| c [| c' comps] IH]; try reflexivity.
  rewrite descend_step, lookup_empty.
  destruct (descend name ∅ (c' :: comps) value) as [n err]. exact IH.
Qed.

Lemma descend_failed name value comps : forall m,
  snd (descend name m comps value) <> None -> fst (descend name m comps value) = m.
Proof.
  induction comps as [| c [| c' comps] IH]; intros m; try reflexivity.
  - now intros [].
  - rewrite descend_step. destruct (m !! c) as [[| [i | s | n | d] source] |] eqn:E;
      try reflexivity.
    + pose proof (descend_fresh name value (c' :: comps)) as Hf.
      destruct (descend name ∅ (c' :: comps) value) as [n err]. cbn [snd] in *.
      now intros [].
    + specialize (IH n). destruct (descend name n (c' :: comps) value) as [n' err].
      cbn [fst snd] in *. intros H. rewrite (IH H). now apply insert_id.
    + pose proof (descend_fresh name value (c' :: comps)) as Hf.
      destruct (descend name ∅ (c' :: comps) value) as [n err]. cbn [snd] in *.
      now intros [].
Qed.

Lemma descend_lookup name value comps : forall m m',
  comps <> [] ->
  descend name m comps value = (m', None) ->
  lookup_path m' comps = Some value
  /\ forall key, key <> hd EmptyString comps -> m' !! key = m !! key.
Proof.
  induction comps as [| c [| c' comps] IH]; intros m m' Hne H; [now destruct Hne | |].
  - injection H as <-. cbn [lookup_path hd]. split; [apply lookup_insert_eq |].
    intros key Hk. now rewrite lookup_insert_ne by congruence.
  - rewrite descend_step in H. cbn [hd].
    assert (Hstep : forall n n' source,
              descend name n (c' :: comps) value = (n', None) ->
              m' = <[c := NewNode (Map n') source]> m ->
              lookup_path m' (c :: c' :: comps) = Some value
              /\ forall key, key <> c -> m' !! key = m !! key).
    { intros n n' source Hd ->. split.
      - change (lookup_path (<[c := NewNode (Map n') source]> m) (c :: c' :: comps))
          with (match <[c := NewNode (Map n') source]> m !! c with
                | Some (NewNode (Map n) _) => lookup_path n (c' :: comps)
                | _ => None
                end).
        rewrite lookup_insert_eq. now apply (IH n n' ltac:(discriminate) Hd).
      - intros key Hk. now rewrite lookup_insert_ne by congruence. }
    destruct (m !! c) as [[| [i | s | n | d] source] |] eqn:E; try discriminate.
    + destruct (descend name ∅ (c' :: comps) value) as [n err] eqn:Hd.
      injection H as <- ->. now apply (Hstep ∅ n "<values>").
    + destruct (descend name n (c' :: comps) value) as [n' err] eqn:Hd.
      injection H as <- ->. now apply (Hstep n n' source).
    + destruct (descend name ∅ (c' :: comps) value) as [n err] eqn:Hd.
      injection H as <- ->. now apply (Hstep ∅ n "<values>").
Qed.

(** **** [addValue] *)

Lemma join_escaped_error name rest : forall comp err,
  join_escaped name comp rest = inl err -> err = "empty path component in " ++ Quote name.
Proof.
  induction rest as [| next rest IH]; intros comp err H; [discriminate |].
  cbn [join_escaped] in H. destruct (String.eqb comp EmptyString); [congruence |].
  destruct (unmask (String.length comp) comp 0) as [comp1 mask1].
  destruct (remask mask1 comp1) as [comp2 mask2].
  destruct (0 <? mask2)%nat; [now apply (IH _ _ H) |].
  destruct (join_escaped name next rest) as [err' | comps] eqn:E; [| discriminate].
  injection H as <-. now apply (IH _ _ E).
Qed.

Lemma without_append sep a b :
  without sep (a ++ b) = without sep a && without sep b.
Proof.
  induction a as [| c a IH]; [reflexivity |]. rewrite append_cons. cbn [without].
  now rewrite IH, andb_assoc.
Qed.

Lemma without_backslashes n : without "." (backslashes n) = true.
Proof. induction n as [| n IH]; [reflexivity | exact IH]. Qed.

Lemma Split_pair a b sep :
  without sep a = true -> without sep b = true -> Split (a ++ String sep b) sep = [a; b].
Proof. intros Ha Hb. now rewrite Split_app, !Split_plain. Qed.

(** X20.  [addValue] leaves the map as it was whenever it returns an
    error: the maps on the path are only created once no error can follow.
    On an empty map its one error is the empty path component. *)
Theorem addValue_changes_nothing_on_error :
  (forall m name value,
     snd (addValue m name value) <> None -> fst (addValue m name value) = m)
  /\ (forall name value,
        snd (addValue ∅ name value) = None
        \/ snd (addValue ∅ name value) = Some ("empty path component in " ++ Quote name)).
Proof.
  split.
  - intros m name value. unfold addValue.
    destruct (Split name ".") as [| comp rest]; [reflexivity |].
    destruct (join_escaped name comp rest) as [err | comps]; [reflexivity |].
    apply descend_failed.
  - intros name value. unfold addValue.
    destruct (Split name ".") as [| comp rest]; [now left |].
    destruct (join_escaped name comp rest) as [err | comps] eqn:E.
    + right. cbn [snd]. now rewrite (join_escaped_error _ _ _ _ E).
    + left. apply descend_fresh.
Qed.

(** X21.  A value added under the name of a path of keys is found at that
    path: the keys are joined by dots and a dot inside a key is written
    with a backslash before it; the keys have no backslash and only the
    last may be empty.  Next to the first key the map is as before, and on
    an empty map the call has no error. *)
Theorem addValue_then_lookup_path m comps value
    (Hne : comps <> [])
    (Hplain : Forall (fun c => without backslash c = true) comps)
    (Hfull : Forall (fun c => c <> EmptyString) (removelast comps)) :
  (forall m',
     addValue m (path_name comps) value = (m', None) ->
     lookup_path m' comps = Some value
     /\ forall key, key <> hd EmptyString comps -> m' !! key = m !! key)
  /\ snd (addValue ∅ (path_name comps) value) = None.
Proof.
  unfold addValue.
  destruct (Split_pieces (path_name comps) ".") as (piece & pieces & Hs). rewrite Hs.
  rewrite (join_escaped_path (path_name comps) comps piece pieces Hne Hplain Hfull Hs).
  split; [| apply descend_fresh].
  intros m' H. now apply (descend_lookup (path_name comps) value comps m m').
Qed.

(** X22.  Backslashes before a dot of the name: with an odd number the
    dot belongs to the key, with an even number it ends the key, and the
    key keeps one backslash of every two.  A name without a dot is the key
    as it stands, empty or with backslashes. *)
Theorem addValue_backslashes_before_a_dot m body k last value
    (Hbody : HasSuffix_backslash body = false)
    (Hdots : without "." body = true)
    (Hlast : without "." last = true) :
  addValue m (body ++ backslashes (S (2 * k)) ++ "." ++ last) value
  = (<[(body ++ backslashes k) ++ "." ++ last := value]> m, None)
  /\ (body ++ backslashes k <> EmptyString ->
      addValue ∅ (body ++ backslashes (2 * k) ++ "." ++ last) value
      = (<[body ++ backslashes k := NewNode (Map (<[last := value]> ∅)) "<values>"]> ∅,
         None))
  /\ addValue m last value = (<[last := value]> m, None).
Proof.
  assert (Hsplit : forall j,
            Split (body ++ backslashes j ++ "." ++ last) "."
            = [body ++ backslashes j; last]).
  { intros j. rewrite <- append_assoc. apply Split_pair; [| assumption].
    now rewrite without_append, Hdots, without_backslashes. }
  split; [| split].
  - unfold addValue. rewrite Hsplit.
    now rewrite (join_escaped_merges _ body k last [] Hbody).
  - intros Hne. unfold addValue. rewrite Hsplit.
    rewrite (join_escaped_keeps _ body k last [] Hbody Hne). cbn [join_escaped].
    rewrite descend_step, lookup_empty. reflexivity.
  - unfold addValue. now rewrite (Split_plain last "." Hlast).
Qed.

End Values.

Arguments NewNode {Data} value sourceName.
Arguments Int {Data} i.
Arguments Text {Data} s.
Arguments Map {Data} m.

Lemma addValue_then_lookup_path_witness :
  let comps := ["a.b"; "c"] in
  path_name comps = "a\.b.c"
  /\ exists m' : gmap string (node unit),
       addValue (fun s => s) unit ∅ "a\.b.c" (NewNode (Int 1) "<values>") = (m', None)
       /\ lookup_path unit m' comps = Some (NewNode (Int 1) "<values>").
Proof.
  intros comps. split; [reflexivity |].
  destruct (addValue_then_lookup_path (fun s => s) unit ∅ comps (NewNode (Int 1) "<values>"))
    as [Hfind Hok].
  - discriminate.
  - repeat constructor.
  - repeat constructor. discriminate.
  - change (path_name comps) with "a\.b.c" in *.
    destruct (addValue (fun s => s) unit ∅ "a\.b.c" (NewNode (Int 1) "<values>"))
      as [m' err] eqn:E.
    cbn [snd] in Hok. subst err. exists m'. split; [reflexivity |].
    now apply Hfind.
Defined.

Lemma addValue_backslashes_before_a_dot_witness :
  addValue (fun s => s) unit ∅ "a\\\.b" (NewNode (Text "x") "<values>")
  = (<["a\.b" := NewNode (Text "x") "<values>"]> ∅, None).
Proof.
  exact (proj1 (addValue_backslashes_before_a_dot (fun s => s) unit ∅ "a" 1 "b"
                  (NewNode (Text "x") "<values>") eq_refl eq_refl eq_refl)).
Defined.

End MergeCmd.
